(** * Incremental-bitmap plugin: bitmap engine, event interceptor and
      backup coordinator.

    A shallow embedding of the C sources of [plugins/incremental_bitmap]
    (the RoaringBitmap adapter, [bitmap_engine.c], [event_interceptor.c],
    [storage_engine_interface.c] and [backup_coordinator.c]) and the
    properties of the specification that were checked against them.

    Conventions.
    - C integers are [Z]; a store into a [uint32_t] or [uint64_t] is written
      with [wrap32] or [wrap64], a conversion to [int64_t] with [to_int64].
    - A bitmap is the set of ids it holds ([gset Z]).
    - Pointers are always valid: the NULL guards at the head of the C
      functions are outside the model.  Locks are not modelled: every
      function is one atomic step on the state it receives. *)

From Stdlib Require Import ZArith Lia List Bool.
From stdpp Require Import gmap sets list sorting.

Local Open Scope Z_scope.

(** ** Machine integers *)

Definition wrap32 (z : Z) : Z := z mod 2 ^ 32.
Definition wrap64 (z : Z) : Z := z mod 2 ^ 64.

(** Conversion of a 64-bit unsigned value to [int64_t]. *)
Definition to_int64 (z : Z) : Z :=
  let w := wrap64 z in if w <? 2 ^ 63 then w else w - 2 ^ 64.

(** ** The RoaringBitmap adapter ([roaring_bitmap.c]) *)

Module Roaring.

(** The two CRoaring entry points the adapter relies on for reading a
    bitmap: the number of ids, and the export of every id, in ascending
    order, into the caller's array (the library leaves the size of that
    array to the caller). *)
Definition roaring64_bitmap_get_cardinality (b : gset Z) : Z :=
  Z.of_nat (size b).

Definition roaring64_bitmap_to_uint64_array (b : gset Z) : list Z :=
  merge_sort Z.le (elements b).

Definition tdengine_roaring_create : gset Z := ∅.

Definition tdengine_roaring_add (b : gset Z) (value : Z) : gset Z :=
  {[ value ]} ∪ b.

Definition tdengine_roaring_remove (b : gset Z) (value : Z) : gset Z :=
  b ∖ {[ value ]}.

Definition tdengine_roaring_contains (b : gset Z) (value : Z) : bool :=
  bool_decide (value ∈ b).

(** The 64-bit cardinality is returned through a [uint32_t]. *)
Definition tdengine_roaring_cardinality (b : gset Z) : Z :=
  wrap32 (roaring64_bitmap_get_cardinality b).

Definition tdengine_roaring_union_with (b other : gset Z) : gset Z :=
  b ∪ other.

Definition tdengine_roaring_intersect_with (b other : gset Z) : gset Z :=
  b ∩ other.

Definition tdengine_roaring_subtract (b other : gset Z) : gset Z :=
  b ∖ other.

(** [tdengine_roaring_to_array bitmap array max_count].  The result is
    the list of ids stored into [array] from index 0 on, and the
    returned count. *)
Definition tdengine_roaring_to_array (b : gset Z) (max_count : Z)
  : list Z * Z :=
  let cardinality := roaring64_bitmap_get_cardinality b in
  let count :=
    wrap32 (if cardinality <? max_count then cardinality else max_count) in
  (if 0 <? count then roaring64_bitmap_to_uint64_array b else [], count).

End Roaring.

(** ** The ordered index *)

Module SkipList.

(** Modelled from the spec: [skiplist.c] and [skiplist.h] are not among
    the sources.  The specification describes an ordered mapping
    [i64 -> Bitmap] with [find], [insert] and an ordered range iteration
    that invokes the callback on every key of [[k_lo, k_hi]], in
    ascending key order, or descending when [reverse] is set. *)
Definition skiplist_create : gmap Z (gset Z) := ∅.

(** Modelled from the spec: [find] of the ordered index ([skiplist.c] is
    missing); the bitmap bound to the key, or NULL. *)
Definition skiplist_find (sl : gmap Z (gset Z)) (key : Z)
  : option (gset Z) := sl !! key.

(** Modelled from the spec: [insert] of the ordered index ([skiplist.c]
    is missing). *)
Definition skiplist_insert (sl : gmap Z (gset Z)) (key : Z) (bm : gset Z)
  : gmap Z (gset Z) := <[ key := bm ]> sl.

(** Modelled from the spec: the order of the index is the order of its
    keys ([skiplist.c] is missing). *)
Definition key_le (a b : Z * gset Z) : Prop := a.1 ≤ b.1.

#[global] Instance key_le_dec a b : Decision (key_le a b).
Proof. unfold key_le. apply _. Defined.

(** Modelled from the spec: a key of [[k_lo, k_hi]], bounds included
    ([skiplist.c] is missing). *)
Definition in_range (k_lo k_hi : Z) (kv : Z * gset Z) : bool :=
  (k_lo <=? kv.1) && (kv.1 <=? k_hi).

(** Modelled from the spec: the entries with a key in [[k_lo, k_hi]], by
    ascending key ([skiplist.c] is missing). *)
Definition range_entries (sl : gmap Z (gset Z)) (k_lo k_hi : Z)
  : list (Z * gset Z) :=
  List.filter (in_range k_lo k_hi) (merge_sort key_le (map_to_list sl)).

(** Modelled from the spec: the range iteration
    [for_each(k_lo, k_hi, reverse, fn)] ([skiplist.c] is missing); [acc]
    is the state the callback works on. *)
Definition skiplist_range_query {A : Type} (sl : gmap Z (gset Z))
    (k_lo k_hi : Z) (reverse : bool) (fn : Z → gset Z → A → A) (acc : A)
  : A :=
  let visited := range_entries sl k_lo k_hi in
  fold_left (fun a kv => fn kv.1 kv.2 a)
            (if reverse then rev visited else visited) acc.

End SkipList.

(** ** The bitmap engine ([bitmap_engine.c]) *)

Module Engine.
Import Roaring SkipList.

(** Modelled from the spec: [bitmap_engine.h], which declares the enum, is
    missing.  The four states of the specification, in the order of the
    rows of [STATE_TRANSITION_MATRIX] and of [state_names]. *)
Inductive EBlockState : Set :=
| BLOCK_STATE_CLEAN
| BLOCK_STATE_DIRTY
| BLOCK_STATE_NEW
| BLOCK_STATE_DELETED.

#[global] Instance EBlockState_eq_dec : EqDecision EBlockState.
Proof. solve_decision. Defined.

Definition state_code (s : EBlockState) : Z :=
  match s with
  | BLOCK_STATE_CLEAN => 0
  | BLOCK_STATE_DIRTY => 1
  | BLOCK_STATE_NEW => 2
  | BLOCK_STATE_DELETED => 3
  end.

(** Modelled from the spec: [bitmap_engine.h], which defines the [ERR_]
    macros, is missing.  The error kinds of the specification that the
    engine returns; the code only ever compares a status against 0. *)
Inductive status : Set :=
| SUCCESS                  (* 0 *)
| FAILURE                  (* the literal -1 *)
| ERR_INVALID_PARAM
| ERR_INVALID_STATE_TRANS
| ERR_BLOCK_NOT_FOUND.

#[global] Instance status_eq_dec : EqDecision status.
Proof. solve_decision. Defined.

(** Modelled from the spec: [bitmap_engine.h], which declares the struct,
    is missing.  The metadata of the specification, with the fields the
    mark functions fill in. *)
Record SBlockMetadata : Set := {
  block_id : Z;
  wal_offset : Z;
  timestamp : Z;
  state : EBlockState
}.

(** Modelled from the spec: [bitmap_engine.h], which declares the struct,
    is missing.  A node of a hash chain, with the fields the chain
    functions use; the [next] pointer is the tail of the list that holds
    the node. *)
Record SBlockMetadataNode : Set := {
  node_block_id : Z;
  metadata : SBlockMetadata
}.

(** Modelled from the spec: [bitmap_engine.h], which declares the struct,
    is missing.  The state of the specification (three bitmaps, the
    metadata map, two ordered indices, counters), under the field names
    the functions below read and write.  [metadata_map] is the array of
    chain heads, indexed by hash value; an index that is not bound holds
    the NULL chain.  The counters are taken to be [uint64_t], as the
    output parameters of [bitmap_engine_get_stats] are. *)
Record SBitmapEngine : Type := {
  dirty_blocks : gset Z;
  new_blocks : gset Z;
  deleted_blocks : gset Z;
  metadata_map : gmap Z (list SBlockMetadataNode);
  metadata_map_size : Z;
  time_index : gmap Z (gset Z);
  wal_index : gmap Z (gset Z);
  total_blocks : Z;
  dirty_count : Z;
  new_count : Z;
  deleted_count : Z;
  metadata_count : Z
}.

Definition hash_block_id (block_id map_size : Z) : Z :=
  wrap32 (block_id mod map_size).

Definition bucket (e : SBitmapEngine) (hash : Z) : list SBlockMetadataNode :=
  default [] (metadata_map e !! hash).

Fixpoint chain_find (chain : list SBlockMetadataNode) (block_id : Z)
  : option SBlockMetadataNode :=
  match chain with
  | [] => None
  | node :: next =>
      if node_block_id node =? block_id then Some node
      else chain_find next block_id
  end.

Definition find_block_metadata (e : SBitmapEngine) (block_id : Z)
  : option SBlockMetadataNode :=
  chain_find (bucket e (hash_block_id block_id (metadata_map_size e)))
             block_id.

(** [existing->metadata = *metadata] on the first node of the chain that
    carries the id. *)
Fixpoint chain_overwrite (chain : list SBlockMetadataNode)
    (md : SBlockMetadata) : list SBlockMetadataNode :=
  match chain with
  | [] => []
  | node :: next =>
      if node_block_id node =? block_id md
      then {| node_block_id := node_block_id node; metadata := md |} :: next
      else node :: chain_overwrite next md
  end.

(** Unlinks the first node of the chain that carries the id; [None] when
    the loop runs off the end of the chain. *)
Fixpoint chain_remove (chain : list SBlockMetadataNode) (block_id : Z)
  : option (list SBlockMetadataNode) :=
  match chain with
  | [] => None
  | node :: next =>
      if node_block_id node =? block_id then Some next
      else option_map (cons node) (chain_remove next block_id)
  end.

Definition with_metadata (e : SBitmapEngine)
    (m : gmap Z (list SBlockMetadataNode)) (count : Z) : SBitmapEngine :=
  {| dirty_blocks := dirty_blocks e; new_blocks := new_blocks e;
     deleted_blocks := deleted_blocks e;
     metadata_map := m; metadata_map_size := metadata_map_size e;
     time_index := time_index e; wal_index := wal_index e;
     total_blocks := total_blocks e; dirty_count := dirty_count e;
     new_count := new_count e; deleted_count := deleted_count e;
     metadata_count := count |}.

(** [alloc_ok] tells whether the [malloc] of a new node succeeds.  [None]
    is the return value -1. *)
Definition insert_block_metadata (alloc_ok : bool) (e : SBitmapEngine)
    (md : SBlockMetadata) : option SBitmapEngine :=
  let hash := hash_block_id (block_id md) (metadata_map_size e) in
  match find_block_metadata e (block_id md) with
  | Some _ =>
      Some (with_metadata e
              (<[ hash := chain_overwrite (bucket e hash) md ]>
                 (metadata_map e))
              (metadata_count e))
  | None =>
      if alloc_ok then
        let node := {| node_block_id := block_id md; metadata := md |} in
        Some (with_metadata e
                (<[ hash := node :: bucket e hash ]> (metadata_map e))
                (wrap64 (metadata_count e + 1)))
      else None
  end.

(** [None] is the return value -1. *)
Definition remove_block_metadata (e : SBitmapEngine) (block_id : Z)
  : option SBitmapEngine :=
  let hash := hash_block_id block_id (metadata_map_size e) in
  match chain_remove (bucket e hash) block_id with
  | Some chain =>
      Some (with_metadata e (<[ hash := chain ]> (metadata_map e))
              (wrap64 (metadata_count e - 1)))
  | None => None
  end.

Definition index_add (index : gmap Z (gset Z)) (key block_id : Z)
  : gmap Z (gset Z) :=
  match skiplist_find index key with
  | Some bm => skiplist_insert index key (tdengine_roaring_add bm block_id)
  | None =>
      skiplist_insert index key
        (tdengine_roaring_add tdengine_roaring_create block_id)
  end.

Definition with_indices (e : SBitmapEngine) (ti wi : gmap Z (gset Z))
  : SBitmapEngine :=
  {| dirty_blocks := dirty_blocks e; new_blocks := new_blocks e;
     deleted_blocks := deleted_blocks e;
     metadata_map := metadata_map e;
     metadata_map_size := metadata_map_size e;
     time_index := ti; wal_index := wi;
     total_blocks := total_blocks e; dirty_count := dirty_count e;
     new_count := new_count e; deleted_count := deleted_count e;
     metadata_count := metadata_count e |}.

Definition add_time_index (e : SBitmapEngine) (timestamp block_id : Z)
  : SBitmapEngine :=
  with_indices e (index_add (time_index e) timestamp block_id) (wal_index e).

(** The WAL offset is a [uint64_t]; the keys of the index are [int64_t]. *)
Definition add_wal_index (e : SBitmapEngine) (wal_offset block_id : Z)
  : SBitmapEngine :=
  with_indices e (time_index e)
    (index_add (wal_index e) (to_int64 wal_offset) block_id).

Definition bitmap_engine_init : SBitmapEngine :=
  {| dirty_blocks := tdengine_roaring_create;
     new_blocks := tdengine_roaring_create;
     deleted_blocks := tdengine_roaring_create;
     metadata_map := ∅; metadata_map_size := 10000;
     time_index := skiplist_create; wal_index := skiplist_create;
     total_blocks := 0; dirty_count := 0; new_count := 0;
     deleted_count := 0; metadata_count := 0 |}.

(** *** State transitions *)

Definition STATE_TRANSITION_MATRIX : list (list Z) :=
  (*  CLEAN DIRTY NEW DELETED *)
  [ [ 0;    1;    1;  1 ];     (* CLEAN *)
    [ 1;    0;    0;  1 ];     (* DIRTY *)
    [ 0;    1;    0;  1 ];     (* NEW *)
    [ 0;    0;    0;  0 ] ].   (* DELETED *)

Definition matrix_at (row col : Z) : Z :=
  nth (Z.to_nat col) (nth (Z.to_nat row) STATE_TRANSITION_MATRIX []) 0.

Definition bitmap_engine_validate_state_transition
    (current_state target_state : EBlockState) : status :=
  let c := state_code current_state in
  let t := state_code target_state in
  if (c <? 0) || (4 <=? c) || (t <? 0) || (4 <=? t)
  then ERR_INVALID_STATE_TRANS
  else if negb (matrix_at c t =? 0) then SUCCESS
  else ERR_INVALID_STATE_TRANS.


(** *** Marking and clearing *)

Definition current_state_of (e : SBitmapEngine) (block_id : Z) : EBlockState :=
  match find_block_metadata e block_id with
  | Some existing_node => state (metadata existing_node)
  | None => BLOCK_STATE_CLEAN
  end.

Definition with_bitmaps_and_counts (e : SBitmapEngine)
    (d n x : gset Z) (total dc nc xc : Z) : SBitmapEngine :=
  {| dirty_blocks := d; new_blocks := n; deleted_blocks := x;
     metadata_map := metadata_map e;
     metadata_map_size := metadata_map_size e;
     time_index := time_index e; wal_index := wal_index e;
     total_blocks := total; dirty_count := dc;
     new_count := nc; deleted_count := xc;
     metadata_count := metadata_count e |}.

Definition bitmap_engine_mark_dirty (alloc_ok : bool) (e : SBitmapEngine)
    (block_id wal_offset timestamp : Z) : status * SBitmapEngine :=
  let current_state := current_state_of e block_id in
  match bitmap_engine_validate_state_transition
          current_state BLOCK_STATE_DIRTY with
  | SUCCESS =>
      let metadata :=
        {| block_id := block_id; wal_offset := wal_offset;
           timestamp := timestamp; state := BLOCK_STATE_DIRTY |} in
      match insert_block_metadata alloc_ok e metadata with
      | None => (FAILURE, e)
      | Some e =>
          let e :=
            with_bitmaps_and_counts e
              (tdengine_roaring_add (dirty_blocks e) block_id)
              (new_blocks e) (deleted_blocks e)
              (total_blocks e) (dirty_count e)
              (new_count e) (deleted_count e) in
          let e := add_time_index e timestamp block_id in
          let e := add_wal_index e wal_offset block_id in
          (SUCCESS,
           with_bitmaps_and_counts e
             (dirty_blocks e) (new_blocks e) (deleted_blocks e)
             (wrap64 (total_blocks e + 1)) (wrap64 (dirty_count e + 1))
             (new_count e) (deleted_count e))
      end
  | _ => (ERR_INVALID_STATE_TRANS, e)
  end.

Definition bitmap_engine_mark_new (alloc_ok : bool) (e : SBitmapEngine)
    (block_id wal_offset timestamp : Z) : status * SBitmapEngine :=
  let current_state := current_state_of e block_id in
  match bitmap_engine_validate_state_transition
          current_state BLOCK_STATE_NEW with
  | SUCCESS =>
      let metadata :=
        {| block_id := block_id; wal_offset := wal_offset;
           timestamp := timestamp; state := BLOCK_STATE_NEW |} in
      match insert_block_metadata alloc_ok e metadata with
      | None => (FAILURE, e)
      | Some e =>
          let e :=
            with_bitmaps_and_counts e
              (dirty_blocks e)
              (tdengine_roaring_add (new_blocks e) block_id)
              (deleted_blocks e)
              (total_blocks e) (dirty_count e)
              (new_count e) (deleted_count e) in
          let e := add_time_index e timestamp block_id in
          let e := add_wal_index e wal_offset block_id in
          (SUCCESS,
           with_bitmaps_and_counts e
             (dirty_blocks e) (new_blocks e) (deleted_blocks e)
             (wrap64 (total_blocks e + 1)) (dirty_count e)
             (wrap64 (new_count e + 1)) (deleted_count e))
      end
  | _ => (ERR_INVALID_STATE_TRANS, e)
  end.

Definition bitmap_engine_mark_deleted (alloc_ok : bool) (e : SBitmapEngine)
    (block_id wal_offset timestamp : Z) : status * SBitmapEngine :=
  let current_state := current_state_of e block_id in
  match bitmap_engine_validate_state_transition
          current_state BLOCK_STATE_DELETED with
  | SUCCESS =>
      let metadata :=
        {| block_id := block_id; wal_offset := wal_offset;
           timestamp := timestamp; state := BLOCK_STATE_DELETED |} in
      match insert_block_metadata alloc_ok e metadata with
      | None => (FAILURE, e)
      | Some e =>
          let e :=
            with_bitmaps_and_counts e
              (dirty_blocks e) (new_blocks e)
              (tdengine_roaring_add (deleted_blocks e) block_id)
              (total_blocks e) (dirty_count e)
              (new_count e) (deleted_count e) in
          let e := add_time_index e timestamp block_id in
          let e := add_wal_index e wal_offset block_id in
          (SUCCESS,
           with_bitmaps_and_counts e
             (dirty_blocks e) (new_blocks e) (deleted_blocks e)
             (wrap64 (total_blocks e + 1)) (dirty_count e)
             (new_count e) (wrap64 (deleted_count e + 1)))
      end
  | _ => (ERR_INVALID_STATE_TRANS, e)
  end.

Definition bitmap_engine_clear_block (e : SBitmapEngine) (block_id : Z)
  : status * SBitmapEngine :=
  match find_block_metadata e block_id with
  | None => (ERR_BLOCK_NOT_FOUND, e)
  | Some existing_node =>
      let current_state := state (metadata existing_node) in
      match bitmap_engine_validate_state_transition
              current_state BLOCK_STATE_CLEAN with
      | SUCCESS =>
          let e :=
            with_bitmaps_and_counts e
              (tdengine_roaring_remove (dirty_blocks e) block_id)
              (tdengine_roaring_remove (new_blocks e) block_id)
              (tdengine_roaring_remove (deleted_blocks e) block_id)
              (total_blocks e) (dirty_count e)
              (new_count e) (deleted_count e) in
          (* the return value of remove_block_metadata is not looked at *)
          let e := default e (remove_block_metadata e block_id) in
          (SUCCESS,
           with_bitmaps_and_counts e
             (dirty_blocks e) (new_blocks e) (deleted_blocks e)
             (metadata_count e)
             (tdengine_roaring_cardinality (dirty_blocks e))
             (tdengine_roaring_cardinality (new_blocks e))
             (tdengine_roaring_cardinality (deleted_blocks e)))
      | _ => (ERR_INVALID_STATE_TRANS, e)
      end
  end.

(** *** Queries *)

(** The nested callback [range_cb]: the dirty bitmap is copied,
    intersected with the bitmap of the key, and joined to [result]. *)
Definition range_cb (e : SBitmapEngine) (key : Z) (bm result : gset Z)
  : gset Z :=
  let intersection := tdengine_roaring_create in
  let intersection :=
    tdengine_roaring_union_with intersection (dirty_blocks e) in
  let intersection := tdengine_roaring_intersect_with intersection bm in
  tdengine_roaring_union_with result intersection.

(** Both queries return the ids stored into [block_ids], from index 0 on,
    and the count. *)
Definition bitmap_engine_get_dirty_blocks_by_time (e : SBitmapEngine)
    (start_time end_time max_count : Z) : list Z * Z :=
  if max_count =? 0 then ([], 0)
  else
    let result :=
      skiplist_range_query (time_index e) start_time end_time false
        (range_cb e) tdengine_roaring_create in
    tdengine_roaring_to_array result max_count.

Definition bitmap_engine_get_dirty_blocks_by_wal (e : SBitmapEngine)
    (start_offset end_offset max_count : Z) : list Z * Z :=
  if max_count =? 0 then ([], 0)
  else
    let result :=
      skiplist_range_query (wal_index e)
        (to_int64 start_offset) (to_int64 end_offset) false
        (range_cb e) tdengine_roaring_create in
    tdengine_roaring_to_array result max_count.

(** [None] is the return value -1. *)
Definition bitmap_engine_get_block_metadata (e : SBitmapEngine)
    (block_id : Z) : option SBlockMetadata :=
  match find_block_metadata e block_id with
  | None => None
  | Some node => Some (metadata node)
  end.

Definition bitmap_engine_get_block_state (e : SBitmapEngine) (block_id : Z)
  : status * option EBlockState :=
  match find_block_metadata e block_id with
  | None => (ERR_BLOCK_NOT_FOUND, None)
  | Some node => (SUCCESS, Some (state (metadata node)))
  end.

Record stats : Set := {
  stat_total_blocks : Z;
  stat_dirty_count : Z;
  stat_new_count : Z;
  stat_deleted_count : Z
}.

Definition bitmap_engine_get_stats (e : SBitmapEngine) : stats :=
  {| stat_total_blocks := total_blocks e;
     stat_dirty_count := dirty_count e;
     stat_new_count := new_count e;
     stat_deleted_count := deleted_count e |}.

End Engine.

(** ** The event interceptor ([event_interceptor.c]) *)

Module RingBuffer.

(** Modelled from the spec: [ring_buffer.c] is not among the sources.  The
    specification describes a bounded FIFO of fixed capacity: an enqueue
    on a full buffer reports [Full], a dequeue on an empty buffer ends in
    a timeout, and items leave in the order in which they were accepted.
    A return value of 0 is success. *)
Record SRingBuffer (A : Type) : Type := {
  items : list A;
  capacity : Z
}.
Arguments items {A} _.
Arguments capacity {A} _.

(** Modelled from the spec: an empty buffer of the given capacity
    ([ring_buffer.c] is missing). *)
Definition ring_buffer_init {A : Type} (capacity : Z) : SRingBuffer A :=
  {| items := []; capacity := capacity |}.

(** Modelled from the spec: the two answers of [try_enqueue].  The
    callers test the returned [int] against 0, which is [Ok]; the value
    that stands for [Full] is not given ([ring_buffer.c] is missing). *)
Inductive enqueued : Set :=
| Ok
| Full.

(** Modelled from the spec: [try_enqueue], [Ok] or [Full]
    ([ring_buffer.c] is missing). *)
Definition ring_buffer_enqueue {A : Type} (rb : SRingBuffer A) (item : A)
  : enqueued * SRingBuffer A :=
  if Z.of_nat (length (items rb)) <? capacity rb
  then (Ok, {| items := items rb ++ [item]; capacity := capacity rb |})
  else (Full, rb).

(** Modelled from the spec: [dequeue_blocking], the oldest item, or a
    timeout when no producer fills the empty buffer in time
    ([ring_buffer.c] is missing). *)
Definition ring_buffer_dequeue_blocking {A : Type} (rb : SRingBuffer A)
  : Z * option A * SRingBuffer A :=
  match items rb with
  | [] => (-1, None, rb)
  | item :: rest => (0, Some item, {| items := rest; capacity := capacity rb |})
  end.

End RingBuffer.

Module Interceptor.
Import Engine RingBuffer.

Inductive EEventType : Set :=
| EVENT_BLOCK_CREATE
| EVENT_BLOCK_UPDATE
| EVENT_BLOCK_FLUSH
| EVENT_BLOCK_DELETE.

Record SBlockEvent : Set := {
  event_type : EEventType;
  event_block_id : Z;
  event_wal_offset : Z;
  event_timestamp : Z
}.

(** A user callback is foreign code: what is kept of it is its effect on
    the bitmap engine, which it may reach through its [user_data]. *)
Definition FBlockEventCallback : Type :=
  SBlockEvent → SBitmapEngine → SBitmapEngine.

Record SEventInterceptorConfig : Type := {
  enable_interception : bool;
  event_buffer_size : Z;
  callback_threads : Z;
  callback : option FBlockEventCallback
}.

(** What the interceptor asked of the thread library. *)
Inductive thread_op : Set :=
| pthread_create (i : Z)
| pthread_join (i : Z).

(** The engine the interceptor points to is shared with its other users;
    the functions below receive and return it next to the interceptor. *)
Record SEventInterceptor : Type := {
  config : SEventInterceptorConfig;
  event_buffer : SRingBuffer SBlockEvent;
  buffer_size : Z;
  thread_count : Z;
  stop_threads : bool;
  events_processed : Z;
  events_dropped : Z;
  thread_log : list thread_op
}.

Definition event_interceptor_init (config : SEventInterceptorConfig)
  : SEventInterceptor :=
  {| config := config;
     event_buffer := ring_buffer_init (event_buffer_size config);
     buffer_size := event_buffer_size config;
     thread_count := callback_threads config;
     stop_threads := false;
     events_processed := 0;
     events_dropped := 0;
     thread_log := [] |}.

Definition with_buffer (i : SEventInterceptor)
    (rb : SRingBuffer SBlockEvent) (processed dropped : Z)
  : SEventInterceptor :=
  {| config := config i; event_buffer := rb;
     buffer_size := buffer_size i; thread_count := thread_count i;
     stop_threads := stop_threads i;
     events_processed := processed; events_dropped := dropped;
     thread_log := thread_log i |}.

Definition with_threads (i : SEventInterceptor) (stop : bool)
    (log : list thread_op) : SEventInterceptor :=
  {| config := config i; event_buffer := event_buffer i;
     buffer_size := buffer_size i; thread_count := thread_count i;
     stop_threads := stop;
     events_processed := events_processed i;
     events_dropped := events_dropped i;
     thread_log := log |}.

(** One turn of the [while] loop of [callback_thread_func], entered with
    [stop_threads] unset. *)
Definition callback_thread_turn (i : SEventInterceptor) (e : SBitmapEngine)
  : SEventInterceptor * SBitmapEngine :=
  match ring_buffer_dequeue_blocking (event_buffer i) with
  | (0, Some event, rb) =>
      let e :=
        match callback (config i) with
        | Some cb => cb event e
        | None => e
        end in
      (with_buffer i rb (wrap64 (events_processed i + 1)) (events_dropped i),
       e)
  | (_, _, rb) => (with_buffer i rb (events_processed i) (events_dropped i), e)
  end.

(** The worker, observed for at most [turns] turns of its loop. *)
Fixpoint callback_thread_func (turns : nat) (i : SEventInterceptor)
    (e : SBitmapEngine) : SEventInterceptor * SBitmapEngine :=
  match turns with
  | O => (i, e)
  | S turns =>
      if stop_threads i then (i, e)
      else
        let '(i, e) := callback_thread_turn i e in
        callback_thread_func turns i e
  end.

Definition thread_ids (n : Z) : list Z := Z.of_nat <$> seq 0 (Z.to_nat n).

(** [create_fails] is the index of the first [pthread_create] that
    fails, if one does.  The call then joins the threads it has created,
    the first of them first, with [stop_threads] unset: a worker leaves
    its loop only once it finds the flag set, so that the join is not
    answered.  The result [None] is a call that does not return; with no
    thread to join the call returns -1. *)
Definition event_interceptor_start (create_fails : option nat)
    (i : SEventInterceptor) : option Z * SEventInterceptor :=
  if stop_threads i then (Some 0, i)
  else
    let ids := thread_ids (thread_count i) in
    let created :=
      match create_fails with
      | Some failed => take failed ids
      | None => ids
      end in
    let log := thread_log i ++ (pthread_create <$> created) in
    if (length created <? length ids)%nat
    then
      match created with
      | [] => (Some (-1), with_threads i false log)
      | first :: _ =>
          (None, with_threads i false (log ++ [pthread_join first]))
      end
    else (Some 0, with_threads i false log).

Definition event_interceptor_stop (i : SEventInterceptor)
  : Z * SEventInterceptor :=
  if negb (stop_threads i) then (0, i)
  else
    (0, with_threads i true
          (thread_log i ++ (pthread_join <$> thread_ids (thread_count i)))).

(** What a notification returns: 0; -1, when the event could not be
    allocated; or what [ring_buffer_enqueue] returned for a full buffer,
    which is not 0. *)
Inductive notified : Set :=
| NOTIFIED
| NO_MEMORY
| BUFFER_FULL.

(** The four notifications share their body.  [alloc_ok] tells whether
    the [malloc] of the event succeeds. *)
Definition on_block_event (kind : EEventType) (alloc_ok : bool)
    (i : SEventInterceptor) (block_id wal_offset timestamp : Z)
  : notified * SEventInterceptor :=
  if negb (enable_interception (config i)) then (NOTIFIED, i)
  else if negb alloc_ok then (NO_MEMORY, i)
  else
    let event :=
      {| event_type := kind; event_block_id := block_id;
         event_wal_offset := wal_offset; event_timestamp := timestamp |} in
    match ring_buffer_enqueue (event_buffer i) event with
    | (Ok, rb) =>
        (NOTIFIED,
         with_buffer i rb (events_processed i) (events_dropped i))
    | (Full, rb) =>
        (BUFFER_FULL,
         with_buffer i rb (events_processed i)
           (wrap64 (events_dropped i + 1)))
    end.

Definition event_interceptor_on_block_create :=
  on_block_event EVENT_BLOCK_CREATE.
Definition event_interceptor_on_block_update :=
  on_block_event EVENT_BLOCK_UPDATE.
Definition event_interceptor_on_block_flush :=
  on_block_event EVENT_BLOCK_FLUSH.
Definition event_interceptor_on_block_delete :=
  on_block_event EVENT_BLOCK_DELETE.

(** The mapping of the specification from event kinds to engine calls,
    written from its table. *)
Definition spec_apply_event (event : SBlockEvent) (e : SBitmapEngine)
  : status * SBitmapEngine :=
  match event_type event with
  | EVENT_BLOCK_CREATE =>
      bitmap_engine_mark_new true e (event_block_id event)
        (event_wal_offset event) (event_timestamp event)
  | EVENT_BLOCK_UPDATE =>
      bitmap_engine_mark_dirty true e (event_block_id event)
        (event_wal_offset event) (event_timestamp event)
  | EVENT_BLOCK_FLUSH =>
      bitmap_engine_clear_block e (event_block_id event)
  | EVENT_BLOCK_DELETE =>
      bitmap_engine_mark_deleted true e (event_block_id event)
        (event_wal_offset event) (event_timestamp event)
  end.

End Interceptor.

(** ** The backup coordinator ([backup_coordinator.c]) *)

Module Coordinator.
Import Engine.

(** Error codes of [backup_coordinator.h]. *)
Definition BACKUP_SUCCESS : Z := 0.
Definition BACKUP_ERROR_INVALID_PARAM : Z := -1.
Definition BACKUP_ERROR_INIT_FAILED : Z := -2.
Definition BACKUP_ERROR_NOT_INITIALIZED : Z := -3.
Definition BACKUP_ERROR_MEMORY_ALLOC : Z := -4.
Definition BACKUP_ERROR_FILE_IO : Z := -5.
Definition BACKUP_ERROR_NETWORK : Z := -6.
Definition BACKUP_ERROR_TIMEOUT : Z := -7.
Definition BACKUP_ERROR_DATA_CORRUPTION : Z := -8.
Definition BACKUP_ERROR_PERMISSION_DENIED : Z := -9.
Definition BACKUP_ERROR_DISK_FULL : Z := -10.
Definition BACKUP_ERROR_CONNECTION_LOST : Z := -11.
Definition BACKUP_ERROR_RETRY_EXHAUSTED : Z := -12.
Definition BACKUP_ERROR_UNKNOWN : Z := -99.

Definition is_retryable_error (error_code : Z) : bool :=
  if error_code =? BACKUP_ERROR_NETWORK then true
  else if error_code =? BACKUP_ERROR_TIMEOUT then true
  else if error_code =? BACKUP_ERROR_CONNECTION_LOST then true
  else if error_code =? BACKUP_ERROR_FILE_IO then true
  else false.

(** *** Retry *)

Inductive ERetryState : Set :=
| RETRY_STATE_IDLE
| RETRY_STATE_RETRYING
| RETRY_STATE_SUCCESS
| RETRY_STATE_FAILED.

Record SRetryContext : Set := {
  current_retry : Z;
  max_retry : Z;
  retry_interval : Z;
  last_retry_time : Z;
  retry_state : ERetryState;
  last_error : Z
}.

Definition backup_retry_context_init (max_retry retry_interval : Z)
  : SRetryContext :=
  {| current_retry := 0; max_retry := max_retry;
     retry_interval := retry_interval; last_retry_time := 0;
     retry_state := RETRY_STATE_IDLE; last_error := BACKUP_SUCCESS |}.

Definition with_progress (c : SRetryContext) (current : Z)
    (st : ERetryState) (err : Z) (t : Z) : SRetryContext :=
  {| current_retry := current; max_retry := max_retry c;
     retry_interval := retry_interval c; last_retry_time := t;
     retry_state := st; last_error := err |}.

(** The environment of a retried operation: [operation k] is the value
    returned by the call that follows [k] earlier calls, [time_s k] is
    the clock read by the wait that follows [k] earlier calls. *)
Record retry_env : Type := {
  operation : nat → Z;
  time_s : nat → Z
}.

Definition backup_wait_for_retry (now : Z) (c : SRetryContext)
  : SRetryContext :=
  with_progress c (current_retry c) (retry_state c) (last_error c) now.

(** The [while] loop of [backup_execute_with_retry]; [calls] counts the
    calls of the operation made so far.  The result is the return value,
    the context and the number of calls; [None] when [fuel] turns of the
    loop were not enough. *)
Fixpoint retry_loop (fuel : nat) (env : retry_env) (calls : nat)
    (c : SRetryContext) : option (Z * SRetryContext * nat) :=
  match fuel with
  | O => None
  | S fuel =>
      if current_retry c <=? max_retry c then
        let result := operation env calls in
        if result =? BACKUP_SUCCESS then
          Some (BACKUP_SUCCESS,
                with_progress c (current_retry c) RETRY_STATE_SUCCESS
                  (last_error c) (last_retry_time c),
                S calls)
        else
          let c :=
            with_progress c (current_retry c) (retry_state c) result
              (last_retry_time c) in
          if negb (is_retryable_error result)
             || (max_retry c <=? current_retry c)
          then
            Some (result,
                  with_progress c (current_retry c) RETRY_STATE_FAILED
                    (last_error c) (last_retry_time c),
                  S calls)
          else
            let c :=
              with_progress c (wrap32 (current_retry c + 1)) (retry_state c)
                (last_error c) (last_retry_time c) in
            let c := backup_wait_for_retry (time_s env calls) c in
            retry_loop fuel env (S calls) c
      else
        Some (BACKUP_ERROR_RETRY_EXHAUSTED,
              with_progress c (current_retry c) RETRY_STATE_FAILED
                (last_error c) (last_retry_time c),
              calls)
  end.

Definition backup_execute_with_retry (fuel : nat) (env : retry_env)
    (c : SRetryContext) : option (Z * SRetryContext * nat) :=
  let c :=
    with_progress c 0 RETRY_STATE_RETRYING (last_error c)
      (last_retry_time c) in
  retry_loop fuel env 0 c.

Definition backup_should_retry (c : SRetryContext) (error_code : Z) : bool :=
  is_retryable_error error_code && (current_retry c <? max_retry c).

(** *** Cursors *)

Inductive ECursorType : Set :=
| CURSOR_TYPE_TIME
| CURSOR_TYPE_WAL
| CURSOR_TYPE_HYBRID.

Record SIncrementalCursor : Set := {
  type : ECursorType;
  start_time : Z;
  end_time : Z;
  start_wal : Z;
  end_wal : Z;
  current_block : Z;
  block_count : Z;
  has_more : bool
}.

(** [data] is always stored as NULL: the field is the flag "holds data". *)
Record SIncrementalBlock : Set := {
  ib_block_id : Z;
  ib_wal_offset : Z;
  ib_timestamp : Z;
  ib_has_data : bool;
  ib_data_size : Z;
  ib_state : EBlockState
}.

(** The fields of the configuration, as [backup_coordinator.h] declares
    them (paths and the key are left out). *)
Record SBackupCoordinatorConfig : Set := {
  max_blocks_per_batch : Z;
  batch_timeout_ms : Z;
  enable_compression : bool;
  enable_encryption : bool;
  error_retry_max : Z;
  error_retry_interval : Z;
  enable_error_logging : bool;
  error_buffer_size : Z;
  backup_max_size : Z;
  compression_level : Z
}.

Record SBackupCoordinator : Type := {
  coordinator_config : SBackupCoordinatorConfig;
  bitmap_engine : SBitmapEngine;
  retry_context : SRetryContext;
  error_count : Z;
  retry_count : Z;
  total_backup_blocks : Z;
  total_backup_size : Z;
  backup_duration_ms : Z
}.

Definition backup_coordinator_init (config : SBackupCoordinatorConfig)
    (bitmap_engine : SBitmapEngine) : SBackupCoordinator :=
  {| coordinator_config := config;
     bitmap_engine := bitmap_engine;
     retry_context :=
       backup_retry_context_init (error_retry_max config)
         (error_retry_interval config);
     error_count := 0; retry_count := 0;
     total_backup_blocks := 0; total_backup_size := 0;
     backup_duration_ms := 0 |}.

Definition backup_coordinator_get_dirty_blocks (co : SBackupCoordinator)
    (start_wal end_wal max_count : Z) : list Z * Z :=
  if max_count =? 0 then ([], 0)
  else
    bitmap_engine_get_dirty_blocks_by_wal (bitmap_engine co)
      start_wal end_wal max_count.

(** An array of [size] elements holds the ids a range query stored into
    it.  The query stores every id of its result, whatever the
    [max_count] it was given; with more ids than elements it writes past
    the end of the array, and C leaves what follows undefined.  The
    callers below own their arrays, and their result is [None] then. *)
Definition array_holds (size : Z) (stored : list Z) : bool :=
  Z.of_nat (length stored) <=? size.

(** The ids go to [temp_block_ids], an array of one element on the
    stack. *)
Definition backup_coordinator_create_cursor (co : SBackupCoordinator)
    (cursor_type : ECursorType) (start_time end_time start_wal end_wal : Z)
  : option SIncrementalCursor :=
  let '(temp_block_ids, count) :=
    bitmap_engine_get_dirty_blocks_by_wal (bitmap_engine co)
      start_wal end_wal 1 in
  if negb (array_holds 1 temp_block_ids) then None
  else
    Some {| type := cursor_type;
            start_time := start_time; end_time := end_time;
            start_wal := start_wal; end_wal := end_wal;
            current_block := 0;
            block_count := if 0 <? count then 1000 else 0;
            has_more := true |}.

(** The entry of [blocks] at one index of the batch: [None] when the
    engine has no metadata for the id, and the entry is left as the
    caller had it. *)
Definition fill_block (e : SBitmapEngine) (id : Z)
  : option SIncrementalBlock :=
  match bitmap_engine_get_block_metadata e id with
  | Some metadata =>
      Some {| ib_block_id := id;
              ib_wal_offset := wal_offset metadata;
              ib_timestamp := timestamp metadata;
              ib_has_data := false;
              ib_data_size := 0;
              ib_state := state metadata |}
  | None => None
  end.

Definition with_position (cursor : SIncrementalCursor) (current : Z)
    (more : bool) : SIncrementalCursor :=
  {| type := type cursor;
     start_time := start_time cursor; end_time := end_time cursor;
     start_wal := start_wal cursor; end_wal := end_wal cursor;
     current_block := current; block_count := block_count cursor;
     has_more := more |}.

(** [alloc_ok] tells whether the [malloc] of the id array succeeds; the
    array has [max_count] elements.  The result is the entries of
    [blocks] from index 0 on, the returned count and the cursor. *)
Definition backup_coordinator_get_next_batch (alloc_ok : bool)
    (co : SBackupCoordinator) (cursor : SIncrementalCursor) (max_count : Z)
  : option (list (option SIncrementalBlock) * Z * SIncrementalCursor) :=
  if max_count =? 0 then Some ([], 0, cursor)
  else if negb (has_more cursor) then Some ([], 0, cursor)
  else if negb alloc_ok then Some ([], 0, cursor)
  else
    let '(block_ids, count) :=
      bitmap_engine_get_dirty_blocks_by_wal (bitmap_engine co)
        (start_wal cursor) (end_wal cursor) max_count in
    if negb (array_holds max_count block_ids) then None
    else
      let blocks :=
        fill_block (bitmap_engine co) <$> take (Z.to_nat count) block_ids in
      let current := wrap64 (current_block cursor + count) in
      let more :=
        if (block_count cursor <=? current) || (count <? max_count)
        then false else has_more cursor in
      Some (blocks, count, with_position cursor current more).

(** The ids go to [temp_block_ids], an array of one element on the
    stack.  The result is the return value and the two output
    parameters. *)
Definition backup_coordinator_estimate_size (co : SBackupCoordinator)
    (start_wal end_wal : Z) : option (Z * Z * Z) :=
  let '(temp_block_ids, count) :=
    bitmap_engine_get_dirty_blocks_by_wal (bitmap_engine co)
      start_wal end_wal 1 in
  if negb (array_holds 1 temp_block_ids) then None
  else
    let estimated_blocks := wrap32 (count * 1000) in
    let estimated_size := wrap64 (estimated_blocks * 1024 * 1024) in
    Some (0, estimated_blocks, estimated_size).

End Coordinator.

(** ** Requests to the engine, and the states they lead to *)

Module Requests.
Import Roaring SkipList Engine.

(** The transition table of the specification, written from its words:
    rows are the current state, columns the target, and only a tick
    allows the edge. *)
Definition spec_matrix_allows (from to : EBlockState) : bool :=
  match from, to with
  | BLOCK_STATE_CLEAN, BLOCK_STATE_DIRTY => true
  | BLOCK_STATE_CLEAN, BLOCK_STATE_NEW => true
  | BLOCK_STATE_CLEAN, BLOCK_STATE_DELETED => true
  | BLOCK_STATE_DIRTY, BLOCK_STATE_CLEAN => true
  | BLOCK_STATE_DIRTY, BLOCK_STATE_DELETED => true
  | BLOCK_STATE_NEW, BLOCK_STATE_DIRTY => true
  | BLOCK_STATE_NEW, BLOCK_STATE_DELETED => true
  | _, _ => false
  end.

(** The call that asks for the transition to [to]. *)
Definition mark_request (to : EBlockState) (alloc_ok : bool)
    (e : SBitmapEngine) (block_id wal_offset timestamp : Z)
  : status * SBitmapEngine :=
  match to with
  | BLOCK_STATE_CLEAN => bitmap_engine_clear_block e block_id
  | BLOCK_STATE_DIRTY =>
      bitmap_engine_mark_dirty alloc_ok e block_id wal_offset timestamp
  | BLOCK_STATE_NEW =>
      bitmap_engine_mark_new alloc_ok e block_id wal_offset timestamp
  | BLOCK_STATE_DELETED =>
      bitmap_engine_mark_deleted alloc_ok e block_id wal_offset timestamp
  end.

(** The status with which a forbidden request is turned down. *)
Definition refusal (to : EBlockState) (e : SBitmapEngine) (block_id : Z)
  : status :=
  match to, find_block_metadata e block_id with
  | BLOCK_STATE_CLEAN, None => ERR_BLOCK_NOT_FOUND
  | _, _ => ERR_INVALID_STATE_TRANS
  end.

Inductive request : Set :=
| mark_dirty (alloc_ok : bool) (block_id wal_offset timestamp : Z)
| mark_new (alloc_ok : bool) (block_id wal_offset timestamp : Z)
| mark_deleted (alloc_ok : bool) (block_id wal_offset timestamp : Z)
| clear_block (block_id : Z).

Definition serve (r : request) (e : SBitmapEngine) : status * SBitmapEngine :=
  match r with
  | mark_dirty a id wal ts => bitmap_engine_mark_dirty a e id wal ts
  | mark_new a id wal ts => bitmap_engine_mark_new a e id wal ts
  | mark_deleted a id wal ts => bitmap_engine_mark_deleted a e id wal ts
  | clear_block id => bitmap_engine_clear_block e id
  end.

Definition run (rs : list request) (e : SBitmapEngine) : SBitmapEngine :=
  fold_left (fun e r => (serve r e).2) rs e.

(** The states of an engine that was initialised and then served any
    sequence of requests, whether they succeeded or failed. *)
Inductive reachable : SBitmapEngine → Prop :=
| reachable_init : reachable bitmap_engine_init
| reachable_serve e r : reachable e → reachable (serve r e).2.

(** Ids [0 .. n-1] marked dirty one after the other. *)
Fixpoint mark_dirty_upto (n : nat) : SBitmapEngine :=
  match n with
  | O => bitmap_engine_init
  | S n =>
      (bitmap_engine_mark_dirty true (mark_dirty_upto n) (Z.of_nat n) 0 0).2
  end.


(** The bitmap and the counter that go with a state. *)
Definition bitmap_of (s : EBlockState) (e : SBitmapEngine) : gset Z :=
  match s with
  | BLOCK_STATE_CLEAN => ∅
  | BLOCK_STATE_DIRTY => dirty_blocks e
  | BLOCK_STATE_NEW => new_blocks e
  | BLOCK_STATE_DELETED => deleted_blocks e
  end.

Definition count_of (s : EBlockState) (e : SBitmapEngine) : Z :=
  match s with
  | BLOCK_STATE_CLEAN => 0
  | BLOCK_STATE_DIRTY => dirty_count e
  | BLOCK_STATE_NEW => new_count e
  | BLOCK_STATE_DELETED => deleted_count e
  end.

(** [held s cur]: a block whose metadata says [cur] may sit in the bitmap
    of [s].  A mark never takes an id out of the bitmap of the state the
    block leaves. *)
Definition held (s cur : EBlockState) : bool :=
  match s, cur with
  | BLOCK_STATE_DIRTY, (BLOCK_STATE_DIRTY | BLOCK_STATE_DELETED) => true
  | BLOCK_STATE_NEW,
    (BLOCK_STATE_NEW | BLOCK_STATE_DIRTY | BLOCK_STATE_DELETED) => true
  | BLOCK_STATE_DELETED, BLOCK_STATE_DELETED => true
  | _, _ => false
  end.

(** A counter agrees with its bitmap unless the bitmap has outgrown the
    32 bits through which its cardinality is read. *)
Definition count_ok (s : EBlockState) (e : SBitmapEngine) : Prop :=
  count_of s e = Z.of_nat (size (bitmap_of s e))
  ∨ 2 ^ 32 ≤ Z.of_nat (size (bitmap_of s e)).

Record engine_inv (e : SBitmapEngine) : Prop := {
  inv_held : ∀ s id, id ∈ bitmap_of s e → held s (current_state_of e id) = true;
  inv_count : ∀ s, count_ok s e
}.

(** A short history that goes through every kind of request. *)
Definition stats_scenario : list request :=
  [ mark_new true 1 100 10; mark_dirty true 1 200 20;
    mark_dirty true 2 300 30; mark_dirty true 2 400 40;
    mark_deleted true 2 500 50; clear_block 3; clear_block 1 ].

End Requests.

(** ** Concrete histories used below *)

Module Scenarios.
Import Engine Requests RingBuffer Interceptor Coordinator.

(** A block is created and then updated. *)
Definition new_then_dirty : list request :=
  [ mark_new true 1 100 10; mark_dirty true 1 200 20 ].

(** Two blocks are marked dirty. *)
Definition two_dirty : list request :=
  [ mark_dirty true 1001 1000 5; mark_dirty true 1002 2000 6 ].

(** One block is marked dirty. *)
Definition one_dirty : list request := [ mark_dirty true 1 1000 5 ].

(** The configuration [backup_plugin_init] builds. *)
Definition plugin_config : SBackupCoordinatorConfig :=
  {| max_blocks_per_batch := 1000; batch_timeout_ms := 5000;
     enable_compression := true; enable_encryption := false;
     error_retry_max := 10; error_retry_interval := 5;
     enable_error_logging := true; error_buffer_size := 1000;
     backup_max_size := 1024 * 1024 * 1024; compression_level := 1 |}.

Definition coordinator_over (rs : list request) : SBackupCoordinator :=
  backup_coordinator_init plugin_config (run rs bitmap_engine_init).

(** The interceptor [backup_plugin_init] builds: no user callback. *)
Definition plugin_interceptor : SEventInterceptor :=
  event_interceptor_init
    {| enable_interception := true; event_buffer_size := 10000;
       callback_threads := 2; callback := None |}.

(** An operation that fails with a network error at every call. *)
Definition always_network : retry_env :=
  {| operation := λ _, BACKUP_ERROR_NETWORK; time_s := λ _, 0 |}.

End Scenarios.

(** ** Further invariants of the engine *)

Module EngineInvariants.
Import Roaring SkipList Engine Requests.

Definition chain_ids (chain : list SBlockMetadataNode) : list Z :=
  node_block_id <$> chain.

(** [posted index key id]: the index holds the id under the key. *)
Definition posted (index : gmap Z (gset Z)) (key id : Z) : Prop :=
  ∃ bm, index !! key = Some bm ∧ id ∈ bm.

(** What holds of the metadata map, the bitmaps and the indices in every
    state the engine reaches: no chain holds an id twice; a record is
    filed under its own id
    and never says CLEAN; a block is in the bitmap of the state its
    record gives; and the id of a record is posted under the timestamp
    and the WAL offset of the record. *)
Record store_inv (e : SBitmapEngine) : Prop := {
  inv_nodup : ∀ h, NoDup (chain_ids (bucket e h));
  inv_record :
    ∀ id node, find_block_metadata e id = Some node →
      (block_id (metadata node) = id)
      ∧ (state (metadata node) ≠ BLOCK_STATE_CLEAN);
  inv_member :
    ∀ id, current_state_of e id ≠ BLOCK_STATE_CLEAN →
      id ∈ bitmap_of (current_state_of e id) e;
  inv_posted :
    ∀ id node, find_block_metadata e id = Some node →
      posted (time_index e) (timestamp (metadata node)) id
      ∧ posted (wal_index e) (to_int64 (wal_offset (metadata node))) id
}.

(** The blocks some bitmap holds. *)
Definition known_blocks (e : SBitmapEngine) : gset Z :=
  dirty_blocks e ∪ new_blocks e ∪ deleted_blocks e.

End EngineInvariants.

(** ** Histories of calls on the interceptor *)

Module InterceptorCalls.
Import Engine RingBuffer Interceptor.

(** One call on the interface of the interceptor, with what the C
    library answers to it, or a worker observed for some turns of its
    loop. *)
Inductive call : Type :=
| start (create_fails : option nat)
| stop
| on_block (alloc_ok : bool) (event : SBlockEvent)
| worker (turns : nat).

(** The notification that carries the given event. *)
Definition submit (alloc_ok : bool) (event : SBlockEvent)
    (i : SEventInterceptor) : notified * SEventInterceptor :=
  on_block_event (event_type event) alloc_ok i (event_block_id event)
    (event_wal_offset event) (event_timestamp event).

(** A producer that sends the events one after the other, each with the
    answer of [malloc] to its notification: the return values, in order,
    and the interceptor afterwards. *)
Fixpoint submit_all (events : list (bool * SBlockEvent))
    (i : SEventInterceptor) : list notified * SEventInterceptor :=
  match events with
  | [] => ([], i)
  | (alloc_ok, event) :: events =>
      let '(result, i) := submit alloc_ok event i in
      let '(results, i) := submit_all events i in
      (result :: results, i)
  end.

(** The events of a producer that were allocated, in the order sent. *)
Definition allocated (events : list (bool * SBlockEvent))
  : list SBlockEvent :=
  snd <$> filter (λ sent : bool * SBlockEvent, sent.1 = true) events.

(** The answers that are not [NO_MEMORY]. *)
Definition has_memory (result : notified) : bool :=
  match result with
  | NO_MEMORY => false
  | _ => true
  end.

(** [None]: the call does not return. *)
Definition perform (c : call) (s : SEventInterceptor * SBitmapEngine)
  : option (SEventInterceptor * SBitmapEngine) :=
  match c with
  | start create_fails =>
      let '(result, i) := event_interceptor_start create_fails s.1 in
      match result with
      | Some _ => Some (i, s.2)
      | None => None
      end
  | stop => Some ((event_interceptor_stop s.1).2, s.2)
  | on_block alloc_ok event => Some ((submit alloc_ok event s.1).2, s.2)
  | worker turns => Some (callback_thread_func turns s.1 s.2)
  end.

(** The calls are made one after the other, each after the one before
    it has returned. *)
Definition perform_all (cs : list call)
    (s : SEventInterceptor * SBitmapEngine)
  : option (SEventInterceptor * SBitmapEngine) :=
  fold_left (λ s c, s ≫= perform c) cs (Some s).



(** A notification whose event was allocated. *)
Definition is_on_block (c : call) : bool :=
  match c with
  | on_block alloc_ok _ => alloc_ok
  | _ => false
  end.

(** The room left in the buffer. *)
Definition free_slots (i : SEventInterceptor) : nat :=
  Z.to_nat (capacity (event_buffer i)
            - Z.of_nat (length (items (event_buffer i)))).

(** The events the interceptor has counted or still holds. *)
Definition accounted (i : SEventInterceptor) : Z :=
  events_processed i + events_dropped i
  + Z.of_nat (length (items (event_buffer i))).

(** What a callback makes of a list of events, oldest first. *)
Definition hand_over (cb : option FBlockEventCallback)
    (events : list SBlockEvent) (e : SBitmapEngine) : SBitmapEngine :=
  match cb with
  | Some cb => fold_left (λ e event, cb event e) events e
  | None => e
  end.

End InterceptorCalls.

(** ** The registry of storage engine interfaces
    ([storage_engine_interface.c]) *)

Module Registry.
Import Stdlib.Strings.String.
Local Open Scope Z_scope.

(** Modelled from the spec: [storage_engine_interface.h] is missing.  The
    event record has the fields that [backup_event_callback] fills in;
    the kinds are those of the interceptor, in the same order. *)
Record SStorageEvent : Set := {
  storage_event_type : Interceptor.EEventType;
  storage_block_id : Z;
  storage_wal_offset : Z;
  storage_timestamp : Z
}.

(** Modelled from the spec: [storage_engine_interface.h] is missing.  An
    interface is the table of functions that the initialiser of
    [g_default_interface] lists; each entry is kept as the value the
    function returns ([init] receives the address of a configuration,
    [get_stats] returns its code and the two counters it stores;
    [destroy] returns nothing and is left out). *)
Record SStorageEngineInterface : Type := {
  init : Z → Z;
  install_interception : Z;
  uninstall_interception : Z;
  trigger_event : SStorageEvent → Z;
  get_stats : Z * (Z * Z);
  is_supported : bool;
  get_engine_name : string
}.

(** Modelled from the spec: [storage_engine_interface.h] is missing; a
    factory is a function without arguments that returns an interface. *)
Definition StorageEngineInterfaceFactory : Type :=
  unit → SStorageEngineInterface.

Definition default_init (config : Z) : Z := 0.
Definition default_install_interception : Z := 0.
Definition default_uninstall_interception : Z := 0.
Definition default_trigger_event (event : SStorageEvent) : Z := 0.
Definition default_get_stats : Z * (Z * Z) := (0, (0, 0)).
Definition default_is_supported : bool := false.
Definition default_get_engine_name : string := "default".

Definition g_default_interface : SStorageEngineInterface :=
  {| init := default_init;
     install_interception := default_install_interception;
     uninstall_interception := default_uninstall_interception;
     trigger_event := default_trigger_event;
     get_stats := default_get_stats;
     is_supported := default_is_supported;
     get_engine_name := default_get_engine_name |}.

Record SStorageEngineRegistry : Type := {
  name : string;
  factory : StorageEngineInterfaceFactory
}.

(** The three globals.  [g_registry] is the array up to
    [g_registry_size]: the cells in use, in index order. *)
Record registry : Type := {
  g_registry : list SStorageEngineRegistry;
  g_registry_capacity : Z
}.

Definition g_registry_size (r : registry) : Z :=
  Z.of_nat (List.length (g_registry r)).





Definition get_default_storage_engine_interface : SStorageEngineInterface :=
  g_default_interface.

(** The loop of [get_storage_engine_interface]. *)
Fixpoint lookup_factory (cells : list SStorageEngineRegistry)
    (name' : string) : option StorageEngineInterfaceFactory :=
  match cells with
  | [] => None
  | cell :: cells =>
      if (name cell =? name')%string then Some (factory cell)
      else lookup_factory cells name'
  end.

Definition get_storage_engine_interface (r : registry) (name' : string)
  : SStorageEngineInterface :=
  match lookup_factory (g_registry r) name' with
  | Some factory' => factory' tt
  | None => get_default_storage_engine_interface
  end.

(** What [list_storage_engine_interfaces] leaves in an entry of
    [names]: a copy of a name; a pointer to a copy that was freed; or the
    null pointer of a [strdup] that failed. *)
Inductive listed : Set :=
| copy (name' : string)
| freed
| null.

(** The return value, the entries of [names] written from index 0 on,
    and [*actual_count] when it is written.  [strdup_fails] is the index
    of the first [strdup] that fails, if one does. *)
Definition list_storage_engine_interfaces (strdup_fails : option nat)
    (r : registry) (max_count : Z) : Z * list listed * option Z :=
  let count :=
    if g_registry_size r <? max_count then g_registry_size r
    else max_count in
  let cells := take (Z.to_nat count) (g_registry r) in
  let copies :=
    match strdup_fails with
    | Some failed => take failed cells
    | None => cells
    end in
  if (List.length copies <? List.length cells)%nat
  then (-1, replicate (List.length copies) freed ++ [null], None)
  else (0, copy ∘ name <$> copies, Some count).


Definition names (r : registry) : list string := name <$> g_registry r.


End Registry.

(** ** Errors, validation and batches of the coordinator
    ([backup_coordinator.c]) *)

Module CoordinatorCalls.
Import Stdlib.Strings.String.
Import Engine Coordinator.
Local Open Scope Z_scope.

Definition get_error_message (error_code : Z) : string :=
  if error_code =? BACKUP_SUCCESS then "Success"
  else if error_code =? BACKUP_ERROR_INVALID_PARAM then "Invalid parameter"
  else if error_code =? BACKUP_ERROR_INIT_FAILED then "Initialization failed"
  else if error_code =? BACKUP_ERROR_NOT_INITIALIZED then "Not initialized"
  else if error_code =? BACKUP_ERROR_MEMORY_ALLOC
       then "Memory allocation failed"
  else if error_code =? BACKUP_ERROR_FILE_IO then "File I/O error"
  else if error_code =? BACKUP_ERROR_NETWORK then "Network error"
  else if error_code =? BACKUP_ERROR_TIMEOUT then "Operation timeout"
  else if error_code =? BACKUP_ERROR_DATA_CORRUPTION
       then "Data corruption detected"
  else if error_code =? BACKUP_ERROR_PERMISSION_DENIED
       then "Permission denied"
  else if error_code =? BACKUP_ERROR_DISK_FULL then "Disk full"
  else if error_code =? BACKUP_ERROR_CONNECTION_LOST then "Connection lost"
  else if error_code =? BACKUP_ERROR_RETRY_EXHAUSTED
       then "Retry attempts exhausted"
  else "Unknown error".

(** The coordinator with the string its [last_error_message] points to;
    [None] is NULL. *)
Record SCoordinatorErrors : Type := {
  coordinator : SBackupCoordinator;
  last_error_message : option string
}.

Definition with_error_count (co : SBackupCoordinator) (count : Z)
  : SBackupCoordinator :=
  {| coordinator_config := coordinator_config co;
     bitmap_engine := bitmap_engine co;
     retry_context := retry_context co;
     error_count := count; retry_count := retry_count co;
     total_backup_blocks := total_backup_blocks co;
     total_backup_size := total_backup_size co;
     backup_duration_ms := backup_duration_ms co |}.

Definition with_retry_context (co : SBackupCoordinator) (c : SRetryContext)
  : SBackupCoordinator :=
  {| coordinator_config := coordinator_config co;
     bitmap_engine := bitmap_engine co;
     retry_context := c;
     error_count := error_count co; retry_count := retry_count co;
     total_backup_blocks := total_backup_blocks co;
     total_backup_size := total_backup_size co;
     backup_duration_ms := backup_duration_ms co |}.

(** [alloc_ok] tells whether the [malloc] of the copy succeeds.  The
    line appended to a log file under [error_store_path] is outside the
    model. *)
Definition backup_record_error (alloc_ok : bool) (ce : SCoordinatorErrors)
    (error_code : Z) (error_message : option string) : SCoordinatorErrors :=
  {| coordinator :=
       with_error_count (coordinator ce)
         (wrap64 (error_count (coordinator ce) + 1));
     last_error_message :=
       match error_message with
       | Some message => if alloc_ok then Some message else None
       | None => None
       end |}.

Definition backup_get_last_error (ce : SCoordinatorErrors) : string :=
  match last_error_message ce with
  | Some message => message
  | None => get_error_message (last_error (retry_context (coordinator ce)))
  end.

Definition backup_clear_error (ce : SCoordinatorErrors)
  : SCoordinatorErrors :=
  let c := retry_context (coordinator ce) in
  {| coordinator :=
       with_retry_context (coordinator ce)
         (with_progress c (current_retry c) RETRY_STATE_IDLE BACKUP_SUCCESS
            (last_retry_time c));
     last_error_message := None |}.

(** The two output parameters. *)
Definition backup_get_error_stats (ce : SCoordinatorErrors) : Z * Z :=
  (error_count (coordinator ce), retry_count (coordinator ce)).

(** A run of [backup_record_error] calls, each with the answer of its
    [malloc], the code and the message. *)
Definition record_all (errors : list (bool * Z * option string))
    (ce : SCoordinatorErrors) : SCoordinatorErrors :=
  fold_left (λ ce error, backup_record_error error.1.1 ce error.1.2 error.2)
    errors ce.

(** [file_write_operation]: [written] tells whether the file could be
    opened and took all the bytes. *)
Definition file_write_operation (written : bool) : Z :=
  if written then BACKUP_SUCCESS else BACKUP_ERROR_FILE_IO.

(** The attempts of a write: [writes k] is the outcome of the attempt
    that follows [k] earlier ones. *)
Definition file_write_env (writes : nat → bool) (clock : nat → Z)
  : retry_env :=
  {| operation := λ k, file_write_operation (writes k); time_s := clock |}.

(** The result is the return value, the coordinator and the number of
    attempts; [None] when [fuel] turns of the retry loop were not
    enough. *)
Definition backup_write_file_with_retry (fuel : nat) (writes : nat → bool)
    (clock : nat → Z) (alloc_ok : bool) (ce : SCoordinatorErrors)
  : option (Z * SCoordinatorErrors * nat) :=
  match backup_execute_with_retry fuel (file_write_env writes clock)
          (retry_context (coordinator ce)) with
  | None => None
  | Some (result, c, calls) =>
      let ce :=
        {| coordinator := with_retry_context (coordinator ce) c;
           last_error_message := last_error_message ce |} in
      Some (result,
            if negb (result =? BACKUP_SUCCESS)
            then backup_record_error alloc_ok ce result
                   (Some "File write operation failed"%string)
            else ce,
            calls)
  end.

(** The loop of [backup_coordinator_validate_backup]. *)
Fixpoint backup_coordinator_validate_backup (co : SBackupCoordinator)
    (start_wal end_wal : Z) (blocks : list SIncrementalBlock) : Z :=
  match blocks with
  | [] => 0
  | block :: blocks =>
      match bitmap_engine_get_block_metadata (bitmap_engine co)
              (ib_block_id block) with
      | None => -1
      | Some metadata =>
          if (wal_offset metadata <? start_wal)
             || (end_wal <? wal_offset metadata)
          then -1
          else backup_coordinator_validate_backup co start_wal end_wal blocks
      end
  end.


End CoordinatorCalls.

(** ** The archive ([backup_coordinator.c], functions [*_taosx_*]) *)

Module Archive.

(** *** Files and memory *)

(** A stream open for writing.  [contents] are the bytes that [fwrite]
    has reported as written, in order: what the file holds once the
    stream is flushed and closed without error.  [answers] is what the C
    library answers to the calls of [fwrite] to come: for each call in
    turn, how many bytes it takes at most; a call behind the end of the
    list takes all its bytes.  (A stream with a buffer takes the bytes
    that fit its buffer, whatever room the device has.) *)
Record out_file : Set := {
  contents : list Z;
  answers : list nat
}.

(** [fwrite] with item size 1 takes the first bytes, as many as the
    answer allows, and returns their number. *)
Definition fwrite (bytes : list Z) (fp : out_file) : Z * out_file :=
  let n :=
    match answers fp with
    | [] => length bytes
    | most :: _ => Nat.min (length bytes) most
    end in
  (Z.of_nat n,
   {| contents := contents fp ++ take n bytes;
      answers := drop 1 (answers fp) |}).

(** The calls of [fwrite] to come take their bytes in full, when they
    write [sizes] bytes, in this order. *)
Definition takes_in_full (sizes : list nat) (fp : out_file) : Prop :=
  ∀ i size most,
    sizes !! i = Some size → answers fp !! i = Some most →
    (size ≤ most)%nat.

(** A stream open for reading is the list of the bytes not yet read.
    [fread] with item size 1 delivers up to [n] of them. *)
Definition fread (n : nat) (fp : list Z) : list Z * list Z :=
  (take n fp, drop n fp).

(** Memory is a list of bytes; [field] reads [n] bytes at an offset,
    [list_inserts] stores bytes at an offset. *)
Definition field (mem : list Z) (offset n : nat) : list Z :=
  take n (drop offset mem).

(** A [uint32_t] or [uint16_t] in memory: little-endian, as the archive
    format has it. *)
Fixpoint le_bytes (n : nat) (z : Z) : list Z :=
  match n with
  | O => []
  | S n => z mod 256 :: le_bytes n (z / 256)
  end.

Definition le_value (bytes : list Z) : Z :=
  fold_right (λ byte value, byte + 256 * value) 0 bytes.

(** One [fread] of [n] bytes into the memory [mem] at [offset], followed
    by [rest] when all [n] bytes came, and by [return -1] otherwise.  A
    state is the memory, the stream, and what else the caller threads
    through. *)
Definition fread_into {A : Type} (offset n : nat) (mem fp : list Z)
    (rest : list Z → list Z → Z * A) (failed : list Z → list Z → A)
  : Z * A :=
  let '(got, fp) := fread n fp in
  let mem := list_inserts offset got mem in
  if (length got =? n)%nat then rest mem fp else (-1, failed mem fp).

(** *** The header *)

Definition TAOSX_FILE_MAGIC_LEN : nat := 4.
Definition TAOSX_COMMIT_ID_LEN : nat := 40.
Definition TAOSX_OBJ_NAME_MAX_LEN : nat := 256.

(** [TaosxBackupHeader] is a packed struct: 356 bytes of memory, with
    [magic] at 0, [version] at 4, [api_commit_id] at 6,
    [server_commit_id] at 46, [obj_name_len] at 86, [obj_name] at 87,
    [timestamp] at 343, [vg_id] at 351 and [file_seq] at 352. *)
Definition sizeof_TaosxBackupHeader : nat := 356.

Definition obj_name_len (header : list Z) : Z := nth 86 header 0.

Definition write_taosx_backup_header (fp : out_file) (header : list Z)
  : Z * out_file :=
  let written := 0 in
  let '(n, fp) := fwrite (field header 0 TAOSX_FILE_MAGIC_LEN) fp in
  let written := written + n in
  let '(n, fp) := fwrite (field header 4 2) fp in
  let written := written + n in
  let '(n, fp) := fwrite (field header 6 TAOSX_COMMIT_ID_LEN) fp in
  let written := written + n in
  let '(n, fp) := fwrite (field header 46 TAOSX_COMMIT_ID_LEN) fp in
  let written := written + n in
  let '(n, fp) := fwrite (field header 86 1) fp in
  let written := written + n in
  let '(n, fp) :=
    fwrite (field header 87 (Z.to_nat (obj_name_len header))) fp in
  let written := written + n in
  let '(n, fp) := fwrite (field header 343 8) fp in
  let written := written + n in
  let '(n, fp) := fwrite (field header 351 1) fp in
  let written := written + n in
  let '(n, fp) := fwrite (field header 352 4) fp in
  let written := written + n in
  (if 0 <? written then 0 else -1, fp).

(** The result is the return value, the memory of [*header] and the
    stream.  The three stores of a NUL behind [magic], [api_commit_id]
    and [server_commit_id] fall on the first byte of the field that
    follows. *)
Definition read_taosx_backup_header (fp header : list Z)
  : Z * (list Z * list Z) :=
  fread_into 0 TAOSX_FILE_MAGIC_LEN header fp (λ header fp,
  let header := <[ (0 + TAOSX_FILE_MAGIC_LEN)%nat := 0 ]> header in
  fread_into 4 2 header fp (λ header fp,
  fread_into 6 TAOSX_COMMIT_ID_LEN header fp (λ header fp,
  let header := <[ (6 + TAOSX_COMMIT_ID_LEN)%nat := 0 ]> header in
  fread_into 46 TAOSX_COMMIT_ID_LEN header fp (λ header fp,
  let header := <[ (46 + TAOSX_COMMIT_ID_LEN)%nat := 0 ]> header in
  fread_into 86 1 header fp (λ header fp,
  if Z.of_nat TAOSX_OBJ_NAME_MAX_LEN <? obj_name_len header
  then (-1, (header, fp))
  else
  fread_into 87 (Z.to_nat (obj_name_len header)) header fp (λ header fp,
  let header :=
    <[ (87 + Z.to_nat (obj_name_len header))%nat := 0 ]> header in
  fread_into 343 8 header fp (λ header fp,
  fread_into 351 1 header fp (λ header fp,
  fread_into 352 4 header fp (λ header fp,
  (0, (header, fp)))
  pair) pair) pair) pair) pair) pair) pair) pair) pair.

(** The bytes of a header in a file. *)
Definition header_image (header : list Z) : list Z :=
  field header 0 TAOSX_FILE_MAGIC_LEN
  ++ field header 4 2
  ++ field header 6 TAOSX_COMMIT_ID_LEN
  ++ field header 46 TAOSX_COMMIT_ID_LEN
  ++ field header 86 1
  ++ field header 87 (Z.to_nat (obj_name_len header))
  ++ field header 343 8
  ++ field header 351 1
  ++ field header 352 4.

(** *** Blocks *)

(** [TaosxBackupBlockHeader] is a packed struct of 7 bytes:
    [block_type] at 0, [msg_len] at 1 and [msg_type] at 5. *)
Definition msg_len (block : list Z) : Z := le_value (field block 1 4).

(** [msg_body] is [None] for NULL; a body holds at least [msg_len]
    bytes. *)
Definition write_taosx_backup_block (fp : out_file) (block : list Z)
    (msg_body : option (list Z)) : Z * out_file :=
  match msg_body, 0 <? msg_len block with
  | None, true => (-1, fp)
  | _, _ =>
      let written := 0 in
      let '(n, fp) := fwrite (field block 0 1) fp in
      let written := written + n in
      let '(n, fp) := fwrite (field block 1 4) fp in
      let written := written + n in
      let '(n, fp) := fwrite (field block 5 2) fp in
      let written := written + n in
      let '(n, fp) :=
        if 0 <? msg_len block
        then fwrite (take (Z.to_nat (msg_len block))
                       (default [] msg_body)) fp
        else (0, fp) in
      let written := written + n in
      (if 0 <? written then 0 else -1, fp)
  end.

(** The result is the return value, the memory of [*block], the buffer
    and the stream; [msg_body_buf] is [None] for NULL and holds at least
    [buf_size] bytes otherwise. *)
Definition read_taosx_backup_block (fp block : list Z)
    (msg_body_buf : option (list Z)) (buf_size : Z)
  : Z * (list Z * option (list Z) * list Z) :=
  fread_into 0 1 block fp (λ block fp,
  fread_into 1 4 block fp (λ block fp,
  fread_into 5 2 block fp (λ block fp,
  if 0 <? msg_len block then
    match msg_body_buf with
    | None => (-1, (block, msg_body_buf, fp))
    | Some buf =>
        if buf_size <? msg_len block
        then (-1, (block, msg_body_buf, fp))
        else
          fread_into 0 (Z.to_nat (msg_len block)) buf fp
            (λ buf fp, (0, (block, Some buf, fp)))
            (λ buf fp, (block, Some buf, fp))
    end
  else (0, (block, msg_body_buf, fp)))
  (λ block fp, (block, msg_body_buf, fp)))
  (λ block fp, (block, msg_body_buf, fp)))
  (λ block fp, (block, msg_body_buf, fp)).

(** The bytes of a block in a file. *)
Definition block_image (block body : list Z) : list Z :=
  field block 0 1 ++ field block 1 4 ++ field block 5 2 ++ body.

(** *** The checksum of a body *)

Section Checksum.

(** zlib's [crc32(crc, buf, len)]. *)
Variable crc32 : Z → list Z → Z.

Definition write_taosx_body_crc32 (fp : out_file) (body_buf : list Z)
    (body_len : Z) : Z * out_file :=
  if body_len =? 0 then (-1, fp)
  else
    let crc := wrap32 (crc32 0 (take (Z.to_nat body_len) body_buf)) in
    let '(n, fp) := fwrite (le_bytes 4 crc) fp in
    (if n =? 4 then 0 else -1, fp).

End Checksum.

(** The result is the return value, the memory of [*crc] and the
    stream. *)
Definition read_taosx_body_crc32 (fp crc : list Z)
  : Z * (list Z * list Z) :=
  fread_into 0 4 crc fp (λ crc fp, (0, (crc, fp))) pair.

(** *** An example *)

(** A header for the object "db1": magic "TAOS", version 010, commit ids
    of 40 letters, a timestamp, vgroup 2, file 7. *)
Definition example_header : list Z :=
  [84; 65; 79; 83] ++ [8; 0] ++ replicate 40 97 ++ replicate 40 98
  ++ [3] ++ ([100; 98; 49] ++ replicate 253 0)
  ++ [1; 2; 3; 4; 5; 6; 7; 8] ++ [2] ++ [7; 0; 0; 0].

(** A block of type 1 with a body of three bytes, message type 9. *)
Definition example_block : list Z := [1] ++ [3; 0; 0; 0] ++ [9; 0].

Definition empty_file (answers : list nat) : out_file :=
  {| contents := []; answers := answers |}.

End Archive.

(** * Properties of the bitmap engine *)

Module EngineFacts.
Import Roaring SkipList Engine Requests Scenarios.

(** ** The transition table *)

Lemma validate_follows_spec_matrix from to :
  bitmap_engine_validate_state_transition from to =
  if spec_matrix_allows from to then SUCCESS else ERR_INVALID_STATE_TRANS.
Proof. destruct from, to; reflexivity. Qed.

Lemma insert_block_metadata_alloc e md :
  is_Some (insert_block_metadata true e md).
Proof.
  unfold insert_block_metadata.
  destruct (find_block_metadata e (block_id md)); eauto.
Qed.

Lemma mark_dirty_refused alloc_ok e id wal ts :
  spec_matrix_allows (current_state_of e id) BLOCK_STATE_DIRTY = false →
  bitmap_engine_mark_dirty alloc_ok e id wal ts = (ERR_INVALID_STATE_TRANS, e).
Proof.
  intros H. unfold bitmap_engine_mark_dirty.
  rewrite validate_follows_spec_matrix, H. reflexivity.
Qed.

Lemma mark_new_refused alloc_ok e id wal ts :
  spec_matrix_allows (current_state_of e id) BLOCK_STATE_NEW = false →
  bitmap_engine_mark_new alloc_ok e id wal ts = (ERR_INVALID_STATE_TRANS, e).
Proof.
  intros H. unfold bitmap_engine_mark_new.
  rewrite validate_follows_spec_matrix, H. reflexivity.
Qed.

Lemma mark_deleted_refused alloc_ok e id wal ts :
  spec_matrix_allows (current_state_of e id) BLOCK_STATE_DELETED = false →
  bitmap_engine_mark_deleted alloc_ok e id wal ts
  = (ERR_INVALID_STATE_TRANS, e).
Proof.
  intros H. unfold bitmap_engine_mark_deleted.
  rewrite validate_follows_spec_matrix, H. reflexivity.
Qed.

Lemma clear_block_refused e id :
  spec_matrix_allows (current_state_of e id) BLOCK_STATE_CLEAN = false →
  bitmap_engine_clear_block e id = (refusal BLOCK_STATE_CLEAN e id, e).
Proof.
  unfold bitmap_engine_clear_block, refusal, current_state_of.
  destruct (find_block_metadata e id) as [node|]; [|reflexivity].
  intros H. rewrite validate_follows_spec_matrix, H. reflexivity.
Qed.

Lemma mark_request_allowed e id wal ts to :
  spec_matrix_allows (current_state_of e id) to = true →
  (mark_request to true e id wal ts).1 = SUCCESS.
Proof.
  intros H. destruct to; simpl.
  - unfold bitmap_engine_clear_block. unfold current_state_of in H.
    destruct (find_block_metadata e id) as [node|]; [|discriminate].
    rewrite validate_follows_spec_matrix, H. reflexivity.
  - unfold bitmap_engine_mark_dirty.
    rewrite validate_follows_spec_matrix, H.
    destruct (insert_block_metadata_alloc e
      {| block_id := id; wal_offset := wal; timestamp := ts;
         state := BLOCK_STATE_DIRTY |}) as [e' ->]. reflexivity.
  - unfold bitmap_engine_mark_new.
    rewrite validate_follows_spec_matrix, H.
    destruct (insert_block_metadata_alloc e
      {| block_id := id; wal_offset := wal; timestamp := ts;
         state := BLOCK_STATE_NEW |}) as [e' ->]. reflexivity.
  - unfold bitmap_engine_mark_deleted.
    rewrite validate_follows_spec_matrix, H.
    destruct (insert_block_metadata_alloc e
      {| block_id := id; wal_offset := wal; timestamp := ts;
         state := BLOCK_STATE_DELETED |}) as [e' ->]. reflexivity.
Qed.

Lemma mark_request_refused alloc_ok e id wal ts to :
  spec_matrix_allows (current_state_of e id) to = false →
  mark_request to alloc_ok e id wal ts = (refusal to e id, e).
Proof.
  intros H. destruct to; simpl.
  - by apply clear_block_refused.
  - by apply mark_dirty_refused.
  - by apply mark_new_refused.
  - by apply mark_deleted_refused.
Qed.

Lemma refusal_not_success to e id : refusal to e id ≠ SUCCESS.
Proof.
  unfold refusal. destruct to, (find_block_metadata e id); discriminate.
Qed.

(** C1 (as amended).  A request for the transition to [to] on a block in
    state [from] ([CLEAN] when it has no metadata) succeeds, allocation
    permitting, exactly when the transition table of the specification
    allows the edge from [from] to [to].  When the table forbids it the
    engine is returned unchanged, with [ERR_INVALID_STATE_TRANS], or with
    [ERR_BLOCK_NOT_FOUND] when the request is [clear_block] on a block
    without metadata. *)
Theorem mark_request_follows_matrix e id wal ts to :
  ((mark_request to true e id wal ts).1 = SUCCESS
   ↔ spec_matrix_allows (current_state_of e id) to = true)
  ∧ (∀ alloc_ok,
       spec_matrix_allows (current_state_of e id) to = false →
       mark_request to alloc_ok e id wal ts
       = (match to, find_block_metadata e id with
          | BLOCK_STATE_CLEAN, None => ERR_BLOCK_NOT_FOUND
          | _, _ => ERR_INVALID_STATE_TRANS
          end, e)).
Proof.
  split.
  - split; [|apply mark_request_allowed].
    destruct (spec_matrix_allows (current_state_of e id) to) eqn:H; [done|].
    rewrite (mark_request_refused true _ _ _ _ _ H). simpl.
    intros Hs. by apply refusal_not_success in Hs.
  - intros alloc_ok H. apply (mark_request_refused alloc_ok _ _ wal ts _ H).
Qed.

(** C1, as stated, fails in two places.  The table forbids the edge from
    [CLEAN] to [CLEAN], yet [clear_block] on a block without metadata is
    turned down with [ERR_BLOCK_NOT_FOUND], not with
    [ERR_INVALID_STATE_TRANS].  And the table allows the edge from [CLEAN]
    to [DIRTY], yet [mark_dirty] returns -1 when the node of the block
    cannot be allocated. *)
Lemma refusals_outside_the_matrix :
  (spec_matrix_allows (current_state_of bitmap_engine_init 7)
     BLOCK_STATE_CLEAN = false
   ∧ mark_request BLOCK_STATE_CLEAN true bitmap_engine_init 7 0 0
     = (ERR_BLOCK_NOT_FOUND, bitmap_engine_init))
  ∧ (spec_matrix_allows (current_state_of bitmap_engine_init 7)
       BLOCK_STATE_DIRTY = true
     ∧ mark_request BLOCK_STATE_DIRTY false bitmap_engine_init 7 0 0
       = (FAILURE, bitmap_engine_init)).
Proof. repeat split. Qed.

(** ** The metadata map *)

Lemma chain_find_id chain id node :
  chain_find chain id = Some node → node_block_id node = id.
Proof.
  induction chain as [|n next IH]; simpl; [done|].
  destruct (node_block_id n =? id) eqn:E; [|done].
  intros [= <-]. by apply Z.eqb_eq.
Qed.

Lemma chain_find_overwrite chain md id :
  chain_find (chain_overwrite chain md) id =
  if decide (id = block_id md)
  then (λ _, {| node_block_id := id; metadata := md |}) <$> chain_find chain id
  else chain_find chain id.
Proof.
  induction chain as [|n next IH]; simpl.
  - by case_decide.
  - destruct (node_block_id n =? block_id md) eqn:E; simpl.
    + apply Z.eqb_eq in E. case_decide as D.
      * subst id. rewrite E, !Z.eqb_refl. done.
      * rewrite E. destruct (block_id md =? id) eqn:E2; [|done].
        apply Z.eqb_eq in E2. congruence.
    + rewrite IH. destruct (node_block_id n =? id) eqn:E2; [|done].
      apply Z.eqb_eq in E2. apply Z.eqb_neq in E.
      case_decide; [|done]. congruence.
Qed.

Lemma chain_find_remove chain id chain' id' :
  chain_remove chain id = Some chain' → id' ≠ id →
  chain_find chain' id' = chain_find chain id'.
Proof.
  revert chain'. induction chain as [|n next IH]; simpl; intros chain' H Hne.
  - done.
  - destruct (node_block_id n =? id) eqn:E.
    + injection H as <-. apply Z.eqb_eq in E.
      destruct (node_block_id n =? id') eqn:E2; [|done].
      apply Z.eqb_eq in E2. congruence.
    + destruct (chain_remove next id) as [c|] eqn:R; simpl in H; [|done].
      injection H as <-. simpl. rewrite (IH c); done.
Qed.

Lemma bucket_insert e h chain count h' :
  bucket (with_metadata e (<[ h := chain ]> (metadata_map e)) count) h' =
  if decide (h' = h) then chain else bucket e h'.
Proof.
  unfold bucket. simpl. case_decide.
  - subst. by rewrite lookup_insert_eq.
  - by rewrite lookup_insert_ne.
Qed.

Lemma find_after_insert alloc_ok e md e' id :
  insert_block_metadata alloc_ok e md = Some e' →
  find_block_metadata e' id =
  if decide (id = block_id md)
  then Some {| node_block_id := id; metadata := md |}
  else find_block_metadata e id.
Proof.
  unfold insert_block_metadata.
  destruct (find_block_metadata e (block_id md)) as [n|] eqn:F.
  - intros [= <-]. unfold find_block_metadata in *.
    rewrite bucket_insert. simpl.
    destruct (decide (id = block_id md)) as [->|D].
    + rewrite decide_True by done.
      rewrite chain_find_overwrite, decide_True by done. by rewrite F.
    + case_decide as Hh; [|done].
      rewrite chain_find_overwrite, decide_False by done. by rewrite Hh.
  - destruct alloc_ok; [|done]. intros [= <-]. unfold find_block_metadata in *.
    rewrite bucket_insert. simpl.
    destruct (decide (id = block_id md)) as [->|D].
    + rewrite decide_True by done. simpl. by rewrite Z.eqb_refl.
    + case_decide as Hh; [|done]. simpl.
      destruct (block_id md =? id) eqn:E.
      * apply Z.eqb_eq in E. congruence.
      * by rewrite Hh.
Qed.

Lemma find_after_remove e id e' id' :
  remove_block_metadata e id = Some e' → id' ≠ id →
  find_block_metadata e' id' = find_block_metadata e id'.
Proof.
  unfold remove_block_metadata.
  destruct (chain_remove _ id) as [c|] eqn:R; [|done].
  intros [= <-] Hne. unfold find_block_metadata.
  rewrite bucket_insert. simpl. case_decide as Hh; [|done].
  rewrite Hh. eapply chain_find_remove; eauto. 
Qed.

(** ** What a request does to the state *)

Lemma insert_shape alloc_ok e md e1 :
  insert_block_metadata alloc_ok e md = Some e1 →
  ∃ m c, e1 = with_metadata e m c.
Proof.
  unfold insert_block_metadata.
  destruct (find_block_metadata e (block_id md)); [|destruct alloc_ok];
    intros [= <-]; eauto.
Qed.

Lemma current_state_after_insert alloc_ok e md e1 id :
  insert_block_metadata alloc_ok e md = Some e1 →
  current_state_of e1 id =
  if decide (id = block_id md) then state md else current_state_of e id.
Proof.
  intros H. unfold current_state_of.
  rewrite (find_after_insert _ _ _ _ id H). by case_decide.
Qed.

Ltac mark_effect H :=
  rewrite validate_follows_spec_matrix in H;
  match type of H with
  | context [spec_matrix_allows ?c ?t] =>
      destruct (spec_matrix_allows c t) eqn:?; [|discriminate H]
  end;
  match type of H with
  | context [insert_block_metadata ?a ?e ?md] =>
      let I := fresh "I" in
      destruct (insert_block_metadata a e md) as [?e1|] eqn:I;
      [|discriminate H];
      let S := fresh "S" in
      pose proof (insert_shape _ _ _ _ I) as (?m & ?c & S);
      pose proof (λ id', current_state_after_insert _ _ _ _ id' I)
  end;
  injection H as <-.

Lemma mark_request_effect to alloc_ok e id wal ts e' :
  to ≠ BLOCK_STATE_CLEAN →
  mark_request to alloc_ok e id wal ts = (SUCCESS, e') →
  spec_matrix_allows (current_state_of e id) to = true
  ∧ (∀ s, bitmap_of s e' =
          if decide (s = to) then {[ id ]} ∪ bitmap_of s e else bitmap_of s e)
  ∧ (∀ s, count_of s e' =
          if decide (s = to) then wrap64 (count_of s e + 1) else count_of s e)
  ∧ (∀ id', current_state_of e' id' =
            if decide (id' = id) then to else current_state_of e id').
Proof.
  intros Hto H. destruct to; [done| | |]; simpl in H.
  - unfold bitmap_engine_mark_dirty in H. mark_effect H.
    split; [done|]. subst e1.
    split; [|split]; [intros []; reflexivity ..|]. done.
  - unfold bitmap_engine_mark_new in H. mark_effect H.
    split; [done|]. subst e1.
    split; [|split]; [intros []; reflexivity ..|]. done.
  - unfold bitmap_engine_mark_deleted in H. mark_effect H.
    split; [done|]. subst e1.
    split; [|split]; [intros []; reflexivity ..|]. done.
Qed.

Lemma serve_failure r e : (serve r e).1 ≠ SUCCESS → (serve r e).2 = e.
Proof.
  destruct r as [a id wal ts|a id wal ts|a id wal ts|id]; simpl.
  - unfold bitmap_engine_mark_dirty.
    destruct (bitmap_engine_validate_state_transition _ _); try done.
    destruct (insert_block_metadata _ _ _); done.
  - unfold bitmap_engine_mark_new.
    destruct (bitmap_engine_validate_state_transition _ _); try done.
    destruct (insert_block_metadata _ _ _); done.
  - unfold bitmap_engine_mark_deleted.
    destruct (bitmap_engine_validate_state_transition _ _); try done.
    destruct (insert_block_metadata _ _ _); done.
  - unfold bitmap_engine_clear_block.
    destruct (find_block_metadata e id); [|done].
    destruct (bitmap_engine_validate_state_transition _ _); done.
Qed.

Lemma remove_shape e id e1 :
  remove_block_metadata e id = Some e1 → ∃ m c, e1 = with_metadata e m c.
Proof.
  unfold remove_block_metadata.
  destruct (chain_remove _ id); intros [= <-]; eauto.
Qed.

Lemma clear_block_effect e id e' :
  bitmap_engine_clear_block e id = (SUCCESS, e') →
  spec_matrix_allows (current_state_of e id) BLOCK_STATE_CLEAN = true
  ∧ (∀ s, bitmap_of s e' = bitmap_of s e ∖ {[ id ]})
  ∧ (∀ s, count_of s e' = wrap32 (Z.of_nat (size (bitmap_of s e'))))
  ∧ (∀ id', id' ≠ id → current_state_of e' id' = current_state_of e id').
Proof.
  unfold bitmap_engine_clear_block, current_state_of.
  destruct (find_block_metadata e id) as [node|] eqn:F; [|done].
  rewrite validate_follows_spec_matrix.
  destruct (spec_matrix_allows _ _) eqn:A; [|done].
  match goal with
  | |- context [remove_block_metadata ?x id] =>
      destruct (remove_block_metadata x id) as [e1|] eqn:R; simpl
  end.
  - destruct (remove_shape _ _ _ R) as (m & c & ->).
    pose proof (λ id' Hne, find_after_remove _ _ _ id' R Hne) as Hf.
    intros [= <-]. split; [done|].
    split; [|split].
    + intros []; simpl; [set_solver|reflexivity..].
    + intros []; reflexivity.
    + intros id' Hne. specialize (Hf id' Hne).
      unfold find_block_metadata, bucket in *. simpl in *. by rewrite Hf.
  - intros [= <-]. split; [done|].
    split; [|split].
    + intros []; simpl; [set_solver|reflexivity..].
    + intros []; reflexivity.
    + done.
Qed.

(** ** The invariant of the reachable states *)

Lemma held_after_mark s cur to :
  held s cur = true → spec_matrix_allows cur to = true →
  to ≠ BLOCK_STATE_CLEAN → held s to = true.
Proof. destruct s, cur, to; done. Qed.

Lemma held_self to : to ≠ BLOCK_STATE_CLEAN → held to to = true.
Proof. destruct to; done. Qed.

Lemma held_blocks to cur :
  held to cur = true → spec_matrix_allows cur to = false.
Proof. destruct to, cur; done. Qed.

Lemma count_ok_after_add (c : Z) (X : gset Z) (id : Z) :
  id ∉ X →
  c = Z.of_nat (size X) ∨ 2 ^ 32 ≤ Z.of_nat (size X) →
  wrap64 (c + 1) = Z.of_nat (size ({[ id ]} ∪ X))
  ∨ 2 ^ 32 ≤ Z.of_nat (size ({[ id ]} ∪ X)).
Proof.
  intros Hid H.
  rewrite size_union by set_solver. rewrite size_singleton.
  destruct H as [-> | H]; [|right; lia].
  destruct (decide (Z.of_nat (size X) + 1 < 2 ^ 64)) as [Hlt|Hge].
  - left. unfold wrap64. rewrite Z.mod_small by lia. lia.
  - right. lia.
Qed.

Lemma count_ok_after_recount (X : gset Z) :
  wrap32 (Z.of_nat (size X)) = Z.of_nat (size X)
  ∨ 2 ^ 32 ≤ Z.of_nat (size X).
Proof.
  destruct (decide (Z.of_nat (size X) < 2 ^ 32)) as [Hlt|Hge].
  - left. unfold wrap32. rewrite Z.mod_small by lia. done.
  - right. lia.
Qed.

Lemma engine_inv_init : engine_inv bitmap_engine_init.
Proof.
  split.
  - intros [] id; simpl; set_solver.
  - intros []; left; reflexivity.
Qed.

Lemma engine_inv_mark to alloc_ok e id wal ts e' :
  to ≠ BLOCK_STATE_CLEAN →
  mark_request to alloc_ok e id wal ts = (SUCCESS, e') →
  engine_inv e → engine_inv e'.
Proof.
  intros Hto H [Hheld Hcount].
  destruct (mark_request_effect _ _ _ _ _ _ _ Hto H) as (Ha & Hb & Hc & Hs).
  split.
  - intros s id'. rewrite Hb, Hs.
    destruct (decide (id' = id)) as [->|Hne].
    + case_decide as Hst; [subst; intros _; by apply held_self|].
      intros Hin. eapply held_after_mark; eauto.
    + intros Hin. apply Hheld. case_decide; set_solver.
  - intros s. unfold count_ok. rewrite Hb, Hc.
    case_decide as Hst; [subst s|apply Hcount].
    apply count_ok_after_add; [|apply Hcount].
    intros Hin. apply Hheld, held_blocks in Hin. congruence.
Qed.

Lemma engine_inv_clear e id e' :
  bitmap_engine_clear_block e id = (SUCCESS, e') →
  engine_inv e → engine_inv e'.
Proof.
  intros H [Hheld Hcount].
  destruct (clear_block_effect _ _ _ H) as (Ha & Hb & Hc & Hs).
  split.
  - intros s id'. rewrite Hb. intros Hin.
    assert (id' ≠ id) as Hne by set_solver.
    rewrite Hs by done. apply Hheld. set_solver.
  - intros s. unfold count_ok. rewrite Hc. apply count_ok_after_recount.
Qed.

Lemma engine_inv_serve r e : engine_inv e → engine_inv (serve r e).2.
Proof.
  intros Hinv.
  destruct (decide ((serve r e).1 = SUCCESS)) as [Hs|Hf];
    [|by rewrite serve_failure].
  destruct (serve r e) as [st e'] eqn:E. simpl in *. subst st.
  destruct r as [a id wal ts|a id wal ts|a id wal ts|id]; simpl in E.
  - by apply (engine_inv_mark BLOCK_STATE_DIRTY a e id wal ts).
  - by apply (engine_inv_mark BLOCK_STATE_NEW a e id wal ts).
  - by apply (engine_inv_mark BLOCK_STATE_DELETED a e id wal ts).
  - by apply (engine_inv_clear e id).
Qed.

Lemma reachable_inv e : reachable e → engine_inv e.
Proof.
  induction 1 as [|e r _ IH]; [apply engine_inv_init|by apply engine_inv_serve].
Qed.

Lemma reachable_run rs e : reachable e → reachable (run rs e).
Proof.
  revert e. induction rs as [|r rs IH]; intros e He; [done|].
  apply IH. by constructor.
Qed.

(** ** Counters *)

(** C7 (as amended).  In every state the engine reaches by serving
    requests, successful or failed, each of the dirty, new and deleted
    counters returned by [bitmap_engine_get_stats] equals the cardinality
    of its bitmap, as long as that bitmap holds fewer than 2^32 ids. *)
Theorem get_stats_match_cardinalities e :
  reachable e →
  let st := bitmap_engine_get_stats e in
  (roaring64_bitmap_get_cardinality (dirty_blocks e) < 2 ^ 32 →
   stat_dirty_count st = roaring64_bitmap_get_cardinality (dirty_blocks e))
  ∧ (roaring64_bitmap_get_cardinality (new_blocks e) < 2 ^ 32 →
     stat_new_count st = roaring64_bitmap_get_cardinality (new_blocks e))
  ∧ (roaring64_bitmap_get_cardinality (deleted_blocks e) < 2 ^ 32 →
     stat_deleted_count st
     = roaring64_bitmap_get_cardinality (deleted_blocks e)).
Proof.
  intros [_ Hc]%reachable_inv. simpl.
  unfold roaring64_bitmap_get_cardinality.
  pose proof (Hc BLOCK_STATE_DIRTY) as [Hd|Hd].
  all: pose proof (Hc BLOCK_STATE_NEW) as [Hn|Hn].
  all: pose proof (Hc BLOCK_STATE_DELETED) as [Hx|Hx].
  all: simpl in *; repeat split; intros; solve [done | lia].
Qed.

(** The theorem above at the state left by [stats_scenario]: one id in
    the dirty bitmap, none in the new bitmap, one in the deleted bitmap,
    and the counters say so. *)
Lemma get_stats_match_cardinalities_witness :
  let e := run stats_scenario bitmap_engine_init in
  let st := bitmap_engine_get_stats e in
  reachable e
  ∧ stat_dirty_count st = roaring64_bitmap_get_cardinality (dirty_blocks e)
  ∧ stat_new_count st = roaring64_bitmap_get_cardinality (new_blocks e)
  ∧ stat_deleted_count st
    = roaring64_bitmap_get_cardinality (deleted_blocks e)
  ∧ (stat_dirty_count st, stat_new_count st, stat_deleted_count st)
    = (1, 0, 1).
Proof.
  intros e st.
  assert (reachable e) as Hr by apply reachable_run, reachable_init.
  destruct (get_stats_match_cardinalities e Hr) as (Hd & Hn & Hx).
  split; [exact Hr|].
  split; [apply Hd; vm_compute; reflexivity|].
  split; [apply Hn; vm_compute; reflexivity|].
  split; [apply Hx; vm_compute; reflexivity|].
  vm_compute; reflexivity.
Defined.

Lemma reachable_mark_dirty_upto n : reachable (mark_dirty_upto n).
Proof.
  induction n as [|n IH]; [constructor|].
  apply (reachable_serve _ (mark_dirty true (Z.of_nat n) 0 0) IH).
Qed.

Lemma mark_dirty_upto_spec n :
  (∀ id, id ∈ dirty_blocks (mark_dirty_upto n) ↔ 0 ≤ id < Z.of_nat n)
  ∧ (∀ id, current_state_of (mark_dirty_upto n) id =
           if decide (0 ≤ id < Z.of_nat n)
           then BLOCK_STATE_DIRTY else BLOCK_STATE_CLEAN)
  ∧ size (dirty_blocks (mark_dirty_upto n)) = n.
Proof.
  induction n as [|n (IHd & IHs & IHn)].
  - split; [|split]; [|intros id; case_decide; [lia|done]|done].
    intros id. split; [set_solver|lia].
  - assert (spec_matrix_allows
              (current_state_of (mark_dirty_upto n) (Z.of_nat n))
              BLOCK_STATE_DIRTY = true) as Hallow.
    { rewrite IHs. rewrite decide_False by lia. done. }
    pose proof (mark_request_allowed _ _ 0 0 _ Hallow) as Hok.
    destruct (mark_request BLOCK_STATE_DIRTY true (mark_dirty_upto n)
                (Z.of_nat n) 0 0) as [st e'] eqn:E.
    simpl in Hok. subst st.
    assert (mark_dirty_upto (S n) = e') as ->.
    { change (mark_dirty_upto (S n))
        with (mark_request BLOCK_STATE_DIRTY true (mark_dirty_upto n)
                (Z.of_nat n) 0 0).2.
      by rewrite E. }
    destruct (mark_request_effect BLOCK_STATE_DIRTY _ _ _ _ _ _
                ltac:(done) E)
      as (_ & Hb & _ & Hs).
    specialize (Hb BLOCK_STATE_DIRTY). simpl in Hb. rewrite Hb.
    split; [|split].
    + intros id. rewrite elem_of_union, elem_of_singleton, IHd. lia.
    + intros id. rewrite Hs, IHs.
      repeat case_decide; try done; lia.
    + rewrite size_union, size_singleton, IHn; [done|].
      apply disjoint_singleton_l. rewrite IHd. lia.
Qed.

Lemma stats_after_clearing_first n :
  (0 < n)%nat →
  let e := (bitmap_engine_clear_block (mark_dirty_upto n) 0).2 in
  reachable e
  ∧ roaring64_bitmap_get_cardinality (dirty_blocks e) = Z.of_nat n - 1
  ∧ stat_dirty_count (bitmap_engine_get_stats e) = wrap32 (Z.of_nat n - 1).
Proof.
  intros Hpos e. subst e.
  split.
  { apply (reachable_serve _ (clear_block 0)), reachable_mark_dirty_upto. }
  destruct (mark_dirty_upto_spec n) as (Hd & Hs & Hn).
  assert (spec_matrix_allows (current_state_of (mark_dirty_upto n) 0)
            BLOCK_STATE_CLEAN = true) as Hallow.
  { rewrite Hs, decide_True by lia. done. }
  pose proof (mark_request_allowed _ _ 0 0 _ Hallow) as Hok.
  simpl in Hok.
  destruct (bitmap_engine_clear_block (mark_dirty_upto n) 0)
    as [st e'] eqn:E.
  simpl in Hok. subst st. simpl.
  destruct (clear_block_effect _ _ _ E) as (_ & Hb & Hc & _).
  specialize (Hb BLOCK_STATE_DIRTY). specialize (Hc BLOCK_STATE_DIRTY).
  simpl in Hb, Hc.
  assert (Z.of_nat (size (dirty_blocks e')) = Z.of_nat n - 1) as Hsize.
  { rewrite Hb, size_difference, size_singleton, Hn.
    - lia.
    - apply singleton_subseteq_l, Hd. lia. }
  unfold roaring64_bitmap_get_cardinality.
  split; [done|]. by rewrite Hc, Hsize.
Qed.

(** C7, as stated, fails once a bitmap holds 2^32 ids or more: after
    2^32 + 1 blocks were marked dirty and the first of them was cleared,
    the dirty bitmap holds 2^32 ids and the dirty counter is 0, because
    [clear_block] recounts through the 32-bit [cardinality]. *)
Lemma stats_after_wraparound :
  let e :=
    (bitmap_engine_clear_block (mark_dirty_upto (Z.to_nat 4294967297)) 0).2 in
  reachable e
  ∧ roaring64_bitmap_get_cardinality (dirty_blocks e) = 4294967296
  ∧ stat_dirty_count (bitmap_engine_get_stats e) = 0.
Proof.
  pose proof (stats_after_clearing_first (Z.to_nat 4294967297)) as H.
  rewrite Z2Nat.id in H by lia.
  apply H. lia.
Qed.

(** ** Range queries *)

Lemma range_cb_fold e (l : list (Z * gset Z)) (acc : gset Z) id :
  id ∈ fold_left (λ a kv, range_cb e kv.1 kv.2 a) l acc
  ↔ id ∈ acc ∨ (id ∈ dirty_blocks e ∧ ∃ kv, kv ∈ l ∧ id ∈ kv.2).
Proof.
  revert acc. induction l as [|kv l IH]; intros acc; simpl.
  - split; [by left|]. intros [?|(_ & kv & Hkv & _)]; [done|].
    by apply elem_of_nil in Hkv.
  - rewrite IH. unfold range_cb, tdengine_roaring_union_with,
      tdengine_roaring_intersect_with, tdengine_roaring_create.
    setoid_rewrite elem_of_cons. set_solver.
Qed.

Lemma range_entries_elem sl k_lo k_hi kv :
  kv ∈ range_entries sl k_lo k_hi
  ↔ sl !! kv.1 = Some kv.2 ∧ k_lo ≤ kv.1 ≤ k_hi.
Proof.
  unfold range_entries. rewrite list_elem_of_In, filter_In, <- list_elem_of_In.
  rewrite merge_sort_Permutation. destruct kv as [k bm].
  rewrite elem_of_map_to_list. unfold in_range. simpl.
  rewrite andb_true_iff, !Z.leb_le. tauto.
Qed.

(** The ids the range query collects. *)
Lemma range_query_elem e index k_lo k_hi id :
  id ∈ skiplist_range_query index k_lo k_hi false (range_cb e)
         tdengine_roaring_create
  ↔ id ∈ dirty_blocks e
    ∧ ∃ k bm, k_lo ≤ k ≤ k_hi ∧ index !! k = Some bm ∧ id ∈ bm.
Proof.
  unfold skiplist_range_query. rewrite range_cb_fold.
  unfold tdengine_roaring_create. split.
  - intros [?|(Hd & kv & Hkv & Hin)]; [set_solver|].
    apply range_entries_elem in Hkv as [Hl Hr]. eauto 10.
  - intros (Hd & k & bm & Hr & Hl & Hin). right. split; [done|].
    exists (k, bm). split; [|done]. by apply range_entries_elem.
Qed.

Lemma to_array_spec (b : gset Z) max_count :
  0 < max_count < 2 ^ 32 →
  tdengine_roaring_to_array b max_count =
  (if 0 <? Z.of_nat (size b) then roaring64_bitmap_to_uint64_array b else [],
   Z.min (Z.of_nat (size b)) max_count).
Proof.
  intros Hmax. unfold tdengine_roaring_to_array,
    roaring64_bitmap_get_cardinality, wrap32.
  destruct (Z.of_nat (size b) <? max_count) eqn:E.
  - apply Z.ltb_lt in E. rewrite Z.mod_small by lia.
    by rewrite Z.min_l by lia.
  - apply Z.ltb_ge in E. rewrite Z.mod_small by lia.
    rewrite Z.min_r by lia.
    replace (0 <? max_count) with true by (symmetry; apply Z.ltb_lt; lia).
    by replace (0 <? Z.of_nat (size b)) with true
      by (symmetry; apply Z.ltb_lt; lia).
Qed.

Lemma to_uint64_array_sorted (b : gset Z) :
  Sorted Z.le (roaring64_bitmap_to_uint64_array b).
Proof. apply (Sorted_merge_sort Z.le). Qed.

Lemma to_uint64_array_elem (b : gset Z) id :
  id ∈ roaring64_bitmap_to_uint64_array b ↔ id ∈ b.
Proof.
  unfold roaring64_bitmap_to_uint64_array.
  by rewrite merge_sort_Permutation, elem_of_elements.
Qed.

Lemma to_uint64_array_length (b : gset Z) :
  length (roaring64_bitmap_to_uint64_array b) = size b.
Proof.
  unfold roaring64_bitmap_to_uint64_array.
  by rewrite merge_sort_Permutation.
Qed.

(** What the two range queries compute: the ids of the dirty bitmap that
    are posted under a key of the range; all of them are stored, in
    ascending order, and the count is capped by [max_count]. *)
Lemma get_dirty_blocks_by_time_result e start_time end_time max_count :
  0 < max_count < 2 ^ 32 →
  ∃ result : gset Z,
    (∀ id, id ∈ result
           ↔ id ∈ dirty_blocks e
             ∧ ∃ k bm, start_time ≤ k ≤ end_time
                       ∧ time_index e !! k = Some bm ∧ id ∈ bm)
    ∧ bitmap_engine_get_dirty_blocks_by_time e start_time end_time max_count
      = (if 0 <? Z.of_nat (size result)
         then roaring64_bitmap_to_uint64_array result else [],
         Z.min (Z.of_nat (size result)) max_count).
Proof.
  intros Hmax. eexists. split; [intros id; apply range_query_elem|].
  unfold bitmap_engine_get_dirty_blocks_by_time.
  replace (max_count =? 0) with false by (symmetry; apply Z.eqb_neq; lia).
  by apply to_array_spec.
Qed.

Lemma get_dirty_blocks_by_wal_result e start_offset end_offset max_count :
  0 < max_count < 2 ^ 32 →
  ∃ result : gset Z,
    (∀ id, id ∈ result
           ↔ id ∈ dirty_blocks e
             ∧ ∃ k bm, to_int64 start_offset ≤ k ≤ to_int64 end_offset
                       ∧ wal_index e !! k = Some bm ∧ id ∈ bm)
    ∧ bitmap_engine_get_dirty_blocks_by_wal e start_offset end_offset
        max_count
      = (if 0 <? Z.of_nat (size result)
         then roaring64_bitmap_to_uint64_array result else [],
         Z.min (Z.of_nat (size result)) max_count).
Proof.
  intros Hmax. eexists. split; [intros id; apply range_query_elem|].
  unfold bitmap_engine_get_dirty_blocks_by_wal.
  replace (max_count =? 0) with false by (symmetry; apply Z.eqb_neq; lia).
  by apply to_array_spec.
Qed.

(** C6.  The claim bounds the ids written into the output array by
    [max_count].  With two dirty blocks in the range and [max_count] 1,
    both range queries return the count 1 and store two ids: the array
    export behind [tdengine_roaring_to_array] writes every id of the
    result.  The ids are those of the range, in ascending order. *)
Theorem to_array_ignores_max_count :
  let e := run two_dirty bitmap_engine_init in
  bitmap_engine_get_dirty_blocks_by_wal e 0 5000 1 = ([1001; 1002], 1)
  ∧ bitmap_engine_get_dirty_blocks_by_time e 0 10 1 = ([1001; 1002], 1)
  ∧ bitmap_engine_get_dirty_blocks_by_wal e 0 5000 10 = ([1001; 1002], 2).
Proof. vm_compute. done. Qed.

(** ** Membership in the three bitmaps *)

(** C2.  The claim puts every block with metadata in exactly one bitmap.
    After [mark_new] and then [mark_dirty] on block 1, a reachable state,
    the metadata says DIRTY and the id is in the dirty bitmap and still in
    the new bitmap. *)
Theorem remarked_block_stays_in_old_bitmap :
  let e := run new_then_dirty bitmap_engine_init in
  reachable e
  ∧ bitmap_engine_get_block_state e 1 = (SUCCESS, Some BLOCK_STATE_DIRTY)
  ∧ tdengine_roaring_contains (dirty_blocks e) 1 = true
  ∧ tdengine_roaring_contains (new_blocks e) 1 = true.
Proof.
  split; [apply reachable_run, reachable_init|].
  vm_compute. done.
Qed.

(** A successful mark adds the id to the bitmap of the target and takes
    it out of no bitmap. *)
Lemma mark_keeps_other_bitmaps to alloc_ok e id wal ts e' s :
  to ≠ BLOCK_STATE_CLEAN →
  mark_request to alloc_ok e id wal ts = (SUCCESS, e') →
  id ∈ bitmap_of s e → id ∈ bitmap_of s e' ∧ id ∈ bitmap_of to e'.
Proof.
  intros Hto H Hin.
  destruct (mark_request_effect _ _ _ _ _ _ _ Hto H) as (_ & Hb & _).
  rewrite (Hb s), (Hb to).
  destruct (decide (to = to)); [|done]. case_decide; set_solver.
Qed.

(** After a successful [clear_block] the id is in none of the bitmaps. *)
Lemma clear_block_empties_bitmaps e id e' s :
  bitmap_engine_clear_block e id = (SUCCESS, e') → id ∉ bitmap_of s e'.
Proof.
  intros H. destruct (clear_block_effect _ _ _ H) as (_ & Hb & _).
  rewrite Hb. set_solver.
Qed.

End EngineFacts.

(** * Properties of the event interceptor *)

Module InterceptorFacts.
Import Engine Requests RingBuffer Interceptor Scenarios.

Lemma callback_thread_turn_engine i e :
  callback (config i) = None → (callback_thread_turn i e).2 = e.
Proof.
  intros H. unfold callback_thread_turn.
  destruct (ring_buffer_dequeue_blocking (event_buffer i)) as [[r ev] rb].
  destruct r as [|p|p], ev as [event|]; simpl; try done. by rewrite H.
Qed.

Lemma callback_thread_turn_config i e :
  config (callback_thread_turn i e).1 = config i.
Proof.
  unfold callback_thread_turn.
  destruct (ring_buffer_dequeue_blocking (event_buffer i)) as [[r ev] rb].
  destruct r as [|p|p], ev as [event|]; done.
Qed.

(** ** The worker *)

(** C3.  The claim has the worker apply every dequeued event to the
    bitmap engine.  [callback_thread_func] only hands the event to the
    user callback and counts it: with no callback configured, as in
    [backup_plugin_init], the engine is the same after any number of
    turns of the worker. *)
Theorem worker_never_applies_events turns i e :
  callback (config i) = None →
  (callback_thread_func turns i e).2 = e.
Proof.
  revert i e. induction turns as [|turns IH]; intros i e H; simpl; [done|].
  destruct (stop_threads i); [done|].
  destruct (callback_thread_turn i e) as [i' e'] eqn:T.
  rewrite IH.
  - by rewrite <- (callback_thread_turn_engine i e H), T.
  - rewrite <- H. by rewrite <- (callback_thread_turn_config i e), T.
Qed.

(** The theorem above on the plugin's interceptor with one CREATE event
    queued: the event is consumed and counted, and block 1, which
    [mark_new] would have put in state NEW, is unknown to the engine. *)
Lemma worker_never_applies_events_witness :
  let event :=
    {| event_type := EVENT_BLOCK_CREATE; event_block_id := 1;
       event_wal_offset := 100; event_timestamp := 10 |} in
  let i :=
    (event_interceptor_on_block_create true plugin_interceptor 1 100 10).2 in
  let w := callback_thread_func 3 i bitmap_engine_init in
  items (event_buffer i) = [event]
  ∧ items (event_buffer w.1) = []
  ∧ events_processed w.1 = 1
  ∧ w.2 = bitmap_engine_init
  ∧ bitmap_engine_get_block_state w.2 1 = (ERR_BLOCK_NOT_FOUND, None)
  ∧ bitmap_engine_get_block_state
      (spec_apply_event event bitmap_engine_init).2 1
    = (SUCCESS, Some BLOCK_STATE_NEW).
Proof.
  intros event i w.
  split; [reflexivity|]. split; [reflexivity|]. split; [reflexivity|].
  assert (w.2 = bitmap_engine_init) as Hw
    by (apply (worker_never_applies_events 3 i bitmap_engine_init);
        reflexivity).
  split; [exact Hw|]. split; [rewrite Hw; reflexivity|reflexivity].
Defined.

(** ** Start and stop *)

(** C9.  The claim has [stop] on a started interceptor raise the stop
    flag and return after the workers have exited.  The guard of
    [event_interceptor_stop] returns at once while [stop_threads] is
    unset, which is the case after [init] and after [start]: the flag
    stays unset and no thread is joined.  (A second [stop] returns 0 as
    well.) *)
Theorem stop_after_start_is_ignored i :
  stop_threads i = false →
  let started := (event_interceptor_start None i).2 in
  stop_threads started = false
  ∧ thread_log started
    = thread_log i ++ (pthread_create <$> thread_ids (thread_count i))
  ∧ event_interceptor_stop started = (0, started).
Proof.
  intros H. unfold event_interceptor_start, event_interceptor_stop.
  rewrite H, Nat.ltb_irrefl. simpl. done.
Qed.

(** The theorem above on the plugin's interceptor: two workers are
    created, none is joined. *)
Lemma stop_after_start_is_ignored_witness :
  let started := (event_interceptor_start None plugin_interceptor).2 in
  stop_threads started = false
  ∧ thread_log started = [pthread_create 0; pthread_create 1]
  ∧ event_interceptor_stop started = (0, started).
Proof.
  apply (stop_after_start_is_ignored plugin_interceptor). reflexivity.
Defined.
End InterceptorFacts.

(** * Properties of the backup coordinator *)

Module CoordinatorFacts.
Import Roaring SkipList Engine Requests Coordinator Scenarios EngineFacts.

(** *** Retry *)

Lemma retryable_codes error_code :
  is_retryable_error error_code = true ↔
  error_code = BACKUP_ERROR_NETWORK ∨ error_code = BACKUP_ERROR_TIMEOUT
  ∨ error_code = BACKUP_ERROR_CONNECTION_LOST
  ∨ error_code = BACKUP_ERROR_FILE_IO.
Proof.
  unfold is_retryable_error.
  repeat match goal with
         | |- context [?a =? ?b] =>
             destruct (Z.eqb_spec a b)
         end; intuition congruence.
Qed.

Lemma retryable_is_failure error_code :
  is_retryable_error error_code = true →
  error_code ≠ BACKUP_SUCCESS ∧ error_code ≠ BACKUP_ERROR_RETRY_EXHAUSTED.
Proof.
  rewrite retryable_codes.
  unfold BACKUP_ERROR_NETWORK, BACKUP_ERROR_TIMEOUT,
    BACKUP_ERROR_CONNECTION_LOST, BACKUP_ERROR_FILE_IO, BACKUP_SUCCESS,
    BACKUP_ERROR_RETRY_EXHAUSTED. lia.
Qed.

Section Exhaustion.

(** An operation all of whose attempts fail with a retryable error. *)
Variable env : retry_env.
Hypothesis all_retryable : ∀ k, is_retryable_error (operation env k) = true.

Lemma attempt_fails k : (operation env k =? BACKUP_SUCCESS) = false.
Proof. apply Z.eqb_neq. by apply retryable_is_failure. Qed.

(** The loop, entered [d] retries before the last one, with fuel for
    more than [d] turns. *)
Lemma retry_loop_exhausts (d fuel : nat) (c : SRetryContext) :
  (d < fuel)%nat →
  0 ≤ current_retry c →
  max_retry c < 2 ^ 32 →
  current_retry c + Z.of_nat d = max_retry c →
  ∃ c',
    retry_loop fuel env (Z.to_nat (current_retry c)) c
    = Some (operation env (Z.to_nat (max_retry c)), c',
            S (Z.to_nat (max_retry c)))
    ∧ current_retry c' = max_retry c
    ∧ retry_state c' = RETRY_STATE_FAILED
    ∧ last_error c' = operation env (Z.to_nat (max_retry c)).
Proof.
  revert fuel c. induction d as [|d IH]; intros fuel c Hfuel Hcur Hmax Hd;
    (destruct fuel as [|fuel]; [lia|]); cbn [retry_loop];
    (replace (current_retry c <=? max_retry c) with true
       by (symmetry; apply Z.leb_le; lia));
    rewrite attempt_fails; cbn; rewrite all_retryable; cbn.
  - assert (current_retry c = max_retry c) as E by lia.
    replace (max_retry c <=? current_retry c) with true
      by (symmetry; apply Z.leb_le; lia).
    rewrite E. eauto.
  - replace (max_retry c <=? current_retry c) with false
      by (symmetry; apply Z.leb_gt; lia).
    set (c1 := backup_wait_for_retry _ _).
    assert (current_retry c1 = current_retry c + 1) as Hc1.
    { subst c1. cbn. unfold wrap32. apply Z.mod_small. lia. }
    assert (max_retry c1 = max_retry c) as Hm1 by reflexivity.
    replace (S (Z.to_nat (current_retry c)))
      with (Z.to_nat (current_retry c1)) by (rewrite Hc1; lia).
    destruct (IH fuel c1) as (c' & Hloop & Hrest); [lia..|].
    exists c'. rewrite Hm1 in *. by split.
Qed.

(** C4.  The claim has a run whose every attempt fails with a retryable
    error end in [BACKUP_ERROR_RETRY_EXHAUSTED].  Given fuel for more than
    [max_retry] turns, the loop makes [max_retry + 1] calls and returns
    the error code of the last one; the
    [return BACKUP_ERROR_RETRY_EXHAUSTED] after the loop is never reached,
    since the test on [current_retry >= max_retry] inside the loop returns
    first. *)
Theorem retry_exhaustion_returns_last_error (fuel : nat) (c : SRetryContext) :
  0 ≤ max_retry c < 2 ^ 32 →
  (Z.to_nat (max_retry c) < fuel)%nat →
  ∃ c',
    backup_execute_with_retry fuel env c
    = Some (operation env (Z.to_nat (max_retry c)), c',
            S (Z.to_nat (max_retry c)))
    ∧ operation env (Z.to_nat (max_retry c)) ≠ BACKUP_ERROR_RETRY_EXHAUSTED
    ∧ current_retry c' = max_retry c
    ∧ retry_state c' = RETRY_STATE_FAILED.
Proof.
  intros Hmax Hfuel. unfold backup_execute_with_retry.
  set (c0 := with_progress c 0 _ _ _).
  destruct (retry_loop_exhausts (Z.to_nat (max_retry c)) fuel c0)
    as (c' & Hloop & Hcur & Hst & _); [done | done | simpl; lia | simpl; lia |].
  exists c'. split; [exact Hloop|]. split; [|by split].
  by apply retryable_is_failure.
Qed.

End Exhaustion.

(** The theorem above for [max_retry = 3] and an operation that always
    fails with a network error: four calls, result -6. *)
Lemma retry_exhaustion_returns_last_error_witness :
  ∃ c',
    backup_execute_with_retry 4 always_network
      (backup_retry_context_init 3 0)
    = Some (BACKUP_ERROR_NETWORK, c', 4%nat)
    ∧ BACKUP_ERROR_NETWORK ≠ BACKUP_ERROR_RETRY_EXHAUSTED
    ∧ current_retry c' = 3
    ∧ retry_state c' = RETRY_STATE_FAILED.
Proof.
  apply (retry_exhaustion_returns_last_error always_network
           (λ _, eq_refl) 4 (backup_retry_context_init 3 0)).
  - simpl. lia.
  - simpl. lia.
Defined.

(** A first attempt that fails with an error outside the retryable set is
    returned at once. *)
Lemma non_retryable_returned_at_once fuel env c :
  operation env 0%nat ≠ BACKUP_SUCCESS →
  is_retryable_error (operation env 0%nat) = false →
  0 ≤ max_retry c →
  ∃ c', backup_execute_with_retry (S fuel) env c
        = Some (operation env 0%nat, c', 1%nat).
Proof.
  intros Hns Hnr Hmax. unfold backup_execute_with_retry. cbn.
  replace (0 <=? max_retry c) with true by (symmetry; apply Z.leb_le; lia).
  apply Z.eqb_neq in Hns. rewrite Hns, Hnr. cbn. eauto.
Qed.

(** After a failed attempt the loop calls the operation again exactly
    when [backup_should_retry] holds: the error is retryable and retries
    are left. *)
Lemma retry_loop_turn fuel env calls c :
  current_retry c ≤ max_retry c →
  operation env calls ≠ BACKUP_SUCCESS →
  retry_loop (S fuel) env calls c =
  if backup_should_retry c (operation env calls)
  then
    retry_loop fuel env (S calls)
      (with_progress c (wrap32 (current_retry c + 1)) (retry_state c)
         (operation env calls) (time_s env calls))
  else
    Some (operation env calls,
          with_progress c (current_retry c) RETRY_STATE_FAILED
            (operation env calls) (last_retry_time c),
          S calls).
Proof.
  intros Hle Hns. cbn [retry_loop].
  replace (current_retry c <=? max_retry c) with true
    by (symmetry; apply Z.leb_le; lia).
  apply Z.eqb_neq in Hns. rewrite Hns. unfold backup_should_retry. cbn.
  destruct (is_retryable_error (operation env calls)); cbn; [|done].
  destruct (Z.leb_spec (max_retry c) (current_retry c));
    destruct (Z.ltb_spec (current_retry c) (max_retry c)); try lia; done.
Qed.

(** *** Cursors and estimates *)

(** The batch does not depend on the type of the cursor, nor on its time
    range. *)
Lemma get_next_batch_ignores_type alloc_ok co cursor max_count ty st et :
  fst <$> backup_coordinator_get_next_batch alloc_ok co
            {| type := ty; start_time := st; end_time := et;
               start_wal := start_wal cursor; end_wal := end_wal cursor;
               current_block := current_block cursor;
               block_count := block_count cursor;
               has_more := has_more cursor |} max_count
  = fst <$> backup_coordinator_get_next_batch alloc_ok co cursor max_count.
Proof.
  unfold backup_coordinator_get_next_batch. simpl.
  destruct (max_count =? 0); [done|].
  destruct (has_more cursor); [|done].
  destruct alloc_ok; [|done]. simpl.
  destruct (bitmap_engine_get_dirty_blocks_by_wal _ _ _ _) as [ids n].
  by destruct (array_holds max_count ids).
Qed.

(** C5.  The claim has a TIME cursor query the time index over
    [[start_time, end_time]].  A TIME cursor over the times [[0, 10]] and
    the WAL range [[5000, 6000]], on an engine whose one dirty block was
    written at time 5 and WAL offset 1000, yields an empty batch: the
    block is in the time range, and [get_next_batch] asked for the WAL
    range.  A HYBRID cursor over the times [[100, 200]] and the WAL range
    [[0, 5000]] yields the block, which no intersection with the empty
    time result would hold.  (With one dirty block every array of the
    two calls holds what is stored into it.) *)
Theorem time_cursor_queries_wal_range :
  let co := coordinator_over one_dirty in
  bitmap_engine_get_dirty_blocks_by_time (bitmap_engine co) 0 10 10
  = ([1], 1)
  ∧ bitmap_engine_get_dirty_blocks_by_wal (bitmap_engine co) 5000 6000 10
    = ([], 0)
  ∧ fst <$> (backup_coordinator_create_cursor co CURSOR_TYPE_TIME
               0 10 5000 6000
             ≫= λ cursor : SIncrementalCursor,
                  backup_coordinator_get_next_batch true co cursor 10)
    = Some ([], 0)
  ∧ (λ out : list (option SIncrementalBlock) * Z * SIncrementalCursor,
       ib_block_id <$> omap id out.1.1)
    <$> (backup_coordinator_create_cursor co CURSOR_TYPE_HYBRID
           100 200 0 5000
         ≫= λ cursor : SIncrementalCursor,
              backup_coordinator_get_next_batch true co cursor 10)
    = Some [1]
  ∧ bitmap_engine_get_dirty_blocks_by_time (bitmap_engine co) 100 200 10
    = ([], 0).
Proof. vm_compute. done. Qed.

(** The dirty ids posted in a WAL range, as the engine collects them for
    a caller that asks for one id: all of them are stored. *)
Lemma wal_range_result e start_offset end_offset :
  ∃ (result : gset Z) (stored : list Z),
    (∀ id, id ∈ result
           ↔ id ∈ dirty_blocks e
             ∧ ∃ k bm, to_int64 start_offset ≤ k ≤ to_int64 end_offset
                       ∧ wal_index e !! k = Some bm ∧ id ∈ bm)
    ∧ bitmap_engine_get_dirty_blocks_by_wal e start_offset end_offset 1
      = (stored, if decide (result = ∅) then 0 else 1)
    ∧ length stored = size result.
Proof.
  destruct (get_dirty_blocks_by_wal_result e start_offset end_offset 1)
    as (result & Hres & ->); [lia|].
  exists result. eexists. split; [exact Hres|].
  split.
  - f_equal. case_decide as Hempty.
    + subst result. reflexivity.
    + assert (size result ≠ 0%nat)
        by (by apply size_non_empty_iff; intros ?%leibniz_equiv).
      lia.
  - destruct (Z.ltb_spec 0 (Z.of_nat (size result))).
    + apply to_uint64_array_length.
    + simpl. lia.
Qed.

Lemma array_holds_one (result : gset Z) (stored : list Z) :
  length stored = size result →
  array_holds 1 stored = bool_decide (size result ≤ 1)%nat.
Proof.
  intros Hlen. unfold array_holds. rewrite Hlen.
  case_bool_decide; [apply Z.leb_le|apply Z.leb_gt]; lia.
Qed.

(** C8 (as amended).  [estimate_size] asks the engine for one dirty id of
    the WAL range and has room for one.  Over a range that holds at most
    one dirty block the block estimate is 1000 when there is one and 0
    when there is none, and the byte estimate is the block estimate times
    1,048,576; the configuration plays no part.  Over a range that holds
    more, the ids are written past the end of the array. *)
Theorem estimate_size_is_constant co start_wal end_wal :
  ∃ result : gset Z,
    (∀ id, id ∈ result
           ↔ id ∈ dirty_blocks (bitmap_engine co)
             ∧ ∃ k bm, to_int64 start_wal ≤ k ≤ to_int64 end_wal
                       ∧ wal_index (bitmap_engine co) !! k = Some bm
                       ∧ id ∈ bm)
    ∧ backup_coordinator_estimate_size co start_wal end_wal
      = if decide (size result ≤ 1)%nat
        then Some (if decide (result = ∅) then (0, 0, 0)
                   else (0, 1000, 1000 * 1048576))
        else None.
Proof.
  destruct (wal_range_result (bitmap_engine co) start_wal end_wal)
    as (result & stored & Hres & Hquery & Hlen).
  exists result. split; [exact Hres|].
  unfold backup_coordinator_estimate_size.
  rewrite Hquery, (array_holds_one result stored Hlen).
  destruct (decide (size result ≤ 1)%nat) as [Hle|Hgt].
  - rewrite bool_decide_eq_true_2 by done. simpl.
    by destruct (decide (result = ∅)).
  - by rewrite bool_decide_eq_false_2 by done.
Qed.

(** C8, as stated, fails: with one dirty block in the range the engine
    reports the cardinality 1, and the block estimate is 1000 and the byte
    estimate 1000 * 1 MiB. *)
Lemma estimate_size_not_cardinality :
  let co := coordinator_over one_dirty in
  bitmap_engine_get_dirty_blocks_by_wal (bitmap_engine co) 0 5000 10
  = ([1], 1)
  ∧ backup_coordinator_estimate_size co 0 5000
    = Some (0, 1000, 1048576000).
Proof. vm_compute. done. Qed.




End CoordinatorFacts.

(** * Further properties of the bitmap engine *)

Module EngineMore.
Import Roaring SkipList Engine Requests Scenarios EngineFacts EngineInvariants.

(** ** Chains *)

Lemma chain_find_none chain id :
  chain_find chain id = None ↔ id ∉ chain_ids chain.
Proof.
  induction chain as [|n next IH]; simpl.
  - split; [intros _; apply not_elem_of_nil|done].
  - rewrite not_elem_of_cons, <- IH.
    destruct (Z.eqb_spec (node_block_id n) id) as [E|E]; split.
    + done.
    + intros [Hne _]. congruence.
    + intros H. split; [congruence|done].
    + by intros [_ H].
Qed.

Lemma chain_overwrite_ids chain md :
  chain_ids (chain_overwrite chain md) = chain_ids chain.
Proof.
  induction chain as [|n next IH]; simpl; [done|].
  destruct (node_block_id n =? block_id md); simpl; [done|by rewrite IH].
Qed.

Lemma chain_remove_ids chain id chain' :
  chain_remove chain id = Some chain' →
  NoDup (chain_ids chain) →
  NoDup (chain_ids chain') ∧ (id ∉ chain_ids chain')
  ∧ (∀ x, x ∈ chain_ids chain' → x ∈ chain_ids chain).
Proof.
  revert chain'. induction chain as [|n next IH]; simpl; intros chain' H Hnd.
  - done.
  - apply NoDup_cons in Hnd as [Hn Hnd].
    destruct (Z.eqb_spec (node_block_id n) id) as [E|E].
    + injection H as <-. subst id. split; [done|]. split; [done|].
      intros x Hx. by apply elem_of_cons; right.
    + destruct (chain_remove next id) as [c|] eqn:R; simpl in H; [|done].
      injection H as <-. destruct (IH c eq_refl Hnd) as (Hc & Hid & Hsub).
      simpl. split; [|split].
      * apply NoDup_cons. split; [|done]. intros Hin. by apply Hn, Hsub.
      * apply not_elem_of_cons. split; [congruence|done].
      * intros x [->|Hx]%elem_of_cons; apply elem_of_cons; auto.
Qed.

Lemma chain_remove_found chain id node :
  chain_find chain id = Some node → is_Some (chain_remove chain id).
Proof.
  induction chain as [|n next IH]; simpl; [done|].
  destruct (node_block_id n =? id); [eauto|].
  intros H. destruct (IH H) as [c ->]. simpl. eauto.
Qed.


(** ** Marks and clears, seen from the metadata map *)

Lemma metadata_map_ext e1 e2 :
  metadata_map e1 = metadata_map e2 →
  metadata_map_size e1 = metadata_map_size e2 →
  (∀ h, bucket e1 h = bucket e2 h)
  ∧ (∀ id, find_block_metadata e1 id = find_block_metadata e2 id).
Proof.
  intros Hm Hs. unfold find_block_metadata, bucket. rewrite Hm, Hs. done.
Qed.

Lemma mark_request_via_insert to alloc_ok e id wal ts e' :
  to ≠ BLOCK_STATE_CLEAN →
  mark_request to alloc_ok e id wal ts = (SUCCESS, e') →
  ∃ e1,
    insert_block_metadata alloc_ok e
      {| block_id := id; wal_offset := wal; timestamp := ts; state := to |}
    = Some e1
    ∧ metadata_map e' = metadata_map e1
    ∧ metadata_map_size e' = metadata_map_size e1
    ∧ metadata_map_size e1 = metadata_map_size e
    ∧ time_index e' = index_add (time_index e) ts id
    ∧ wal_index e' = index_add (wal_index e) (to_int64 wal) id.
Proof.
  intros Hto H. destruct to; [done| | |]; simpl in H.
  - unfold bitmap_engine_mark_dirty in H. mark_effect H.
    exists e1. subst e1. done.
  - unfold bitmap_engine_mark_new in H. mark_effect H.
    exists e1. subst e1. done.
  - unfold bitmap_engine_mark_deleted in H. mark_effect H.
    exists e1. subst e1. done.
Qed.

Lemma mark_request_lookup to alloc_ok e id wal ts e' :
  to ≠ BLOCK_STATE_CLEAN →
  mark_request to alloc_ok e id wal ts = (SUCCESS, e') →
  ∀ id',
    find_block_metadata e' id' =
    if decide (id' = id)
    then Some {| node_block_id := id;
                 metadata := {| block_id := id; wal_offset := wal;
                                timestamp := ts; state := to |} |}
    else find_block_metadata e id'.
Proof.
  intros Hto H id'.
  destruct (mark_request_via_insert _ _ _ _ _ _ _ Hto H)
    as (e1 & I & Hm & Hs & _).
  destruct (metadata_map_ext e' e1 Hm Hs) as [_ ->].
  rewrite (find_after_insert _ _ _ _ id' I). simpl.
  by case_decide; subst.
Qed.

Lemma insert_keeps_nodup alloc_ok e md e1 :
  insert_block_metadata alloc_ok e md = Some e1 →
  (∀ h, NoDup (chain_ids (bucket e h))) →
  ∀ h, NoDup (chain_ids (bucket e1 h)).
Proof.
  unfold insert_block_metadata. intros H Hnd h.
  destruct (find_block_metadata e (block_id md)) as [n|] eqn:F.
  - injection H as <-. rewrite bucket_insert. case_decide; [|done].
    rewrite chain_overwrite_ids. done.
  - destruct alloc_ok; [|done]. injection H as <-.
    rewrite bucket_insert. case_decide; [|done]. simpl.
    apply NoDup_cons. split; [|done].
    by apply chain_find_none.
Qed.

Lemma clear_block_via_remove e id e' :
  bitmap_engine_clear_block e id = (SUCCESS, e') →
  ∃ chain',
    chain_remove (bucket e (hash_block_id id (metadata_map_size e))) id
    = Some chain'
    ∧ metadata_map_size e' = metadata_map_size e
    ∧ metadata_map e'
      = <[ hash_block_id id (metadata_map_size e) := chain' ]> (metadata_map e)
    ∧ time_index e' = time_index e
    ∧ wal_index e' = wal_index e.
Proof.
  unfold bitmap_engine_clear_block.
  destruct (find_block_metadata e id) as [node|] eqn:F; [|done].
  destruct (bitmap_engine_validate_state_transition _ _); try done.
  destruct (chain_remove_found _ _ _ F) as [chain' R].
  intros H. injection H as <-. exists chain'. split; [exact R|].
  unfold remove_block_metadata, bucket in *. simpl. rewrite R. done.
Qed.

Lemma bucket_after_clear e id e' chain' h :
  metadata_map_size e' = metadata_map_size e →
  metadata_map e'
  = <[ hash_block_id id (metadata_map_size e) := chain' ]> (metadata_map e) →
  bucket e' h =
  if decide (h = hash_block_id id (metadata_map_size e))
  then chain' else bucket e h.
Proof.
  intros Hs Hm. unfold bucket. rewrite Hm. case_decide.
  - subst. by rewrite lookup_insert_eq.
  - by rewrite lookup_insert_ne.
Qed.

Lemma clear_block_lookup e id e' :
  (∀ h, NoDup (chain_ids (bucket e h))) →
  bitmap_engine_clear_block e id = (SUCCESS, e') →
  (∀ h, NoDup (chain_ids (bucket e' h)))
  ∧ ∀ id',
      find_block_metadata e' id' =
      if decide (id' = id) then None else find_block_metadata e id'.
Proof.
  intros Hnd H.
  destruct (clear_block_via_remove _ _ _ H) as (chain' & R & Hs & Hm & _).
  pose proof (bucket_after_clear e id e' chain') as Hb.
  destruct (chain_remove_ids _ _ _ R (Hnd _)) as (Hnd' & Hid & _).
  split.
  - intros h. rewrite Hb by done. by case_decide.
  - intros id'. unfold find_block_metadata at 1. rewrite Hs, Hb by done.
    destruct (decide (id' = id)) as [->|Hne].
    + rewrite decide_True by done. by apply chain_find_none.
    + case_decide as Hh; [|done].
      unfold find_block_metadata. rewrite Hh.
      by apply (chain_find_remove _ id).
Qed.


(** ** The indices only grow *)

Lemma index_add_posted index key id : posted (index_add index key id) key id.
Proof.
  unfold index_add, posted, skiplist_find, skiplist_insert,
    tdengine_roaring_add.
  destruct (index !! key) as [bm|]; eexists;
    (split; [apply lookup_insert_eq|set_solver]).
Qed.

Lemma index_add_keeps index key id k i :
  posted index k i → posted (index_add index key id) k i.
Proof.
  intros (bm & Hk & Hi).
  unfold index_add, posted, skiplist_find, skiplist_insert,
    tdengine_roaring_add.
  destruct (decide (k = key)) as [->|Hne].
  - rewrite Hk. eexists. split; [apply lookup_insert_eq|set_solver].
  - exists bm. split; [|done].
    destruct (index !! key); by rewrite lookup_insert_ne.
Qed.

Lemma serve_keeps_postings r e k i :
  (posted (time_index e) k i → posted (time_index (serve r e).2) k i)
  ∧ (posted (wal_index e) k i → posted (wal_index (serve r e).2) k i).
Proof.
  destruct (decide ((serve r e).1 = SUCCESS)) as [Hs|Hf];
    [|by rewrite serve_failure].
  destruct (serve r e) as [st e'] eqn:E. simpl in *. subst st.
  assert (∀ to a id wal ts,
            to ≠ BLOCK_STATE_CLEAN →
            mark_request to a e id wal ts = (SUCCESS, e') →
            (posted (time_index e) k i → posted (time_index e') k i)
            ∧ (posted (wal_index e) k i → posted (wal_index e') k i)) as Hm.
  { intros to a id wal ts Hto H.
    destruct (mark_request_via_insert _ _ _ _ _ _ _ Hto H)
      as (e1 & _ & _ & _ & _ & -> & ->).
    split; apply index_add_keeps. }
  destruct r as [a id wal ts|a id wal ts|a id wal ts|id]; simpl in E.
  - by apply (Hm BLOCK_STATE_DIRTY a id wal ts).
  - by apply (Hm BLOCK_STATE_NEW a id wal ts).
  - by apply (Hm BLOCK_STATE_DELETED a id wal ts).
  - destruct (clear_block_via_remove _ _ _ E) as (_ & _ & _ & _ & -> & ->).
    done.
Qed.

(** ** The invariant of the store *)

Lemma current_state_of_find e id :
  current_state_of e id =
  match find_block_metadata e id with
  | Some node => state (metadata node)
  | None => BLOCK_STATE_CLEAN
  end.
Proof. reflexivity. Qed.

Lemma store_inv_init : store_inv bitmap_engine_init.
Proof.
  split.
  - intros h. unfold bucket. simpl. rewrite lookup_empty. simpl. constructor.
  - intros id node H. unfold find_block_metadata, bucket in H. simpl in H.
    by rewrite lookup_empty in H.
  - intros id H. exfalso. apply H. reflexivity.
  - intros id node H. unfold find_block_metadata, bucket in H. simpl in H.
    by rewrite lookup_empty in H.
Qed.

Lemma store_inv_mark to alloc_ok e id wal ts e' :
  to ≠ BLOCK_STATE_CLEAN →
  mark_request to alloc_ok e id wal ts = (SUCCESS, e') →
  store_inv e → store_inv e'.
Proof.
  intros Hto H [Hnd Hrec Hmem Hpost].
  pose proof (mark_request_lookup _ _ _ _ _ _ _ Hto H) as Hfind.
  destruct (mark_request_effect _ _ _ _ _ _ _ Hto H) as (_ & Hb & _ & Hs).
  destruct (mark_request_via_insert _ _ _ _ _ _ _ Hto H)
    as (e1 & I & Hm & Hsz & _ & Hti & Hwi).
  split.
  - intros h. destruct (metadata_map_ext e' e1 Hm Hsz) as [-> _].
    by apply (insert_keeps_nodup _ _ _ _ I).
  - intros id' node. rewrite Hfind. case_decide.
    + intros [= <-]. simpl. by subst.
    + apply Hrec.
  - intros id'. rewrite Hs. destruct (decide (id' = id)) as [->|Hne].
    + intros _. rewrite Hb, decide_True by done. set_solver.
    + intros Hc. rewrite Hb. specialize (Hmem id' Hc).
      case_decide; set_solver.
  - intros id' node. rewrite Hfind, Hti, Hwi. case_decide.
    + intros [= <-]. simpl. subst id'. split; apply index_add_posted.
    + intros Hf. destruct (Hpost id' node Hf).
      split; by apply index_add_keeps.
Qed.

Lemma store_inv_clear e id e' :
  bitmap_engine_clear_block e id = (SUCCESS, e') →
  store_inv e → store_inv e'.
Proof.
  intros H [Hnd Hrec Hmem Hpost].
  destruct (clear_block_lookup _ _ _ Hnd H) as [Hnd' Hfind].
  destruct (clear_block_effect _ _ _ H) as (_ & Hb & _ & _).
  destruct (clear_block_via_remove _ _ _ H) as (_ & _ & _ & _ & Hti & Hwi).
  split.
  - exact Hnd'.
  - intros id' node. rewrite Hfind. case_decide; [done|apply Hrec].
  - intros id'. rewrite !current_state_of_find, Hfind.
    case_decide as Hid; [done|].
    intros Hc. rewrite Hb. rewrite <- current_state_of_find in *.
    specialize (Hmem id' Hc). set_solver.
  - intros id' node. rewrite Hfind, Hti, Hwi.
    case_decide; [done|apply Hpost].
Qed.

Lemma store_inv_serve r e : store_inv e → store_inv (serve r e).2.
Proof.
  intros Hinv.
  destruct (decide ((serve r e).1 = SUCCESS)) as [Hs|Hf];
    [|by rewrite serve_failure].
  destruct (serve r e) as [st e'] eqn:E. simpl in *. subst st.
  destruct r as [a id wal ts|a id wal ts|a id wal ts|id]; simpl in E.
  - by apply (store_inv_mark BLOCK_STATE_DIRTY a e id wal ts).
  - by apply (store_inv_mark BLOCK_STATE_NEW a e id wal ts).
  - by apply (store_inv_mark BLOCK_STATE_DELETED a e id wal ts).
  - by apply (store_inv_clear e id).
Qed.

Lemma reachable_store_inv e : reachable e → store_inv e.
Proof.
  induction 1 as [|e r _ IH]; [apply store_inv_init|by apply store_inv_serve].
Qed.


(** ** Marks and lookups *)

(** X1.  After a successful mark the metadata of the block is the record
    just written (id, WAL offset, timestamp, target state), the state
    query agrees, and the metadata of every other block is what it
    was. *)
Theorem mark_then_get_metadata to alloc_ok e id wal ts e' :
  to ≠ BLOCK_STATE_CLEAN →
  mark_request to alloc_ok e id wal ts = (SUCCESS, e') →
  bitmap_engine_get_block_metadata e' id
  = Some {| block_id := id; wal_offset := wal; timestamp := ts;
            state := to |}
  ∧ bitmap_engine_get_block_state e' id = (SUCCESS, Some to)
  ∧ ∀ id', id' ≠ id →
      bitmap_engine_get_block_metadata e' id'
      = bitmap_engine_get_block_metadata e id'.
Proof.
  intros Hto H. pose proof (mark_request_lookup _ _ _ _ _ _ _ Hto H) as Hf.
  unfold bitmap_engine_get_block_metadata, bitmap_engine_get_block_state.
  split; [|split].
  - by rewrite Hf, decide_True.
  - by rewrite Hf, decide_True.
  - intros id' Hne. by rewrite Hf, decide_False.
Qed.

Lemma mark_then_get_metadata_witness :
  let e' := (mark_request BLOCK_STATE_DELETED true
               (run two_dirty bitmap_engine_init) 1001 7000 70).2 in
  bitmap_engine_get_block_metadata e' 1001
  = Some {| block_id := 1001; wal_offset := 7000; timestamp := 70;
            state := BLOCK_STATE_DELETED |}
  ∧ bitmap_engine_get_block_state e' 1001
    = (SUCCESS, Some BLOCK_STATE_DELETED)
  ∧ ∀ id', id' ≠ 1001 →
      bitmap_engine_get_block_metadata e' id'
      = bitmap_engine_get_block_metadata
          (run two_dirty bitmap_engine_init) id'.
Proof.
  apply (mark_then_get_metadata BLOCK_STATE_DELETED true
           (run two_dirty bitmap_engine_init) 1001 7000 70).
  - discriminate.
  - vm_compute. reflexivity.
Defined.

(** X2.  In a reachable state a successful [clear_block] leaves the block
    without metadata: both lookups fail, the block is in none of the
    bitmaps, every other block keeps its metadata, and the block can be
    marked again with any state. *)
Theorem clear_block_erases_metadata e id e' :
  reachable e →
  bitmap_engine_clear_block e id = (SUCCESS, e') →
  bitmap_engine_get_block_metadata e' id = None
  ∧ bitmap_engine_get_block_state e' id = (ERR_BLOCK_NOT_FOUND, None)
  ∧ (∀ s, id ∉ bitmap_of s e')
  ∧ (∀ id', id' ≠ id →
       bitmap_engine_get_block_metadata e' id'
       = bitmap_engine_get_block_metadata e id')
  ∧ ∀ to wal ts, to ≠ BLOCK_STATE_CLEAN →
      (mark_request to true e' id wal ts).1 = SUCCESS.
Proof.
  intros Hr H. destruct (reachable_store_inv e Hr) as [Hnd _ _ _].
  destruct (clear_block_lookup _ _ _ Hnd H) as [_ Hf].
  unfold bitmap_engine_get_block_metadata, bitmap_engine_get_block_state.
  split; [by rewrite Hf, decide_True|].
  split; [by rewrite Hf, decide_True|].
  split; [intros s; by apply (clear_block_empties_bitmaps e id)|].
  split; [intros id' Hne; by rewrite Hf, decide_False|].
  intros to wal ts Hto. apply mark_request_allowed.
  rewrite current_state_of_find, Hf, decide_True by done.
  by destruct to.
Qed.

Lemma clear_block_erases_metadata_witness :
  let e := run two_dirty bitmap_engine_init in
  let e' := (bitmap_engine_clear_block e 1001).2 in
  bitmap_engine_get_block_metadata e' 1001 = None
  ∧ bitmap_engine_get_block_state e' 1001 = (ERR_BLOCK_NOT_FOUND, None)
  ∧ (∀ s, 1001 ∉ bitmap_of s e')
  ∧ (∀ id', id' ≠ 1001 →
       bitmap_engine_get_block_metadata e' id'
       = bitmap_engine_get_block_metadata e id')
  ∧ ∀ to wal ts, to ≠ BLOCK_STATE_CLEAN →
      (mark_request to true e' 1001 wal ts).1 = SUCCESS.
Proof.
  apply (clear_block_erases_metadata (run two_dirty bitmap_engine_init) 1001).
  - apply reachable_run, reachable_init.
  - vm_compute. reflexivity.
Defined.

(** X3.  In a reachable state the bitmaps and the metadata map agree in
    this much: a block with metadata is filed under its own id, its
    state is not CLEAN, and it is in the bitmap of that state; and an id
    in any of the three bitmaps has metadata. *)
Theorem metadata_and_bitmaps_agree e id :
  reachable e →
  (∀ md, bitmap_engine_get_block_metadata e id = Some md →
     block_id md = id ∧ state md ≠ BLOCK_STATE_CLEAN
     ∧ id ∈ bitmap_of (state md) e)
  ∧ (∀ s, id ∈ bitmap_of s e →
       is_Some (bitmap_engine_get_block_metadata e id)).
Proof.
  intros Hr. destruct (reachable_store_inv e Hr) as [_ Hrec Hmem _].
  destruct (reachable_inv e Hr) as [Hheld _].
  unfold bitmap_engine_get_block_metadata. split.
  - intros md Hmd.
    destruct (find_block_metadata e id) as [node|] eqn:F; [|done].
    injection Hmd as <-. destruct (Hrec id node F) as [Hid Hst].
    split; [done|]. split; [done|].
    specialize (Hmem id). rewrite current_state_of_find, F in Hmem.
    by apply Hmem.
  - intros s Hin. specialize (Hheld s id Hin).
    rewrite current_state_of_find in Hheld.
    destruct (find_block_metadata e id); [eauto|by destruct s].
Qed.

Lemma metadata_and_bitmaps_agree_witness :
  let e := run stats_scenario bitmap_engine_init in
  (∀ md, bitmap_engine_get_block_metadata e 2 = Some md →
     block_id md = 2 ∧ state md ≠ BLOCK_STATE_CLEAN
     ∧ 2 ∈ bitmap_of (state md) e)
  ∧ (∀ s, 2 ∈ bitmap_of s e →
       is_Some (bitmap_engine_get_block_metadata e 2)).
Proof.
  apply (metadata_and_bitmaps_agree (run stats_scenario bitmap_engine_init) 2).
  apply reachable_run, reachable_init.
Defined.


(** ** Postings *)

Lemma run_snoc rs r e : run (rs ++ [r]) e = (serve r (run rs e)).2.
Proof. unfold run. by rewrite fold_left_app. Qed.

(** X4.  No request ever takes a posting out of an index: an id posted
    under a key of the time index or of the WAL index is still posted
    there after any sequence of requests, [clear_block] included. *)
Theorem postings_are_never_removed rs e key id :
  (posted (time_index e) key id → posted (time_index (run rs e)) key id)
  ∧ (posted (wal_index e) key id → posted (wal_index (run rs e)) key id).
Proof.
  induction rs as [|r rs IH] using rev_ind; [done|].
  rewrite run_snoc.
  destruct (serve_keeps_postings r (run rs e) key id) as [Ht Hw].
  destruct IH as [IHt IHw]. split; auto.
Qed.

(** X5.  In a reachable state the id of every block with metadata is
    posted under the timestamp of its record in the time index and under
    the WAL offset of its record, taken as [int64_t], in the WAL index. *)
Theorem metadata_is_indexed e id md :
  reachable e →
  bitmap_engine_get_block_metadata e id = Some md →
  posted (time_index e) (timestamp md) id
  ∧ posted (wal_index e) (to_int64 (wal_offset md)) id.
Proof.
  intros Hr Hmd. destruct (reachable_store_inv e Hr) as [_ _ _ Hpost].
  unfold bitmap_engine_get_block_metadata in Hmd.
  destruct (find_block_metadata e id) as [node|] eqn:F; [|done].
  injection Hmd as <-. by apply Hpost.
Qed.

Lemma metadata_is_indexed_witness :
  let e := run stats_scenario bitmap_engine_init in
  posted (time_index e) 50 2 ∧ posted (wal_index e) (to_int64 500) 2.
Proof.
  apply (metadata_is_indexed (run stats_scenario bitmap_engine_init) 2
           {| block_id := 2; wal_offset := 500; timestamp := 50;
              state := BLOCK_STATE_DELETED |}).
  - apply reachable_run, reachable_init.
  - vm_compute. reflexivity.
Defined.

(** ** DELETED is final *)

Lemma serve_keeps_deleted r e id :
  current_state_of e id = BLOCK_STATE_DELETED →
  current_state_of (serve r e).2 id = BLOCK_STATE_DELETED.
Proof.
  intros Hd.
  destruct (decide ((serve r e).1 = SUCCESS)) as [Hs|Hf];
    [|by rewrite serve_failure].
  destruct (serve r e) as [st e'] eqn:E. simpl in *. subst st.
  assert (∀ to a id' wal ts,
            to ≠ BLOCK_STATE_CLEAN →
            mark_request to a e id' wal ts = (SUCCESS, e') →
            current_state_of e' id = BLOCK_STATE_DELETED) as Hm.
  { intros to a id' wal ts Hto H.
    destruct (mark_request_effect _ _ _ _ _ _ _ Hto H) as (Ha & _ & _ & Hs).
    rewrite Hs. case_decide; [subst id'|done].
    rewrite Hd in Ha. by destruct to. }
  destruct r as [a id' wal ts|a id' wal ts|a id' wal ts|id']; simpl in E.
  - by apply (Hm BLOCK_STATE_DIRTY a id' wal ts).
  - by apply (Hm BLOCK_STATE_NEW a id' wal ts).
  - by apply (Hm BLOCK_STATE_DELETED a id' wal ts).
  - destruct (clear_block_effect _ _ _ E) as (Ha & _ & _ & Hs).
    destruct (decide (id = id')) as [->|Hne].
    + by rewrite Hd in Ha.
    + by rewrite Hs.
Qed.

(** X6.  DELETED is final: once the state query reports a block as
    DELETED it reports so after any sequence of requests, and every mark
    or clear of that block is turned down with
    [ERR_INVALID_STATE_TRANS] and changes nothing. *)
Theorem deleted_is_final rs e id :
  bitmap_engine_get_block_state e id = (SUCCESS, Some BLOCK_STATE_DELETED) →
  bitmap_engine_get_block_state (run rs e) id
  = (SUCCESS, Some BLOCK_STATE_DELETED)
  ∧ ∀ to alloc_ok wal ts,
      mark_request to alloc_ok (run rs e) id wal ts
      = (ERR_INVALID_STATE_TRANS, run rs e).
Proof.
  assert (∀ e0, bitmap_engine_get_block_state e0 id
                = (SUCCESS, Some BLOCK_STATE_DELETED)
                ↔ current_state_of e0 id = BLOCK_STATE_DELETED) as Hiff.
  { intros e0. unfold bitmap_engine_get_block_state.
    rewrite current_state_of_find.
    destruct (find_block_metadata e0 id) as [node|]; [|done].
    split; [by intros [= ->]|by intros ->]. }
  rewrite !Hiff. intros Hd.
  assert (current_state_of (run rs e) id = BLOCK_STATE_DELETED) as Hrun.
  { induction rs as [|r rs IH] using rev_ind; [done|].
    rewrite run_snoc. by apply serve_keeps_deleted. }
  split; [exact Hrun|].
  intros to alloc_ok wal ts.
  rewrite (mark_request_refused alloc_ok _ id wal ts to)
    by (rewrite Hrun; by destruct to).
  unfold refusal. rewrite current_state_of_find in Hrun.
  destruct to, (find_block_metadata (run rs e) id); done.
Qed.

Lemma deleted_is_final_witness :
  let e := run stats_scenario bitmap_engine_init in
  let rs := [ clear_block 2; mark_dirty true 2 900 90;
              mark_new true 5 901 91 ] in
  bitmap_engine_get_block_state (run rs e) 2
  = (SUCCESS, Some BLOCK_STATE_DELETED)
  ∧ ∀ to alloc_ok wal ts,
      mark_request to alloc_ok (run rs e) 2 wal ts
      = (ERR_INVALID_STATE_TRANS, run rs e).
Proof.
  apply (deleted_is_final
           [ clear_block 2; mark_dirty true 2 900 90; mark_new true 5 901 91 ]
           (run stats_scenario bitmap_engine_init) 2).
  vm_compute. reflexivity.
Defined.


(** ** What the range queries return *)

Lemma to_uint64_array_ascending (b : gset Z) :
  Sorted Z.lt (roaring64_bitmap_to_uint64_array b).
Proof.
  assert (NoDup (roaring64_bitmap_to_uint64_array b)) as Hnd.
  { unfold roaring64_bitmap_to_uint64_array.
    rewrite merge_sort_Permutation. apply NoDup_elements. }
  pose proof (to_uint64_array_sorted b) as Hs.
  apply Sorted_StronglySorted in Hs; [|intros x y z; apply Z.le_trans].
  apply StronglySorted_Sorted.
  induction Hs as [|x l Hl IH Hall]; [constructor|].
  apply NoDup_cons in Hnd as [Hx Hnd].
  constructor; [by apply IH|].
  apply Forall_forall. intros y Hy.
  rewrite Forall_forall in Hall. specialize (Hall y Hy).
  assert (x ≠ y) by (intros ->; done). lia.
Qed.

Lemma to_array_stored (b : gset Z) max_count id :
  id ∈ (tdengine_roaring_to_array b max_count).1 → id ∈ b.
Proof.
  unfold tdengine_roaring_to_array. simpl.
  destruct (0 <? _); [by rewrite to_uint64_array_elem|].
  by intros ?%elem_of_nil.
Qed.

Lemma to_array_shape (b : gset Z) max_count :
  0 < max_count < 2 ^ 32 →
  let out := tdengine_roaring_to_array b max_count in
  (∀ id, id ∈ out.1 ↔ id ∈ b)
  ∧ Sorted Z.lt out.1
  ∧ length out.1 = size b
  ∧ out.2 = Z.min (Z.of_nat (size b)) max_count.
Proof.
  intros Hmax out. subst out. rewrite to_array_spec by done.
  cbn [fst snd].
  destruct (0 <? Z.of_nat (size b)) eqn:E.
  - split_and!; [apply to_uint64_array_elem|apply to_uint64_array_ascending
                |apply to_uint64_array_length|done].
  - apply Z.ltb_ge in E. assert (size b = 0%nat) as Hz by lia.
    apply size_empty_iff in Hz.
    split_and!; [|constructor|simpl; lia|done].
    intros id. split; [by intros ?%elem_of_nil|]. intros Hin. by apply Hz in Hin.
Qed.

Lemma posted_lookup index k id :
  posted index k id ↔ ∃ bm, index !! k = Some bm ∧ id ∈ bm.
Proof. done. Qed.

Lemma query_shape e index k_lo k_hi max_count :
  0 < max_count < 2 ^ 32 →
  let out :=
    tdengine_roaring_to_array
      (skiplist_range_query index k_lo k_hi false (range_cb e)
         tdengine_roaring_create) max_count in
  (∀ id, id ∈ out.1
         ↔ id ∈ dirty_blocks e ∧ ∃ k, k_lo ≤ k ≤ k_hi ∧ posted index k id)
  ∧ Sorted Z.lt out.1
  ∧ out.2 = Z.min (Z.of_nat (length out.1)) max_count.
Proof.
  intros Hmax out.
  destruct (to_array_shape
              (skiplist_range_query index k_lo k_hi false (range_cb e)
                 tdengine_roaring_create) max_count Hmax)
    as (Hel & Hs & Hlen & Hc).
  fold out in Hel, Hs, Hlen, Hc.
  split_and!; [|done|by rewrite Hlen].
  intros id. rewrite Hel, range_query_elem. unfold posted.
  split; intros [Hd H]; (split; [done|]).
  - destruct H as (k & bm & ? & ? & ?). eauto.
  - destruct H as (k & ? & bm & ? & ?). eauto.
Qed.

(** X7.  For [0 < max_count < 2^32] the ids a range query stores are
    exactly the ids of the dirty bitmap that are posted under a key of
    the range (WAL offsets are compared as [int64_t]); they are stored in
    strictly ascending order, and the returned count is the smaller of
    their number and [max_count]. *)
Theorem range_queries_return_posted_dirty_ids e k_lo k_hi max_count :
  0 < max_count < 2 ^ 32 →
  let by_time := bitmap_engine_get_dirty_blocks_by_time e k_lo k_hi max_count in
  let by_wal := bitmap_engine_get_dirty_blocks_by_wal e k_lo k_hi max_count in
  ((∀ id, id ∈ by_time.1
          ↔ id ∈ dirty_blocks e
            ∧ ∃ k, k_lo ≤ k ≤ k_hi ∧ posted (time_index e) k id)
   ∧ Sorted Z.lt by_time.1
   ∧ by_time.2 = Z.min (Z.of_nat (length by_time.1)) max_count)
  ∧ ((∀ id, id ∈ by_wal.1
            ↔ id ∈ dirty_blocks e
              ∧ ∃ k, to_int64 k_lo ≤ k ≤ to_int64 k_hi
                     ∧ posted (wal_index e) k id)
     ∧ Sorted Z.lt by_wal.1
     ∧ by_wal.2 = Z.min (Z.of_nat (length by_wal.1)) max_count).
Proof.
  intros Hmax by_time by_wal. subst by_time by_wal.
  unfold bitmap_engine_get_dirty_blocks_by_time,
    bitmap_engine_get_dirty_blocks_by_wal.
  replace (max_count =? 0) with false by (symmetry; apply Z.eqb_neq; lia).
  split; by apply query_shape.
Qed.

Lemma range_queries_return_posted_dirty_ids_witness :
  let e := run two_dirty bitmap_engine_init in
  (bitmap_engine_get_dirty_blocks_by_time e 0 1500 1).2
  = Z.min (Z.of_nat
             (length (bitmap_engine_get_dirty_blocks_by_time e 0 1500 1).1)) 1.
Proof.
  assert (0 < 1 < 2 ^ 32) as Hmax by lia.
  exact (proj2 (proj2 (proj1
    (range_queries_return_posted_dirty_ids
       (run two_dirty bitmap_engine_init) 0 1500 1 Hmax)))).
Defined.

Lemma to_int64_small z : 0 ≤ z < 2 ^ 63 → to_int64 z = z.
Proof.
  intros Hz. unfold to_int64, wrap64. rewrite Z.mod_small by lia.
  by replace (z <? 2 ^ 63) with true by (symmetry; apply Z.ltb_lt; lia).
Qed.

Lemma to_int64_large z : 2 ^ 63 ≤ z < 2 ^ 64 → to_int64 z = z - 2 ^ 64.
Proof.
  intros Hz. unfold to_int64, wrap64. rewrite Z.mod_small by lia.
  by replace (z <? 2 ^ 63) with false by (symmetry; apply Z.ltb_ge; lia).
Qed.

(** X8.  A DIRTY block is found: in a reachable state, a block whose
    record says DIRTY is among the ids stored by every time query whose
    range covers the timestamp of the record, and by every WAL query
    whose range covers the WAL offset of the record once the offset and
    the two bounds are read as [int64_t], as the engine reads them.  A
    range of [uint64_t] offsets that ends below [2^63] and covers the
    offset is such a range.  A range that starts below [2^63] and ends at
    [2^63] or above is not: read as [int64_t] it is empty, and the query
    stores no id at all. *)
Theorem dirty_block_is_found e id md max_count :
  reachable e →
  bitmap_engine_get_block_metadata e id = Some md →
  state md = BLOCK_STATE_DIRTY →
  0 < max_count < 2 ^ 32 →
  (∀ start_time end_time,
     start_time ≤ timestamp md ≤ end_time →
     id ∈ (bitmap_engine_get_dirty_blocks_by_time
             e start_time end_time max_count).1)
  ∧ (∀ start_offset end_offset,
       to_int64 start_offset ≤ to_int64 (wal_offset md)
         ≤ to_int64 end_offset →
       id ∈ (bitmap_engine_get_dirty_blocks_by_wal
               e start_offset end_offset max_count).1)
  ∧ (∀ start_offset end_offset,
       0 ≤ start_offset →
       start_offset ≤ wal_offset md ≤ end_offset →
       end_offset < 2 ^ 63 →
       id ∈ (bitmap_engine_get_dirty_blocks_by_wal
               e start_offset end_offset max_count).1)
  ∧ (∀ start_offset end_offset,
       0 ≤ start_offset < 2 ^ 63 →
       2 ^ 63 ≤ end_offset < 2 ^ 64 →
       bitmap_engine_get_dirty_blocks_by_wal
         e start_offset end_offset max_count = ([], 0)).
Proof.
  intros Hr Hmd Hst Hmax.
  destruct (reachable_store_inv e Hr) as [_ _ Hmem Hpost].
  unfold bitmap_engine_get_block_metadata in Hmd.
  destruct (find_block_metadata e id) as [node|] eqn:F; [|done].
  injection Hmd as <-.
  assert (id ∈ dirty_blocks e) as Hd.
  { specialize (Hmem id). rewrite current_state_of_find, F, Hst in Hmem.
    by apply Hmem. }
  destruct (Hpost id node F) as [Ht Hw].
  assert (∀ lo hi,
            to_int64 lo ≤ to_int64 (wal_offset (metadata node)) ≤ to_int64 hi →
            id ∈ (bitmap_engine_get_dirty_blocks_by_wal e lo hi max_count).1)
    as Hwal.
  { intros lo hi Hrange. unfold bitmap_engine_get_dirty_blocks_by_wal.
    replace (max_count =? 0) with false by (symmetry; apply Z.eqb_neq; lia).
    apply (query_shape e (wal_index e) (to_int64 lo) (to_int64 hi)
             max_count Hmax). eauto. }
  split_and!.
  - intros lo hi Hrange. unfold bitmap_engine_get_dirty_blocks_by_time.
    replace (max_count =? 0) with false by (symmetry; apply Z.eqb_neq; lia).
    apply (query_shape e (time_index e) lo hi max_count Hmax). eauto.
  - exact Hwal.
  - intros lo hi Hlo Hrange Hhi. apply Hwal.
    rewrite !to_int64_small by lia. done.
  - intros lo hi Hlo Hhi. unfold bitmap_engine_get_dirty_blocks_by_wal.
    replace (max_count =? 0) with false by (symmetry; apply Z.eqb_neq; lia).
    destruct (query_shape e (wal_index e) (to_int64 lo) (to_int64 hi)
                max_count Hmax) as (Hel & _ & Hcount).
    destruct (tdengine_roaring_to_array _ _) as [ids count].
    cbn [fst snd] in *.
    assert (ids = []) as ->.
    { destruct ids as [|id' ids]; [done|]. exfalso.
      destruct (proj1 (Hel id')) as (_ & k & Hk & _); [by left|].
      rewrite to_int64_small, to_int64_large in Hk by lia. lia. }
    f_equal. cbn in Hcount. lia.
Qed.

Lemma dirty_block_is_found_witness :
  let e := run two_dirty bitmap_engine_init in
  1002 ∈ (bitmap_engine_get_dirty_blocks_by_time e 6 6 10).1
  ∧ 1002 ∈ (bitmap_engine_get_dirty_blocks_by_wal e 1500 2000 10).1
  ∧ bitmap_engine_get_dirty_blocks_by_wal e 0 (2 ^ 64 - 1) 10 = ([], 0).
Proof.
  assert (0 < 10 < 2 ^ 32) as Hmax by lia.
  assert (bitmap_engine_get_block_metadata
            (run two_dirty bitmap_engine_init) 1002
          = Some {| block_id := 1002; wal_offset := 2000; timestamp := 6;
                    state := BLOCK_STATE_DIRTY |}) as Hmd
    by (vm_compute; reflexivity).
  destruct (dirty_block_is_found (run two_dirty bitmap_engine_init) 1002 _ 10
              (reachable_run two_dirty _ reachable_init) Hmd eq_refl Hmax)
    as (Ht & _ & Hw & Hnone).
  split_and!.
  - apply (Ht 6 6). simpl. lia.
  - apply (Hw 1500 2000); simpl; lia.
  - apply (Hnone 0 (2 ^ 64 - 1)); lia.
Defined.

(** X9.  A cleared block is returned by no query, whatever the range and
    [max_count], although its postings stay in both indices: the queries
    store ids of the dirty bitmap only. *)
Theorem cleared_block_is_not_returned e id e' k_lo k_hi max_count :
  bitmap_engine_clear_block e id = (SUCCESS, e') →
  (id ∉ (bitmap_engine_get_dirty_blocks_by_time e' k_lo k_hi max_count).1)
  ∧ (id ∉ (bitmap_engine_get_dirty_blocks_by_wal e' k_lo k_hi max_count).1)
  ∧ ∀ key, (posted (time_index e) key id → posted (time_index e') key id)
           ∧ (posted (wal_index e) key id → posted (wal_index e') key id).
Proof.
  intros Hc.
  pose proof (clear_block_empties_bitmaps e id e' BLOCK_STATE_DIRTY Hc) as Hn.
  simpl in Hn.
  assert (∀ index lo hi,
            id ∉ (tdengine_roaring_to_array
                    (skiplist_range_query index lo hi false (range_cb e')
                       tdengine_roaring_create) max_count).1) as Hq.
  { intros index lo hi Hin. apply to_array_stored in Hin.
    apply range_query_elem in Hin as [Hd _]. done. }
  unfold bitmap_engine_get_dirty_blocks_by_time,
    bitmap_engine_get_dirty_blocks_by_wal.
  split_and!.
  - destruct (max_count =? 0); [by intros ?%elem_of_nil|apply Hq].
  - destruct (max_count =? 0); [by intros ?%elem_of_nil|apply Hq].
  - intros key.
    pose proof (serve_keeps_postings (clear_block id) e key id) as H.
    simpl in H. by rewrite Hc in H.
Qed.

Lemma cleared_block_is_not_returned_witness :
  let e := run two_dirty bitmap_engine_init in
  let e' := (bitmap_engine_clear_block e 1001).2 in
  (1001 ∉ (bitmap_engine_get_dirty_blocks_by_time e' 0 100 10).1)
  ∧ posted (time_index e') 5 1001.
Proof.
  pose (e := run two_dirty bitmap_engine_init).
  pose (e' := (bitmap_engine_clear_block e 1001).2).
  assert (bitmap_engine_clear_block e 1001 = (SUCCESS, e')) as Hc
    by (vm_compute; reflexivity).
  destruct (cleared_block_is_not_returned e 1001 e' 0 100 10 Hc)
    as (Ht & _ & Hp).
  split; [exact Ht|]. apply (Hp 5).
  exists {[ 1001 ]}. split; [vm_compute; reflexivity|by apply elem_of_singleton].
Defined.

(** ** The number of blocks *)

Lemma insert_count alloc_ok e md e1 :
  insert_block_metadata alloc_ok e md = Some e1 →
  metadata_count e1
  = match find_block_metadata e (block_id md) with
    | Some _ => metadata_count e
    | None => wrap64 (metadata_count e + 1)
    end.
Proof.
  unfold insert_block_metadata.
  destruct (find_block_metadata e (block_id md)); [|destruct alloc_ok];
    by intros [= <-].
Qed.

Lemma mark_request_counts to alloc_ok e id wal ts e' :
  to ≠ BLOCK_STATE_CLEAN →
  mark_request to alloc_ok e id wal ts = (SUCCESS, e') →
  metadata_count e'
  = match find_block_metadata e id with
    | Some _ => metadata_count e
    | None => wrap64 (metadata_count e + 1)
    end
  ∧ total_blocks e' = wrap64 (total_blocks e + 1).
Proof.
  intros Hto H. destruct to; [done| | |]; simpl in H.
  - unfold bitmap_engine_mark_dirty in H. mark_effect H.
    pose proof (insert_count _ _ _ _ I) as Hc. subst e1. done.
  - unfold bitmap_engine_mark_new in H. mark_effect H.
    pose proof (insert_count _ _ _ _ I) as Hc. subst e1. done.
  - unfold bitmap_engine_mark_deleted in H. mark_effect H.
    pose proof (insert_count _ _ _ _ I) as Hc. subst e1. done.
Qed.

Lemma clear_block_counts e id e' :
  bitmap_engine_clear_block e id = (SUCCESS, e') →
  is_Some (find_block_metadata e id)
  ∧ metadata_count e' = wrap64 (metadata_count e - 1)
  ∧ total_blocks e' = metadata_count e'.
Proof.
  unfold bitmap_engine_clear_block.
  destruct (find_block_metadata e id) as [node|] eqn:F; [|done].
  destruct (bitmap_engine_validate_state_transition _ _); try done.
  destruct (chain_remove_found _ _ _ F) as [chain' R].
  intros H. injection H as <-. split; [eauto|].
  unfold remove_block_metadata, bucket in *. simpl. rewrite R. done.
Qed.

Lemma known_blocks_have_metadata e id :
  reachable e →
  id ∈ known_blocks e ↔ is_Some (find_block_metadata e id).
Proof.
  intros Hr. destruct (reachable_store_inv e Hr) as [_ Hrec Hmem _].
  destruct (reachable_inv e Hr) as [Hheld _].
  unfold known_blocks. split.
  - intros Hin.
    assert (∃ s, id ∈ bitmap_of s e) as [s Hs].
    { apply elem_of_union in Hin as [Hin|?];
        [apply elem_of_union in Hin as [?|?]|].
      - by exists BLOCK_STATE_DIRTY.
      - by exists BLOCK_STATE_NEW.
      - by exists BLOCK_STATE_DELETED. }
    specialize (Hheld s id Hs). rewrite current_state_of_find in Hheld.
    destruct (find_block_metadata e id); [eauto|by destruct s].
  - intros [node F]. destruct (Hrec id node F) as [_ Hst].
    specialize (Hmem id). rewrite current_state_of_find, F in Hmem.
    specialize (Hmem Hst).
    destruct (state (metadata node)); [done|simpl in Hmem; set_solver..].
Qed.

Lemma wrap64_succ z : wrap64 (wrap64 z + 1) = wrap64 (z + 1).
Proof. unfold wrap64. by rewrite Zplus_mod_idemp_l. Qed.

Lemma wrap64_pred z : wrap64 (wrap64 z - 1) = wrap64 (z - 1).
Proof. unfold wrap64. by rewrite Zminus_mod_idemp_l. Qed.

Lemma metadata_count_serve r e :
  reachable e →
  metadata_count e = wrap64 (Z.of_nat (size (known_blocks e))) →
  metadata_count (serve r e).2
  = wrap64 (Z.of_nat (size (known_blocks (serve r e).2))).
Proof.
  intros Hr Hcount.
  destruct (decide ((serve r e).1 = SUCCESS)) as [Hs|Hf];
    [|by rewrite serve_failure].
  destruct (serve r e) as [st e'] eqn:E. simpl in *. subst st.
  assert (∀ to a id wal ts,
            to ≠ BLOCK_STATE_CLEAN →
            mark_request to a e id wal ts = (SUCCESS, e') →
            metadata_count e'
            = wrap64 (Z.of_nat (size (known_blocks e')))) as Hm.
  { intros to a id wal ts Hto H.
    destruct (mark_request_counts _ _ _ _ _ _ _ Hto H) as [Hc _].
    destruct (mark_request_effect _ _ _ _ _ _ _ Hto H) as (_ & Hb & _).
    pose proof (known_blocks_have_metadata e id Hr) as Hk.
    assert (known_blocks e' = {[ id ]} ∪ known_blocks e) as ->.
    { unfold known_blocks.
      pose proof (Hb BLOCK_STATE_DIRTY) as Hd.
      pose proof (Hb BLOCK_STATE_NEW) as Hn.
      pose proof (Hb BLOCK_STATE_DELETED) as Hx.
      simpl in Hd, Hn, Hx. rewrite Hd, Hn, Hx.
      destruct to; [done| | |];
        repeat case_decide; try done; set_solver. }
    rewrite Hc. destruct (find_block_metadata e id) as [node|].
    - assert (id ∈ known_blocks e) by (apply Hk; eauto).
      rewrite Hcount. f_equal. f_equal. f_equal. set_solver.
    - assert (id ∉ known_blocks e) as Hnot.
      { intros Hin. apply Hk in Hin as [? ?]. done. }
      rewrite size_union, size_singleton by set_solver.
      rewrite Hcount, wrap64_succ. f_equal. lia. }
  destruct r as [a id wal ts|a id wal ts|a id wal ts|id]; simpl in E.
  - by apply (Hm BLOCK_STATE_DIRTY a id wal ts).
  - by apply (Hm BLOCK_STATE_NEW a id wal ts).
  - by apply (Hm BLOCK_STATE_DELETED a id wal ts).
  - destruct (clear_block_counts _ _ _ E) as (Hfound & Hc & _).
    destruct (clear_block_effect _ _ _ E) as (_ & Hb & _).
    assert (id ∈ known_blocks e) as Hin
      by (by apply known_blocks_have_metadata).
    assert (known_blocks e' = known_blocks e ∖ {[ id ]}) as ->.
    { unfold known_blocks.
      pose proof (Hb BLOCK_STATE_DIRTY) as Hd.
      pose proof (Hb BLOCK_STATE_NEW) as Hn.
      pose proof (Hb BLOCK_STATE_DELETED) as Hx.
      simpl in Hd, Hn, Hx. rewrite Hd, Hn, Hx. set_solver. }
    rewrite size_difference, size_singleton by set_solver.
    assert (size (known_blocks e) ≠ 0%nat) as Hpos.
    { apply size_non_empty_iff. intros Hempty%leibniz_equiv.
      rewrite Hempty in Hin. set_solver. }
    rewrite Hc, Hcount, wrap64_pred. f_equal. lia.
Qed.

(** X10.  In every state reached from the initial engine by requests,
    [metadata_count] is the number of blocks some bitmap holds, as a
    [uint64_t], and these are the blocks with metadata; a successful
    [clear_block] leaves that number in [total_blocks], where the
    statistics read it. *)
Theorem metadata_count_counts_the_known_blocks e :
  reachable e →
  metadata_count e = wrap64 (Z.of_nat (size (known_blocks e)))
  ∧ (∀ id, id ∈ known_blocks e
           ↔ is_Some (bitmap_engine_get_block_metadata e id))
  ∧ (∀ id e', bitmap_engine_clear_block e id = (SUCCESS, e') →
       stat_total_blocks (bitmap_engine_get_stats e')
       = wrap64 (Z.of_nat (size (known_blocks e)) - 1)).
Proof.
  intros Hr.
  assert (metadata_count e = wrap64 (Z.of_nat (size (known_blocks e))))
    as Hcount.
  { induction Hr as [|e r Hr IH]; [done|]. by apply metadata_count_serve. }
  split_and!; [done| |].
  - intros id. rewrite (known_blocks_have_metadata e id Hr).
    unfold bitmap_engine_get_block_metadata.
    destruct (find_block_metadata e id); split; intros [? ?]; eauto; done.
  - intros id e' Hc. destruct (clear_block_counts _ _ _ Hc) as (_ & Hm & Ht).
    simpl. by rewrite Ht, Hm, Hcount, wrap64_pred.
Qed.

Lemma metadata_count_counts_the_known_blocks_witness :
  let e := run stats_scenario bitmap_engine_init in
  metadata_count e = wrap64 (Z.of_nat (size (known_blocks e)))
  ∧ metadata_count e = 1.
Proof.
  intros e.
  assert (reachable e) as Hr by apply reachable_run, reachable_init.
  destruct (metadata_count_counts_the_known_blocks e Hr) as [Hcount _].
  split; [exact Hcount|]. vm_compute. reflexivity.
Defined.

End EngineMore.

(** * Further properties of the event interceptor *)

Module InterceptorMore.
Import Engine RingBuffer Interceptor InterceptorCalls Scenarios.

Lemma wrap64_range z : 0 ≤ wrap64 z < 2 ^ 64.
Proof. unfold wrap64. apply Z.mod_pos_bound. lia. Qed.

Lemma wrap64_small z : 0 ≤ z < 2 ^ 64 → wrap64 z = z.
Proof. unfold wrap64. apply Z.mod_small. Qed.

Lemma wrap64_add_l a b : wrap64 (wrap64 a + b) = wrap64 (a + b).
Proof. unfold wrap64. by rewrite Zplus_mod_idemp_l. Qed.

(** ** A producer *)

Lemma submit_accepted event i :
  enable_interception (config i) = true →
  (0 < free_slots i)%nat →
  submit true event i
  = (NOTIFIED,
     with_buffer i
       {| items := items (event_buffer i) ++ [event];
          capacity := capacity (event_buffer i) |}
       (events_processed i) (events_dropped i)).
Proof.
  intros Hen Hfree. unfold submit, on_block_event, ring_buffer_enqueue.
  rewrite Hen. simpl.
  replace (_ <? _) with true
    by (symmetry; apply Z.ltb_lt; unfold free_slots in Hfree; lia).
  simpl. by destruct event.
Qed.

Lemma submit_dropped event i :
  enable_interception (config i) = true →
  free_slots i = 0%nat →
  submit true event i
  = (BUFFER_FULL,
     with_buffer i (event_buffer i) (events_processed i)
       (wrap64 (events_dropped i + 1))).
Proof.
  intros Hen Hfree. unfold submit, on_block_event, ring_buffer_enqueue.
  rewrite Hen. simpl.
  replace (_ <? _) with false
    by (symmetry; apply Z.ltb_ge; unfold free_slots in Hfree; lia).
  done.
Qed.

Lemma submit_no_memory event i :
  enable_interception (config i) = true →
  submit false event i = (NO_MEMORY, i).
Proof.
  intros Hen. unfold submit, on_block_event. by rewrite Hen.
Qed.

Lemma allocated_cons alloc_ok event events :
  allocated ((alloc_ok, event) :: events)
  = if alloc_ok then event :: allocated events else allocated events.
Proof.
  unfold allocated. destruct alloc_ok.
  - by rewrite filter_cons_True by done.
  - by rewrite filter_cons_False by done.
Qed.

(** X11.  A producer that sends a list of events to an interceptor with
    interception enabled, with no worker running in between.  A
    notification whose [malloc] fails is answered with -1 and changes
    nothing: its event is neither queued nor counted.  Of the events that
    were allocated, those that fit into the free room of the buffer are
    queued behind the ones already there, in the order sent, and
    answered with 0; every later one is answered with what the full
    buffer returned, is not queued, and is counted in
    [events_dropped]. *)
Theorem full_buffer_drops_the_newest events i :
  enable_interception (config i) = true →
  0 ≤ events_dropped i < 2 ^ 64 →
  let out := submit_all events i in
  let queued := take (free_slots i) (allocated events) in
  let dropped := drop (free_slots i) (allocated events) in
  has_memory <$> out.1 = fst <$> events
  ∧ filter (λ result, has_memory result = true) out.1
    = replicate (length queued) NOTIFIED
      ++ replicate (length dropped) BUFFER_FULL
  ∧ items (event_buffer out.2) = items (event_buffer i) ++ queued
  ∧ events_dropped out.2
    = wrap64 (events_dropped i + Z.of_nat (length dropped))
  ∧ events_processed out.2 = events_processed i.
Proof.
  revert i.
  induction events as [|[alloc_ok event] events IH]; intros i Hen Hd;
    cbv zeta.
  - cbn [submit_all]. change (allocated []) with (@nil SBlockEvent).
    rewrite take_nil, drop_nil. simpl.
    rewrite app_nil_r, Z.add_0_r, wrap64_small by done. done.
  - cbn [submit_all]. rewrite allocated_cons. destruct alloc_ok.
    + destruct (free_slots i) as [|k] eqn:Hfree.
      * rewrite (submit_dropped event i Hen Hfree).
        set (i1 := with_buffer i _ _ _).
        assert (free_slots i1 = 0%nat) as Hfree1 by done.
        specialize (IH i1 Hen (wrap64_range _)).
        cbv zeta in IH. rewrite Hfree1 in IH. rewrite !drop_0 in *.
        rewrite take_0 in *.
        destruct (submit_all events i1) as [results i2].
        cbn [fst snd] in *. destruct IH as (Ha & Hf & Hi & Hdr & Hp).
        rewrite fmap_cons, Ha, filter_cons_True, Hf by done.
        split_and!; try done.
        rewrite Hdr. subst i1. cbn [events_dropped with_buffer length].
        rewrite wrap64_add_l. f_equal. lia.
      * assert (0 < free_slots i)%nat as Hpos by lia.
        rewrite (submit_accepted event i Hen Hpos).
        set (i1 := with_buffer i _ _ _).
        assert (free_slots i1 = k) as Hfree1.
        { unfold free_slots in *. subst i1. simpl.
          rewrite length_app. simpl. lia. }
        specialize (IH i1 Hen Hd). cbv zeta in IH. rewrite Hfree1 in IH.
        destruct (submit_all events i1) as [results i2].
        cbn [fst snd] in *. destruct IH as (Ha & Hf & Hi & Hdr & Hp).
        rewrite fmap_cons, Ha, filter_cons_True, Hf by done.
        split_and!; try done.
        rewrite Hi. subst i1. simpl. by rewrite <- app_assoc.
    + rewrite (submit_no_memory event i Hen).
      specialize (IH i Hen Hd). cbv zeta in IH.
      destruct (submit_all events i) as [results i2].
      cbn [fst snd] in *. destruct IH as (Ha & Hf & Hi & Hdr & Hp).
      rewrite fmap_cons, Ha, filter_cons_False by done.
      done.
Qed.

Lemma full_buffer_drops_the_newest_witness :
  let cfg := {| enable_interception := true; event_buffer_size := 2;
                callback_threads := 1; callback := None |} in
  let ev := λ id, {| event_type := EVENT_BLOCK_UPDATE; event_block_id := id;
                     event_wal_offset := 100 * id; event_timestamp := id |} in
  let out :=
    submit_all [(true, ev 1); (false, ev 2); (true, ev 3); (true, ev 4)]
      (event_interceptor_init cfg) in
  has_memory <$> out.1 = [true; false; true; true]
  ∧ filter (λ result, has_memory result = true) out.1
    = [NOTIFIED; NOTIFIED; BUFFER_FULL]
  ∧ items (event_buffer out.2) = [ev 1; ev 3]
  ∧ events_dropped out.2 = 1
  ∧ events_processed out.2 = 0.
Proof.
  intros cfg ev.
  apply (full_buffer_drops_the_newest
           [(true, ev 1); (false, ev 2); (true, ev 3); (true, ev 4)]
           (event_interceptor_init cfg)).
  - reflexivity.
  - simpl. lia.
Defined.

(** ** The worker *)

(** X12.  A worker that finds the stop flag unset hands the queued
    events to the configured callback oldest first, one per turn of its
    loop, and counts each in [events_processed]; the events it had no
    turn for stay queued in their order, and nothing else in the
    interceptor changes. *)
Theorem worker_hands_over_oldest_first turns i e :
  stop_threads i = false →
  0 ≤ events_processed i < 2 ^ 64 →
  let w := callback_thread_func turns i e in
  let n := Nat.min turns (length (items (event_buffer i))) in
  w.2 = hand_over (callback (config i)) (take n (items (event_buffer i))) e
  ∧ items (event_buffer w.1) = drop n (items (event_buffer i))
  ∧ events_processed w.1 = wrap64 (events_processed i + Z.of_nat n)
  ∧ events_dropped w.1 = events_dropped i
  ∧ config w.1 = config i
  ∧ stop_threads w.1 = false
  ∧ thread_log w.1 = thread_log i.
Proof.
  revert i e. induction turns as [|turns IH]; intros i e Hstop Hp.
  - simpl. rewrite take_0, drop_0, Z.add_0_r, wrap64_small by done.
    split_and!; try done. by destruct (callback (config i)).
  - simpl callback_thread_func. rewrite Hstop.
    unfold callback_thread_turn, ring_buffer_dequeue_blocking.
    destruct (items (event_buffer i)) as [|event rest] eqn:Hitems.
    + set (i1 := with_buffer i _ _ _).
      specialize (IH i1 e Hstop Hp). simpl in IH.
      rewrite Hitems in IH. simpl in IH. rewrite Nat.min_0_r in IH.
      simpl. exact IH.
    + set (e1 := match callback (config i) with
                 | Some cb => cb event e | None => e end).
      set (i1 := with_buffer i _ _ _).
      specialize (IH i1 e1 Hstop (wrap64_range _)). simpl in IH.
      destruct IH as (H2 & Hi & Hpr & Hdr & Hc & Hs & Hl).
      simpl. split_and!; try done.
      * rewrite H2. subst e1. by destruct (callback (config i)).
      * rewrite Hpr, wrap64_add_l. f_equal. lia.
Qed.

Lemma worker_hands_over_oldest_first_witness :
  let mark := λ (event : SBlockEvent) (e : SBitmapEngine),
    (bitmap_engine_mark_dirty true e (event_block_id event)
       (event_wal_offset event) (event_timestamp event)).2 in
  let cfg := {| enable_interception := true; event_buffer_size := 8;
                callback_threads := 1; callback := Some mark |} in
  let ev := λ id, {| event_type := EVENT_BLOCK_UPDATE; event_block_id := id;
                     event_wal_offset := 100 * id; event_timestamp := id |} in
  let i :=
    (submit_all [(true, ev 1); (true, ev 2); (true, ev 3)]
       (event_interceptor_init cfg)).2 in
  let w := callback_thread_func 2 i bitmap_engine_init in
  w.2 = mark (ev 2) (mark (ev 1) bitmap_engine_init)
  ∧ items (event_buffer w.1) = [ev 3]
  ∧ events_processed w.1 = 2.
Proof.
  intros mark cfg ev i w.
  assert (stop_threads i = false) as Hstop by reflexivity.
  assert (0 ≤ events_processed i < 2 ^ 64) as Hp by (simpl; lia).
  destruct (worker_hands_over_oldest_first 2 i bitmap_engine_init Hstop Hp)
    as (He & Hi & Hpr & _).
  split; [exact He|]. split; [exact Hi|exact Hpr].
Defined.

(** ** Histories of calls *)

Lemma worker_keeps_threads turns i e :
  let w := callback_thread_func turns i e in
  config w.1 = config i ∧ stop_threads w.1 = stop_threads i
  ∧ thread_log w.1 = thread_log i ∧ thread_count w.1 = thread_count i
  ∧ capacity (event_buffer w.1) = capacity (event_buffer i).
Proof.
  revert i e. induction turns as [|turns IH]; intros i e; simpl; [done|].
  destruct (stop_threads i) eqn:Hstop; [done|].
  destruct (callback_thread_turn i e) as [i1 e1] eqn:T.
  assert (config i1 = config i ∧ stop_threads i1 = stop_threads i
          ∧ thread_log i1 = thread_log i ∧ thread_count i1 = thread_count i
          ∧ capacity (event_buffer i1) = capacity (event_buffer i))
    as (Hc & Hs & Hl & Ht & Hcap).
  { unfold callback_thread_turn, ring_buffer_dequeue_blocking in T.
    destruct (items (event_buffer i)); injection T as <- <-; done. }
  destruct (IH i1 e1) as (-> & -> & -> & -> & ->).
  by rewrite Hc, Hs, Hl, Ht, Hcap, Hstop.
Qed.

Lemma submit_keeps_threads alloc_ok event i :
  let i' := (submit alloc_ok event i).2 in
  config i' = config i ∧ stop_threads i' = stop_threads i
  ∧ thread_log i' = thread_log i ∧ thread_count i' = thread_count i
  ∧ capacity (event_buffer i') = capacity (event_buffer i).
Proof.
  unfold submit, on_block_event, ring_buffer_enqueue.
  destruct (negb (enable_interception (config i))); [done|].
  destruct alloc_ok; [|done]. simpl.
  destruct (_ <? _); done.
Qed.

Lemma perform_all_snoc cs c s :
  perform_all (cs ++ [c]) s = perform_all cs s ≫= perform c.
Proof. unfold perform_all. by rewrite fold_left_app. Qed.

Lemma count_last (P : call → bool) c :
  length (filter P [c]) = if P c then 1%nat else 0%nat.
Proof.
  rewrite filter_cons, filter_nil.
  destruct (P c);
    [by rewrite decide_True|by rewrite decide_False by (simpl; tauto)].
Qed.





(** A [start] that has created one of two threads and fails to create
    the other asks for the first to be joined, and does not return. *)
Example start_waits_for_its_worker :
  let out := event_interceptor_start (Some 1%nat) plugin_interceptor in
  out.1 = None
  ∧ thread_log out.2 = [ pthread_create 0; pthread_join 0 ]
  ∧ stop_threads out.2 = false.
Proof. done. Qed.

Lemma worker_keeps_account turns i e :
  let w := callback_thread_func turns i e in
  wrap64 (accounted w.1) = wrap64 (accounted i)
  ∧ (length (items (event_buffer w.1))
     ≤ length (items (event_buffer i)))%nat.
Proof.
  revert i e. induction turns as [|turns IH]; intros i e; simpl; [done|].
  destruct (stop_threads i) eqn:Hstop; [done|].
  unfold callback_thread_turn, ring_buffer_dequeue_blocking.
  destruct (items (event_buffer i)) as [|event rest] eqn:Hitems.
  - set (i1 := with_buffer i _ _ _).
    destruct (IH i1 e) as [Ha Hl]. simpl in Ha, Hl. rewrite Ha.
    split; [|subst i1; simpl in *; by rewrite Hitems in Hl].
    unfold accounted. subst i1. simpl. by rewrite Hitems.
  - set (e1 := match callback (config i) with
               | Some cb => cb event e | None => e end).
    set (i1 := with_buffer i _ _ _).
    destruct (IH i1 e1) as [Ha Hl]. simpl in Ha, Hl. rewrite Ha.
    split; [|subst i1; simpl in *; lia].
    unfold accounted. subst i1. cbn -[Z.of_nat]. rewrite Hitems.
    replace (wrap64 (events_processed i + 1) + events_dropped i
             + Z.of_nat (length rest))
      with (wrap64 (events_processed i + 1)
            + (events_dropped i + Z.of_nat (length rest))) by lia.
    rewrite wrap64_add_l. f_equal. cbn [length]. lia.
Qed.

Lemma submit_keeps_account event i :
  enable_interception (config i) = true →
  let i' := (submit true event i).2 in
  wrap64 (accounted i') = wrap64 (accounted i + 1)
  ∧ (Z.of_nat (length (items (event_buffer i)))
       ≤ capacity (event_buffer i) →
     Z.of_nat (length (items (event_buffer i')))
       ≤ capacity (event_buffer i)).
Proof.
  intros Hen. destruct (free_slots i) as [|k] eqn:Hfree.
  - rewrite (submit_dropped event i Hen Hfree). simpl.
    split; [|done]. unfold accounted. simpl.
    replace (events_processed i + wrap64 (events_dropped i + 1)
             + Z.of_nat (length (items (event_buffer i))))
      with (wrap64 (events_dropped i + 1)
            + (events_processed i
               + Z.of_nat (length (items (event_buffer i))))) by lia.
    rewrite wrap64_add_l. f_equal. lia.
  - rewrite (submit_accepted event i Hen) by lia. simpl.
    split.
    + unfold accounted. simpl. rewrite length_app. simpl. f_equal. lia.
    + intros _. rewrite length_app. simpl. unfold free_slots in Hfree. lia.
Qed.

(** X14.  No event is lost without a trace.  Over any history of calls
    on an interceptor with interception enabled, each call made after
    the one before it has returned: a notification whose [malloc] fails
    returns -1 and leaves the counters and the buffer as they are; the
    events processed, the events dropped and the events still queued add
    up (as [uint64_t] counters) to what they were plus the number of the
    other notifications; and the buffer never holds more events than its
    capacity. *)
Theorem every_event_is_accounted_for cs i e s :
  enable_interception (config i) = true →
  Z.of_nat (length (items (event_buffer i))) ≤ capacity (event_buffer i) →
  perform_all cs (i, e) = Some s →
  wrap64 (accounted s.1)
  = wrap64 (accounted i + Z.of_nat (length (filter is_on_block cs)))
  ∧ Z.of_nat (length (items (event_buffer s.1))) ≤ capacity (event_buffer i)
  ∧ ∀ event, (submit false event s.1) = (NO_MEMORY, s.1).
Proof.
  intros Hen Hcap.
  assert (∀ s, perform_all cs (i, e) = Some s →
          (wrap64 (accounted s.1)
           = wrap64 (accounted i + Z.of_nat (length (filter is_on_block cs)))
           ∧ Z.of_nat (length (items (event_buffer s.1)))
             ≤ capacity (event_buffer i))
          ∧ config s.1 = config i
          ∧ capacity (event_buffer s.1) = capacity (event_buffer i)) as H.
  { clear s. induction cs as [|c cs IH] using rev_ind.
    - intros s [= <-]. simpl. by rewrite Z.add_0_r.
    - intros s. rewrite perform_all_snoc.
      destruct (perform_all cs (i, e)) as [[i1 e1]|]; [|done].
      destruct (IH _ eq_refl) as ((Ha & Hl) & Hc & Hk). cbn [fst snd] in *.
      rewrite filter_app, length_app, count_last.
      cbn [mbind option_bind].
      destruct c as [create_fails| |alloc_ok event|turns];
        cbn [perform fst snd is_on_block].
      + destruct (event_interceptor_start create_fails i1)
          as [[code|] i2] eqn:Hstart; [|done].
        intros [= <-]. cbn [fst snd].
        rewrite Nat.add_0_r. unfold event_interceptor_start in Hstart.
        destruct (stop_threads i1); [by injection Hstart as _ <-|].
        destruct (_ <? _)%nat; [|by injection Hstart as _ <-].
        destruct (match create_fails with
                  | Some failed => take failed (thread_ids (thread_count i1))
                  | None => thread_ids (thread_count i1) end);
          [by injection Hstart as _ <-|done].
      + intros [= <-]. cbn [fst snd].
        rewrite Nat.add_0_r. unfold event_interceptor_stop.
        by destruct (negb (stop_threads i1)).
      + intros [= <-]. cbn [fst snd].
        assert (enable_interception (config i1) = true) as Hen1
          by (by rewrite Hc).
        destruct alloc_ok.
        * destruct (submit_keeps_account event i1 Hen1) as [Ha1 Hl1].
          destruct (submit_keeps_threads true event i1)
            as (Hc1 & _ & _ & _ & Hk1).
          cbv zeta in *. rewrite Hc1, Hk1, Ha1. split_and!; try done.
          -- rewrite <- wrap64_add_l, Ha, wrap64_add_l. f_equal. lia.
          -- rewrite <- Hk. apply Hl1. by rewrite Hk.
        * rewrite (submit_no_memory event i1 Hen1). cbn [fst snd].
          by rewrite Nat.add_0_r.
      + intros [= <-].
        rewrite Nat.add_0_r.
        destruct (worker_keeps_account turns i1 e1) as [Ha1 Hl1].
        destruct (worker_keeps_threads turns i1 e1)
          as (Hc1 & _ & _ & _ & Hk1).
        cbv zeta in *. rewrite Hc1, Hk1, Ha1. split_and!; try done. lia. }
  intros Hs. destruct (H s Hs) as ((Ha & Hl) & Hc & _).
  split_and!; try done.
  intros event. apply submit_no_memory. by rewrite Hc.
Qed.

Lemma every_event_is_accounted_for_witness :
  let cfg := {| enable_interception := true; event_buffer_size := 2;
                callback_threads := 1; callback := None |} in
  let ev := λ id, {| event_type := EVENT_BLOCK_CREATE; event_block_id := id;
                     event_wal_offset := 100 * id; event_timestamp := id |} in
  let cs := [ on_block true (ev 1); on_block true (ev 2);
              on_block false (ev 3); on_block true (ev 4); start None;
              worker 1; on_block true (ev 5) ] in
  ∃ s, perform_all cs (event_interceptor_init cfg, bitmap_engine_init)
       = Some s
       ∧ wrap64 (accounted s.1) = wrap64 (0 + 4)
       ∧ events_processed s.1 = 1
       ∧ events_dropped s.1 = 1
       ∧ length (items (event_buffer s.1)) = 2%nat.
Proof.
  intros cfg ev cs. eexists. split; [reflexivity|].
  split; [|by split_and!].
  assert (Z.of_nat (length (items (event_buffer (event_interceptor_init cfg))))
          ≤ capacity (event_buffer (event_interceptor_init cfg))) as Hcap
    by (simpl; lia).
  destruct (every_event_is_accounted_for cs (event_interceptor_init cfg)
              bitmap_engine_init _ eq_refl Hcap eq_refl) as [H _].
  exact H.
Defined.

End InterceptorMore.

(** * Properties of the registry of storage engine interfaces *)

Module RegistryFacts.
Import Stdlib.Strings.String.
Import Registry.
Local Open Scope Z_scope.





Lemma lookup_factory_none cells name' :
  lookup_factory cells name' = None ↔ name' ∉ name <$> cells.
Proof.
  induction cells as [|cell cells IH]; simpl.
  - split; [intros _ H; by apply elem_of_nil in H|done].
  - rewrite not_elem_of_cons.
    destruct (String.eqb_spec (name cell) name') as [E|E].
    + split; [done|]. intros [H _]. by destruct H.
    + rewrite IH. split; [done|]. by intros [_ ?].
Qed.

Lemma lookup_factory_some cells name' factory' :
  lookup_factory cells name' = Some factory' →
  ∃ cell, cell ∈ cells ∧ name cell = name' ∧ factory cell = factory'.
Proof.
  induction cells as [|cell cells IH]; simpl; [done|].
  destruct (String.eqb_spec (name cell) name') as [E|E].
  - intros [= <-]. exists cell. split; [left|done].
  - intros H. destruct (IH H) as (c & Hc & Hn & Hf).
    exists c. split; [by right|done].
Qed.





(** X16.  A name that is not registered resolves to the default
    interface, which does nothing: every function of it returns 0, its
    counters are 0, it reports itself as not supported and is called
    "default".  A registered name resolves to what the factory of its
    cell returns. *)
Theorem unknown_name_gets_the_default r name' :
  (name' ∉ names r →
   let interface := get_storage_engine_interface r name' in
   interface = g_default_interface
   ∧ is_supported interface = false
   ∧ get_engine_name interface = "default"%string
   ∧ (∀ config, init interface config = 0)
   ∧ (∀ event, trigger_event interface event = 0)
   ∧ install_interception interface = 0
   ∧ uninstall_interception interface = 0
   ∧ get_stats interface = (0, (0, 0)))
  ∧ (name' ∈ names r →
     ∃ cell, cell ∈ g_registry r ∧ name cell = name'
             ∧ get_storage_engine_interface r name' = factory cell tt).
Proof.
  unfold get_storage_engine_interface. split.
  - intros Hn. apply lookup_factory_none in Hn. rewrite Hn. done.
  - intros Hin.
    destruct (lookup_factory (g_registry r) name') as [factory'|] eqn:L.
    + destruct (lookup_factory_some _ _ _ L) as (cell & Hc & Hname & Hf).
      exists cell. by rewrite Hf.
    + apply lookup_factory_none in L. done.
Qed.





(** X19.  [list_storage_engine_interfaces] copies the oldest names, in
    the order of their first registration, as many as [max_count]
    allows.  When every [strdup] succeeds it returns 0, stores the copies
    and their number, and each name it stores resolves to the factory of
    a registered cell, not to the default for unknown names.  When a
    [strdup] fails it returns -1 and leaves no name: the copies made
    before are freed, with their pointers left in [names], and no count
    is written through [actual_count]. *)
Theorem listed_names_are_registered strdup_fails r max_count :
  0 ≤ max_count →
  let count := Z.min (g_registry_size r) max_count in
  let out := list_storage_engine_interfaces strdup_fails r max_count in
  match strdup_fails with
  | Some failed =>
      Z.of_nat failed < count →
      out = (-1, replicate failed freed ++ [null], None)
  | None => True
  end
  ∧ ((∀ failed, strdup_fails = Some failed → count ≤ Z.of_nat failed) →
     out.1.1 = 0
     ∧ out.2 = Some count
     ∧ out.1.2 = copy <$> take (Z.to_nat count) (names r)
     ∧ ∀ name', copy name' ∈ out.1.2 →
         ∃ cell, cell ∈ g_registry r ∧ name cell = name'
                 ∧ get_storage_engine_interface r name' = factory cell tt).
Proof.
  intros Hmax count out. subst out. unfold list_storage_engine_interfaces.
  assert ((if g_registry_size r <? max_count then g_registry_size r
           else max_count) = count) as ->.
  { subst count. destruct (Z.ltb_spec (g_registry_size r) max_count); lia. }
  assert (0 ≤ count ≤ g_registry_size r) as Hcount
    by (unfold g_registry_size in *; lia).
  set (cells := take (Z.to_nat count) (g_registry r)).
  assert (List.length cells = Z.to_nat count) as Hcells.
  { subst cells. rewrite length_take. unfold g_registry_size in *. lia. }
  assert (∀ copies, copies = cells →
          (if (List.length copies <? List.length cells)%nat
           then (-1, replicate (List.length copies) freed ++ [null], None)
           else (0, copy ∘ name <$> copies, Some count))
          = (0, copy <$> take (Z.to_nat count) (names r), Some count)
             :> Z * list listed * option Z) as Hall.
  { intros ? ->. rewrite Nat.ltb_irrefl. subst cells. unfold names.
    rewrite <- fmap_take. by rewrite list_fmap_compose. }
  split.
  - destruct strdup_fails as [failed|]; [|done]. intros Hlt.
    rewrite length_take, Hcells, Nat.min_l by lia.
    by replace (failed <? Z.to_nat count)%nat with true
      by (symmetry; apply Nat.ltb_lt; lia).
  - intros Hok.
    assert (match strdup_fails with
            | Some failed => take failed cells
            | None => cells
            end = cells) as Hcopies.
    { destruct strdup_fails as [failed|]; [|done].
      apply take_ge. specialize (Hok failed eq_refl). lia. }
    rewrite (Hall _ Hcopies). cbn [fst snd]. split_and!; try done.
    intros name' Hin. unfold get_storage_engine_interface.
    apply list_elem_of_fmap in Hin as (name'' & [= <-] & Hin).
    destruct (lookup_factory (g_registry r) name') as [factory'|] eqn:L.
    + destruct (lookup_factory_some _ _ _ L) as (cell & Hc & Hname & Hf).
      exists cell. by rewrite Hf.
    + apply lookup_factory_none in L. exfalso. apply L.
      apply elem_of_take in Hin as (i & Hi & _).
      by eapply list_elem_of_lookup_2.
Qed.

Lemma listed_names_are_registered_witness :
  let f := λ _ : unit, g_default_interface in
  let r := {| g_registry := [ {| name := "a"; factory := f |};
                              {| name := "b"; factory := f |};
                              {| name := "c"; factory := f |} ];
              g_registry_capacity := 4 |} in
  list_storage_engine_interfaces (Some 1%nat) r 2
  = (-1, [freed; null], None)
  ∧ list_storage_engine_interfaces (Some 2%nat) r 2
    = (0, [copy "a"; copy "b"]%string, Some 2).
Proof.
  intros f r.
  assert (0 ≤ 2) as Hmax by lia.
  destruct (listed_names_are_registered (Some 1%nat) r 2 Hmax) as [Hfail _].
  split; [apply Hfail; reflexivity|].
  reflexivity.
Defined.

End RegistryFacts.

(** * Further properties of the backup coordinator *)

Module CoordinatorMore.
Import Stdlib.Strings.String.
Import Roaring SkipList Engine Requests Coordinator CoordinatorCalls.
Import Scenarios EngineFacts CoordinatorFacts EngineInvariants EngineMore.
Local Open Scope Z_scope.

(** ** Retry *)

(** The loop, entered before attempt number [calls] with as many retries
    counted: it ends with the first attempt that succeeds, fails with an
    error that is not retryable, or is attempt number [max_retry]. *)
Lemma retry_loop_decides env fuel calls c :
  current_retry c = Z.of_nat calls →
  Z.of_nat calls ≤ max_retry c →
  max_retry c < 2 ^ 32 →
  (Z.to_nat (max_retry c) - calls < fuel)%nat →
  ∃ k c',
    retry_loop fuel env calls c = Some (operation env k, c', S k)
    ∧ (calls ≤ k)%nat
    ∧ Z.of_nat k ≤ max_retry c
    ∧ (∀ j, (calls ≤ j < k)%nat →
         is_retryable_error (operation env j) = true)
    ∧ (operation env k = BACKUP_SUCCESS
       ∨ is_retryable_error (operation env k) = false
       ∨ Z.of_nat k = max_retry c)
    ∧ current_retry c' = Z.of_nat k
    ∧ max_retry c' = max_retry c
    ∧ retry_state c'
      = (if operation env k =? BACKUP_SUCCESS then RETRY_STATE_SUCCESS
         else RETRY_STATE_FAILED)
    ∧ (operation env k ≠ BACKUP_SUCCESS → last_error c' = operation env k).
Proof.
  revert calls c. induction fuel as [|fuel IH]; intros calls c Hcur Hle Hmax
    Hfuel; [lia|].
  cbn [retry_loop].
  replace (current_retry c <=? max_retry c) with true
    by (symmetry; apply Z.leb_le; lia).
  destruct (Z.eqb_spec (operation env calls) BACKUP_SUCCESS) as [Hs|Hs].
  - exists calls. eexists. split; [by rewrite Hs|].
    split_and!; try done; [lia|by left|].
    by replace (operation env calls =? BACKUP_SUCCESS) with true
      by (symmetry; by apply Z.eqb_eq).
  - cbn [with_progress current_retry max_retry last_error retry_state
           last_retry_time retry_interval].
    destruct (is_retryable_error (operation env calls)) eqn:Hr;
      cbn [negb orb].
    + destruct (Z.leb_spec (max_retry c) (current_retry c)) as [Hlast|Hmore].
      * exists calls. eexists. split; [done|]. cbn.
        split_and!; try done; [lia|right; right; lia|].
        by replace (operation env calls =? BACKUP_SUCCESS) with false
          by (symmetry; by apply Z.eqb_neq).
      * set (c1 := backup_wait_for_retry _ _).
        assert (current_retry c1 = Z.of_nat (S calls)) as Hc1.
        { subst c1. cbn. unfold wrap32. rewrite Z.mod_small by lia. lia. }
        assert (max_retry c1 = max_retry c) as Hm1 by done.
        destruct (IH (S calls) c1) as (k & c' & Hloop & Hk & Hkm & Hbefore
                                       & Hdec & Hcur' & Hmax' & Hst & Herr);
          [done|rewrite Hm1; lia|by rewrite Hm1|rewrite Hm1; lia|].
        exists k, c'. rewrite Hm1 in *.
        split_and!; try done; [lia|].
        intros j Hj. destruct (decide (j = calls)) as [->|Hne]; [done|].
        apply Hbefore. lia.
    + exists calls. eexists. split; [done|]. cbn.
      split_and!; try done; [lia|by right; left|].
      by replace (operation env calls =? BACKUP_SUCCESS) with false
        by (symmetry; by apply Z.eqb_neq).
Qed.

(** X20.  With fuel for more than [max_retry] turns,
    [backup_execute_with_retry] returns the result of the last call it
    made: the first attempt that succeeds, or fails with an error that is
    not retryable, or is attempt number [max_retry] (counted from 0).
    Every attempt before it failed with a retryable error, so at most
    [max_retry + 1] calls are made; the state is SUCCESS or FAILED by the
    result, and [current_retry] counts the attempts repeated. *)
Theorem retry_ends_with_first_decisive_attempt env fuel c :
  0 ≤ max_retry c < 2 ^ 32 →
  (Z.to_nat (max_retry c) < fuel)%nat →
  ∃ k c',
    backup_execute_with_retry fuel env c = Some (operation env k, c', S k)
    ∧ Z.of_nat k ≤ max_retry c
    ∧ (∀ j, (j < k)%nat → is_retryable_error (operation env j) = true)
    ∧ (operation env k = BACKUP_SUCCESS
       ∨ is_retryable_error (operation env k) = false
       ∨ Z.of_nat k = max_retry c)
    ∧ current_retry c' = Z.of_nat k
    ∧ retry_state c'
      = (if operation env k =? BACKUP_SUCCESS then RETRY_STATE_SUCCESS
         else RETRY_STATE_FAILED)
    ∧ last_error c'
      = (if operation env k =? BACKUP_SUCCESS
         then (if decide (k = 0%nat) then last_error c
               else operation env (k - 1))
         else operation env k).
Proof.
  intros Hmax Hfuel. unfold backup_execute_with_retry.
  set (c0 := with_progress c 0 _ _ _).
  destruct (retry_loop_decides env fuel 0 c0)
    as (k & c' & Hloop & _ & Hkm & Hbefore & Hdec & Hcur & _ & Hst & Herr);
    [done|simpl; lia|simpl; lia|simpl; lia|].
  exists k, c'. split_and!; try done.
  - intros j Hj. apply Hbefore. lia.
  - destruct (Z.eqb_spec (operation env k) BACKUP_SUCCESS) as [Hs|Hs];
      [|by apply Herr].
    clear Hst Herr Hdec Hcur.
    assert (∀ fuel calls c1 k c',
              retry_loop fuel env calls c1 = Some (operation env k, c', S k) →
              operation env k = BACKUP_SUCCESS →
              last_error c'
              = if decide (k = calls) then last_error c1
                else operation env (k - 1)) as Hlast.
    { clear. induction fuel as [|fuel IH]; intros calls c1 k c'; [done|].
      cbn [retry_loop]. destruct (current_retry c1 <=? max_retry c1).
      - destruct (Z.eqb_spec (operation env calls) BACKUP_SUCCESS) as [Hs|Hs].
        + intros [= _ <- ->] _. by rewrite decide_True.
        + destruct (negb _ || _).
          * intros [= Hop _ ->] Hk. congruence.
          * intros Hloop Hk. rewrite (IH _ _ _ _ Hloop Hk). cbn.
            destruct (decide (k = S calls)) as [->|Hne].
            -- rewrite decide_False by lia. f_equal. lia.
            -- case_decide; [|done]. subst k. congruence.
      - intros [= Hop _ Hk] Hs. rewrite Hs in Hop. done. }
    rewrite (Hlast _ _ _ _ _ Hloop Hs). by subst c0.
Qed.

Lemma retry_ends_with_first_decisive_attempt_witness :
  let env := {| operation := λ k, if (k <? 2)%nat then BACKUP_ERROR_TIMEOUT
                                  else BACKUP_ERROR_DISK_FULL;
                time_s := λ k, 100 + Z.of_nat k |} in
  ∃ k c',
    backup_execute_with_retry 6 env (backup_retry_context_init 5 1)
    = Some (operation env k, c', S k)
    ∧ Z.of_nat k ≤ 5
    ∧ (∀ j, (j < k)%nat → is_retryable_error (operation env j) = true)
    ∧ (operation env k = BACKUP_SUCCESS
       ∨ is_retryable_error (operation env k) = false
       ∨ Z.of_nat k = 5)
    ∧ current_retry c' = Z.of_nat k
    ∧ retry_state c'
      = (if operation env k =? BACKUP_SUCCESS then RETRY_STATE_SUCCESS
         else RETRY_STATE_FAILED)
    ∧ last_error c'
      = (if operation env k =? BACKUP_SUCCESS
         then (if decide (k = 0%nat) then BACKUP_SUCCESS
               else operation env (k - 1))
         else operation env k).
Proof.
  intros env.
  apply (retry_ends_with_first_decisive_attempt env 6
           (backup_retry_context_init 5 1)).
  - simpl. lia.
  - simpl. lia.
Defined.

(** X21.  [backup_write_file_with_retry] repeats the write until an
    attempt succeeds or attempt number [max_retry] has failed.  It
    returns the result of that last attempt; after a failure, which is
    always a file error here, the error counter is one higher and the
    message reported is "File write operation failed" (when its copy
    could be allocated).  The retry counter of the statistics is the
    same afterwards, however many attempts were repeated. *)
Theorem file_write_is_retried_until_written
    fuel writes clock alloc_ok ce :
  0 ≤ max_retry (retry_context (coordinator ce)) < 2 ^ 32 →
  (Z.to_nat (max_retry (retry_context (coordinator ce))) < fuel)%nat →
  ∃ k ce',
    backup_write_file_with_retry fuel writes clock alloc_ok ce
    = Some (file_write_operation (writes k), ce', S k)
    ∧ Z.of_nat k ≤ max_retry (retry_context (coordinator ce))
    ∧ (∀ j, (j < k)%nat → writes j = false)
    ∧ (writes k = false
       → Z.of_nat k = max_retry (retry_context (coordinator ce)))
    ∧ backup_get_error_stats ce'
      = (if writes k then error_count (coordinator ce)
         else wrap64 (error_count (coordinator ce) + 1),
         retry_count (coordinator ce))
    ∧ (if writes k then last_error_message ce' = last_error_message ce
       else alloc_ok = true
            → backup_get_last_error ce'
              = "File write operation failed"%string).
Proof.
  intros Hmax Hfuel.
  unfold backup_write_file_with_retry, backup_execute_with_retry.
  set (c0 := with_progress _ 0 _ _ _).
  destruct (retry_loop_decides (file_write_env writes clock) fuel 0 c0)
    as (k & c' & Hloop & _ & Hkm & Hbefore & Hdec & _);
    [done|simpl; lia|simpl; lia|simpl; lia|].
  rewrite Hloop. cbn [operation file_write_env] in *.
  eexists k, _. split; [done|]. split; [done|].
  assert (∀ w, is_retryable_error (file_write_operation w) = negb w) as Hrt
    by (by intros []).
  split_and!.
  - intros j Hj. specialize (Hbefore j). rewrite Hrt in Hbefore.
    apply negb_true_iff, Hbefore. lia.
  - intros Hw. rewrite Hw in Hdec. by destruct Hdec as [?|[?|?]].
  - by destruct (writes k).
  - destruct (writes k); [done|]. by intros ->.
Qed.

Lemma file_write_is_retried_until_written_witness :
  let ce := {| coordinator := coordinator_over one_dirty;
               last_error_message := None |} in
  let writes := λ k : nat, (2 <=? k)%nat in
  ∃ k ce',
    backup_write_file_with_retry 11 writes (λ _, 0) true ce
    = Some (file_write_operation (writes k), ce', S k)
    ∧ Z.of_nat k ≤ 10
    ∧ (∀ j, (j < k)%nat → writes j = false)
    ∧ (writes k = false → Z.of_nat k = 10)
    ∧ backup_get_error_stats ce'
      = (if writes k then 0 else wrap64 (0 + 1), 0)
    ∧ (if writes k then last_error_message ce' = None
       else true = true
            → backup_get_last_error ce'
              = "File write operation failed"%string).
Proof.
  intros ce writes.
  apply (file_write_is_retried_until_written 11 writes (λ _, 0) true ce).
  - simpl. lia.
  - simpl. lia.
Defined.

(** ** Errors *)

Lemma record_all_snoc errors error ce :
  record_all (errors ++ [error]) ce
  = backup_record_error error.1.1 (record_all errors ce) error.1.2 error.2.
Proof. unfold record_all. by rewrite fold_left_app. Qed.

(** X22.  Errors are counted, and the last one is reported until it
    is cleared: after any run of [backup_record_error] calls the error
    counter has grown by their number (as a [uint64_t]) and the retry
    context is untouched; [backup_get_last_error] returns the message of
    the last call, or, when that call had no message or its copy could
    not be allocated, the text for the last error of the retry context,
    whatever codes were passed in.  [backup_clear_error] then makes the
    report "Success" and the retry state IDLE, and leaves both counters
    as they are. *)
Theorem recorded_errors_are_counted_and_the_last_reported errors ce :
  0 ≤ error_count (coordinator ce) < 2 ^ 64 →
  let recorded := record_all errors ce in
  let cleared := backup_clear_error recorded in
  backup_get_error_stats recorded
  = (wrap64 (error_count (coordinator ce) + Z.of_nat (List.length errors)),
     retry_count (coordinator ce))
  ∧ retry_context (coordinator recorded) = retry_context (coordinator ce)
  ∧ backup_get_last_error recorded
    = match last errors with
      | None => backup_get_last_error ce
      | Some (true, _, Some message) => message
      | Some _ =>
          get_error_message (last_error (retry_context (coordinator ce)))
      end
  ∧ backup_get_last_error cleared = "Success"%string
  ∧ retry_state (retry_context (coordinator cleared)) = RETRY_STATE_IDLE
  ∧ backup_get_error_stats cleared = backup_get_error_stats recorded.
Proof.
  intros Hcount recorded cleared. subst recorded cleared.
  assert (∀ errors,
            backup_get_error_stats (record_all errors ce)
            = (wrap64 (error_count (coordinator ce)
                       + Z.of_nat (List.length errors)),
               retry_count (coordinator ce))
            ∧ retry_context (coordinator (record_all errors ce))
              = retry_context (coordinator ce)) as Hall.
  { clear errors. intros errors.
    induction errors as [|error errors [IHs IHc]] using rev_ind.
    - cbn. unfold backup_get_error_stats, wrap64.
      by rewrite Z.add_0_r, Z.mod_small.
    - rewrite record_all_snoc, length_app.
      unfold backup_get_error_stats in *. cbn in *.
      injection IHs as IHe IHr. rewrite IHe, IHr, IHc.
      split; [|done]. f_equal. unfold wrap64.
      rewrite Zplus_mod_idemp_l. f_equal. lia. }
  destruct (Hall errors) as [Hstats Hctx].
  split_and!; try done.
  destruct errors as [|error errors _] using rev_ind; [done|].
  rewrite record_all_snoc, last_snoc.
  destruct (Hall errors) as [_ Hctx'].
  unfold backup_get_last_error at 1. cbn. rewrite Hctx'.
  by destruct error as [[[] code] []].
Qed.

Lemma recorded_errors_are_counted_and_the_last_reported_witness :
  let ce := {| coordinator := coordinator_over one_dirty;
               last_error_message := None |} in
  let errors := [ (true, BACKUP_ERROR_NETWORK, Some "first"%string);
                  (true, BACKUP_ERROR_DISK_FULL, None);
                  (true, BACKUP_ERROR_TIMEOUT, Some "third"%string) ] in
  backup_get_error_stats (record_all errors ce) = (wrap64 (0 + 3), 0)
  ∧ backup_get_last_error (record_all errors ce) = "third"%string.
Proof.
  intros ce errors.
  assert (0 ≤ error_count (coordinator ce) < 2 ^ 64) as Hcount
    by (cbn; lia).
  destruct (recorded_errors_are_counted_and_the_last_reported errors ce
              Hcount) as (Hstats & _ & Hlast & _).
  split; [exact Hstats|exact Hlast].
Defined.

(** ** Validation *)

(** X23.  [backup_coordinator_validate_backup] returns 0 when every
    block of the list has metadata in the engine with a WAL offset in
    [[start_wal, end_wal]], and -1 otherwise; the fields of a block
    other than its id play no part. *)
Theorem validate_backup_checks_current_offsets co start_wal end_wal blocks :
  let valid := λ block,
    ∃ metadata,
      bitmap_engine_get_block_metadata (bitmap_engine co) (ib_block_id block)
      = Some metadata
      ∧ start_wal ≤ wal_offset metadata ≤ end_wal in
  (backup_coordinator_validate_backup co start_wal end_wal blocks = 0
   ↔ Forall valid blocks)
  ∧ (backup_coordinator_validate_backup co start_wal end_wal blocks = -1
     ↔ ¬ Forall valid blocks).
Proof.
  intros valid. induction blocks as [|block blocks [IH0 IH1]]; simpl.
  - split; split; try done. intros H. by destruct H.
  - assert (Forall valid (block :: blocks)
            ↔ valid block ∧ Forall valid blocks) as Hcons
      by apply Forall_cons.
    rewrite Hcons. subst valid. simpl in *.
    destruct (bitmap_engine_get_block_metadata (bitmap_engine co)
                (ib_block_id block)) as [metadata|].
    + destruct (Z.ltb_spec (wal_offset metadata) start_wal);
        [|destruct (Z.ltb_spec end_wal (wal_offset metadata))]; simpl.
      * split; split; try done.
        -- intros [(md & [= <-] & ?) _]. lia.
        -- intros _ [(md & [= <-] & ?) _]. lia.
      * split; split; try done.
        -- intros [(md & [= <-] & ?) _]. lia.
        -- intros _ [(md & [= <-] & ?) _]. lia.
      * rewrite IH0, IH1. split; split.
        -- intros ?. split; [|done]. exists metadata. split; [done|lia].
        -- by intros [_ ?].
        -- intros Hn [_ ?]. done.
        -- intros Hn Hf. apply Hn. split; [|done].
           exists metadata. split; [done|lia].
    + split; split; try done.
      * intros [(md & ? & _) _]. done.
      * intros _ [(md & ? & _) _]. done.
Qed.

(** ** Batches *)






(** X25.  Postings go stale: a block that is posted under one WAL
    offset (as [int64_t]) and is then marked dirty at another is still
    stored by a WAL query for the first offset alone, while its metadata
    carry the second; a batch that holds the block therefore fails the
    validation against the very range it was queried with. *)
Theorem remarked_block_answers_to_its_old_offset
    alloc_ok e id wal1 wal2 ts2 e2 max_count :
  posted (wal_index e) (to_int64 wal1) id →
  bitmap_engine_mark_dirty alloc_ok e id wal2 ts2 = (SUCCESS, e2) →
  0 < max_count < 2 ^ 32 →
  id ∈ (bitmap_engine_get_dirty_blocks_by_wal e2 wal1 wal1 max_count).1
  ∧ bitmap_engine_get_block_metadata e2 id
    = Some {| block_id := id; wal_offset := wal2; timestamp := ts2;
              state := BLOCK_STATE_DIRTY |}
  ∧ (wal2 ≠ wal1 →
     ∀ co block blocks,
       bitmap_engine co = e2 → ib_block_id block = id →
       backup_coordinator_validate_backup co wal1 wal1 (block :: blocks)
       = -1).
Proof.
  intros Hposted H2 Hmax.
  assert (BLOCK_STATE_DIRTY ≠ BLOCK_STATE_CLEAN) as Hto by done.
  change (mark_request BLOCK_STATE_DIRTY alloc_ok e id wal2 ts2
          = (SUCCESS, e2)) in H2.
  destruct (mark_request_via_insert _ _ _ _ _ _ _ Hto H2)
    as (_ & _ & _ & _ & _ & _ & Hw2).
  destruct (mark_request_effect _ _ _ _ _ _ _ Hto H2) as (_ & Hb & _).
  pose proof (mark_request_lookup _ _ _ _ _ _ _ Hto H2 id) as Hfind.
  rewrite decide_True in Hfind by done.
  assert (bitmap_engine_get_block_metadata e2 id
          = Some {| block_id := id; wal_offset := wal2; timestamp := ts2;
                    state := BLOCK_STATE_DIRTY |}) as Hmd
    by (unfold bitmap_engine_get_block_metadata; by rewrite Hfind).
  split_and!; [|done|].
  - unfold bitmap_engine_get_dirty_blocks_by_wal.
    replace (max_count =? 0) with false by (symmetry; apply Z.eqb_neq; lia).
    apply (query_shape e2 (wal_index e2) (to_int64 wal1) (to_int64 wal1)
             max_count Hmax).
    split.
    + specialize (Hb BLOCK_STATE_DIRTY). rewrite decide_True in Hb by done.
      simpl in Hb. rewrite Hb. set_solver.
    + exists (to_int64 wal1). split; [lia|].
      rewrite Hw2. by apply index_add_keeps.
  - intros Hne co block blocks <- Hid. simpl. rewrite Hid, Hmd. simpl.
    destruct (Z.ltb_spec wal2 wal1); [done|].
    destruct (Z.ltb_spec wal1 wal2); [done|lia].
Qed.

Lemma remarked_block_answers_to_its_old_offset_witness :
  let e1 := (bitmap_engine_mark_new true bitmap_engine_init 7 100 1).2 in
  let e2 := (bitmap_engine_mark_dirty true e1 7 900 2).2 in
  7 ∈ (bitmap_engine_get_dirty_blocks_by_wal e2 100 100 10).1
  ∧ bitmap_engine_get_block_metadata e2 7
    = Some {| block_id := 7; wal_offset := 900; timestamp := 2;
              state := BLOCK_STATE_DIRTY |}.
Proof.
  pose (e1 := (bitmap_engine_mark_new true bitmap_engine_init 7 100 1).2).
  pose (e2 := (bitmap_engine_mark_dirty true e1 7 900 2).2).
  assert (posted (wal_index e1) (to_int64 100) 7) as Hp.
  { exists {[ 7 ]}. split; [vm_compute; reflexivity|].
    by apply elem_of_singleton. }
  assert (bitmap_engine_mark_dirty true e1 7 900 2 = (SUCCESS, e2)) as H2
    by (vm_compute; reflexivity).
  assert (0 < 10 < 2 ^ 32) as Hmax by lia.
  destruct (remarked_block_answers_to_its_old_offset true e1 7 100 900 2
              e2 10 Hp H2 Hmax) as (Hq & Hmd & _).
  split; [exact Hq|exact Hmd].
Defined.

(** ** How far a cursor goes *)






End CoordinatorMore.

(** * Properties of the archive *)

Module ArchiveFacts.
Import Archive.

(** ** Memory *)

Lemma length_field mem offset n :
  (offset + n ≤ length mem)%nat → length (field mem offset n) = n.
Proof. intros H. unfold field. rewrite length_take, length_drop. lia. Qed.

Lemma lookup_field mem offset n i :
  field mem offset n !! i
  = if decide (i < n)%nat then mem !! (offset + i)%nat else None.
Proof.
  unfold field. case_decide.
  - by rewrite lookup_take_lt, lookup_drop.
  - by rewrite lookup_take_ge by lia.
Qed.

Lemma lookup_inserts (mem : list Z) offset bytes i :
  (offset + length bytes ≤ length mem)%nat →
  list_inserts offset bytes mem !! i
  = if decide (offset ≤ i < offset + length bytes)%nat
    then bytes !! (i - offset)%nat else mem !! i.
Proof.
  intros H. case_decide.
  - apply list_lookup_inserts; lia.
  - destruct (decide (i < offset)%nat).
    + by apply list_lookup_inserts_lt.
    + apply list_lookup_inserts_ge. lia.
Qed.

Lemma lookup_store (mem : list Z) offset (byte : Z) i :
  (offset < length mem)%nat →
  <[ offset := byte ]> mem !! i
  = if decide (i = offset) then Some byte else mem !! i.
Proof.
  intros H. case_decide.
  - subst. by apply list_lookup_insert_eq.
  - by apply list_lookup_insert_ne.
Qed.

Lemma nth_lookup_Z (mem : list Z) i :
  nth i mem 0 = default 0 (mem !! i).
Proof.
  revert i. induction mem as [|b mem IH]; intros [|i]; simpl; try done.
Qed.

(** ** Streams *)

(** A write that the stream takes in full. *)
Lemma fwrite_taken bytes bytes' answers' :
  (∀ most, answers' !! 0%nat = Some most → (length bytes ≤ most)%nat) →
  fwrite bytes {| contents := bytes'; answers := answers' |}
  = (Z.of_nat (length bytes),
     {| contents := bytes' ++ bytes; answers := drop 1 answers' |}).
Proof.
  intros Hfull. unfold fwrite. cbn [contents answers].
  destruct answers' as [|most rest].
  - by rewrite firstn_all.
  - rewrite Nat.min_l by (by apply Hfull). by rewrite firstn_all.
Qed.

(** Any write: the bytes taken are counted. *)
Lemma fwrite_grows bytes fp :
  ∃ taken,
    fwrite bytes fp
    = (Z.of_nat (length taken),
       {| contents := contents fp ++ taken;
          answers := drop 1 (answers fp) |})
    ∧ (length taken ≤ length bytes)%nat.
Proof.
  unfold fwrite. eexists (take _ bytes). split; [|rewrite length_take; lia].
  do 2 f_equal. rewrite length_take. destruct (answers fp); lia.
Qed.

Lemma fread_into_enough {A} offset n mem (bytes fp : list Z)
    (rest : list Z → list Z → Z * A) failed :
  length bytes = n →
  fread_into offset n mem (bytes ++ fp) rest failed
  = rest (list_inserts offset bytes mem) fp.
Proof.
  intros H. unfold fread_into, fread.
  rewrite take_app_length', drop_app_length' by done.
  by rewrite H, Nat.eqb_refl.
Qed.

Lemma fread_into_short {A} offset n mem (fp : list Z)
    (rest : list Z → list Z → Z * A) failed :
  (length fp < n)%nat →
  (fread_into offset n mem fp rest failed).1 = -1.
Proof.
  intros H. unfold fread_into, fread.
  replace (length (take n fp) =? n)%nat with false; [done|].
  symmetry. apply Nat.eqb_neq. rewrite length_take. lia.
Qed.

Lemma fread_into_cases {A} offset n mem (fp : list Z)
    (rest : list Z → list Z → Z * A) failed :
  fread_into offset n mem fp rest failed
  = if decide (n ≤ length fp)%nat
    then rest (list_inserts offset (take n fp) mem) (drop n fp)
    else (-1, failed (list_inserts offset (take n fp) mem) (drop n fp)).
Proof.
  unfold fread_into, fread. case_decide.
  - replace (length (take n fp) =? n)%nat with true; [done|].
    symmetry. apply Nat.eqb_eq. rewrite length_take. lia.
  - replace (length (take n fp) =? n)%nat with false; [done|].
    symmetry. apply Nat.eqb_neq. rewrite length_take. lia.
Qed.

(** ** The header *)

Lemma obj_name_len_lookup (mem : list Z) :
  obj_name_len mem = default 0 (mem !! 86%nat).
Proof. apply nth_lookup_Z. Qed.

Lemma length_header_image header :
  length header = sizeof_TaosxBackupHeader →
  0 ≤ obj_name_len header ≤ 255 →
  length (header_image header)
  = (100 + Z.to_nat (obj_name_len header))%nat.
Proof.
  unfold sizeof_TaosxBackupHeader. intros Hlen HL. unfold header_image,
    TAOSX_FILE_MAGIC_LEN, TAOSX_COMMIT_ID_LEN.
  rewrite !length_app, !length_field by lia. lia.
Qed.

Lemma field_app mem offset a offset' b :
  offset' = (offset + a)%nat →
  field mem offset a ++ field mem offset' b = field mem offset (a + b).
Proof. intros ->. unfold field. by rewrite <- drop_drop, take_take_drop. Qed.

(** The image is the head of the struct up to the end of the name, and
    its last 13 bytes. *)
Lemma header_image_closed header :
  length header = sizeof_TaosxBackupHeader →
  header_image header
  = take (87 + Z.to_nat (obj_name_len header)) header ++ drop 343 header.
Proof.
  unfold sizeof_TaosxBackupHeader. intros Hlen.
  unfold header_image, TAOSX_FILE_MAGIC_LEN, TAOSX_COMMIT_ID_LEN.
  rewrite !app_assoc.
  rewrite (field_app header 0 4 4 2 eq_refl). cbn [Nat.add].
  rewrite (field_app header 0 6 6 40 eq_refl). cbn [Nat.add].
  rewrite (field_app header 0 46 46 40 eq_refl). cbn [Nat.add].
  rewrite (field_app header 0 86 86 1 eq_refl). cbn [Nat.add].
  rewrite (field_app header 0 87 87 _ eq_refl).
  rewrite <- !app_assoc.
  rewrite (app_assoc (field header 343 8)).
  rewrite (field_app header 343 8 351 1 eq_refl). cbn [Nat.add].
  rewrite (field_app header 343 9 352 4 eq_refl). cbn [Nat.add].
  unfold field. rewrite drop_0. f_equal.
  apply take_ge. rewrite length_drop. lia.
Qed.

Ltac mem_length :=
  repeat first [ rewrite length_inserts | rewrite length_insert ];
  rewrite ?length_field by lia; lia.

Ltac mem_lookup :=
  repeat (first [ rewrite lookup_inserts by mem_length
                | rewrite lookup_store by mem_length ];
          rewrite ?length_field in * by lia;
          case_decide;
          [ try lia; try (rewrite lookup_field; case_decide; [|lia]);
            try done; try (f_equal; lia) | try lia ]);
  try done.

(** X27.  A header is read back as it was written.  On a stream that
    takes each of the nine writes in full, [write_taosx_backup_header]
    returns 0 and appends the [100 + obj_name_len] bytes of the fields in
    the order of the archive format, the object name cut to its length;
    [read_taosx_backup_header] on these bytes
    returns 0, leaves the rest of the stream, and fills the header with
    every field as written, the object name followed by a NUL; the bytes
    of [obj_name] behind the NUL keep what the caller's struct held. *)
Theorem header_is_read_back_as_written fp header dest rest :
  length header = sizeof_TaosxBackupHeader →
  length dest = sizeof_TaosxBackupHeader →
  0 ≤ obj_name_len header ≤ 255 →
  takes_in_full [4; 2; 40; 40; 1; Z.to_nat (obj_name_len header); 8; 1; 4]%nat
    fp →
  let L := Z.to_nat (obj_name_len header) in
  write_taosx_backup_header fp header
  = (0, {| contents := contents fp ++ header_image header;
           answers := drop 9 (answers fp) |})
  ∧ header_image header = take (87 + L) header ++ drop 343 header
  ∧ length (header_image header) = (100 + L)%nat
  ∧ ∃ header',
      read_taosx_backup_header (header_image header ++ rest) dest
      = (0, (header', rest))
      ∧ length header' = sizeof_TaosxBackupHeader
      ∧ take (87 + L) header' = take (87 + L) header
      ∧ header' !! (87 + L)%nat = Some 0
      ∧ drop 343 header' = drop 343 header
      ∧ ∀ i, (87 + L < i < 343)%nat → header' !! i = dest !! i.
Proof.
  unfold sizeof_TaosxBackupHeader. cbv zeta. intros Hlen Hdest HL Hfull.
  set (L := Z.to_nat (obj_name_len header)).
  pose proof (length_header_image header Hlen HL) as Himage.
  split_and!; [|by apply header_image_closed|done|].
  - unfold write_taosx_backup_header, header_image,
      TAOSX_FILE_MAGIC_LEN, TAOSX_COMMIT_ID_LEN.
    destruct fp as [bytes' answers']. unfold takes_in_full in Hfull.
    cbn [contents answers] in *. fold L in Hfull |- *.
    do 9 (rewrite fwrite_taken
            by (intros most Hmost; rewrite ?lookup_drop in Hmost;
                cbn [Nat.add] in Hmost; rewrite length_field by lia;
                refine (Hfull _ _ most _ Hmost); reflexivity);
          cbv beta iota zeta).
    rewrite !length_field by lia. rewrite !drop_drop. cbn [Nat.add].
    rewrite <- !app_assoc.
    by replace (0 <? _) with true by (symmetry; apply Z.ltb_lt; lia).
  - unfold read_taosx_backup_header, header_image,
      TAOSX_FILE_MAGIC_LEN, TAOSX_COMMIT_ID_LEN, TAOSX_OBJ_NAME_MAX_LEN.
    rewrite <- !app_assoc.
    do 5 (rewrite fread_into_enough by (apply length_field; lia);
          cbv beta zeta).
    cbn [Nat.add].
    set (mem5 := list_inserts 86 (field header 86 1) _).
    assert (obj_name_len mem5 = obj_name_len header) as HL5.
    { rewrite !obj_name_len_lookup. f_equal. subst mem5. mem_lookup. }
    rewrite HL5. fold L.
    replace (Z.of_nat 256 <? obj_name_len header) with false
      by (symmetry; apply Z.ltb_ge; lia).
    rewrite fread_into_enough by (apply length_field; lia). cbv beta zeta.
    set (mem6 := list_inserts 87 (field header 87 L) _).
    assert (obj_name_len mem6 = obj_name_len header) as HL6.
    { rewrite !obj_name_len_lookup. f_equal. subst mem6 mem5. mem_lookup. }
    rewrite HL6. fold L.
    do 3 (rewrite fread_into_enough by (apply length_field; lia);
          cbv beta zeta).
    eexists. split; [reflexivity|]. subst mem6 mem5.
    split_and!.
    + mem_length.
    + apply list_eq. intros i. destruct (decide (i < 87 + L)%nat).
      * rewrite !lookup_take_lt by done. mem_lookup.
      * by rewrite !lookup_take_ge by lia.
    + mem_lookup.
    + apply list_eq. intros i. rewrite !lookup_drop.
      destruct (decide (343 + i < 356)%nat).
      * mem_lookup.
      * rewrite !lookup_ge_None_2; [done|lia|mem_length].
    + intros i Hi. mem_lookup.
Qed.

Lemma header_is_read_back_as_written_witness :
  let fp := empty_file [4; 2; 40; 40; 1; 3; 8; 1; 4; 0]%nat in
  write_taosx_backup_header fp example_header
  = (0, {| contents := [] ++ header_image example_header;
           answers := [0%nat] |})
  ∧ header_image example_header
    = take (87 + 3) example_header ++ drop 343 example_header.
Proof.
  intros fp.
  assert (length example_header = sizeof_TaosxBackupHeader) as Hlen
    by reflexivity.
  assert (0 ≤ obj_name_len example_header ≤ 255) as HL
    by (by vm_compute).
  assert (takes_in_full
            [4; 2; 40; 40; 1; Z.to_nat (obj_name_len example_header);
             8; 1; 4]%nat fp) as Hfull.
  { intros i size most Hsize Hmost.
    do 9 (destruct i as [|i];
          [vm_compute in Hsize, Hmost;
           injection Hsize as <-; injection Hmost as <-; lia|]).
    vm_compute in Hsize. discriminate. }
  destruct (header_is_read_back_as_written fp example_header
              example_header [] Hlen Hlen HL Hfull) as (Hw & Hi & _).
  split; [exact Hw|exact Hi].
Defined.

(** A stream that ends before the end of the header it starts with. *)
Lemma read_header_short (fp dest : list Z) :
  length dest = sizeof_TaosxBackupHeader →
  (length fp < 100 + Z.to_nat (default 0%Z (fp !! 86%nat)))%nat →
  (read_taosx_backup_header fp dest).1 = -1.
Proof.
  unfold sizeof_TaosxBackupHeader. intros Hdest Hshort.
  unfold read_taosx_backup_header, TAOSX_FILE_MAGIC_LEN,
    TAOSX_COMMIT_ID_LEN, TAOSX_OBJ_NAME_MAX_LEN.
  do 5 (rewrite fread_into_cases; case_decide; [cbv beta zeta|done]).
  cbn [Nat.add].
  set (mem5 := list_inserts 86 _ _).
  assert (obj_name_len mem5 = default 0 (fp !! 86%nat)) as HL5.
  { rewrite obj_name_len_lookup. f_equal. subst mem5.
    rewrite lookup_inserts;
      [|repeat first [ rewrite length_inserts | rewrite length_insert ];
        rewrite length_take; lia].
    rewrite decide_True by (rewrite length_take, !length_drop in *; lia).
    rewrite lookup_take_lt, !lookup_drop by lia. done. }
  rewrite HL5.
  destruct (Z.of_nat 256 <? default 0 (fp !! 86%nat)); [done|].
  do 4 (rewrite fread_into_cases; case_decide; [cbv beta zeta|done]).
  rewrite !length_drop in *. lia.
Qed.

(** X28.  A header cut short is reported as written.  Whatever the
    stream takes of the nine writes, [write_taosx_backup_header] returns
    -1 only when no byte at all was taken, and 0 otherwise: the bytes
    taken may be any part of the [100 + obj_name_len] bytes of the
    header.  [read_taosx_backup_header] returns -1 on every file that
    ends within the header. *)
Theorem truncated_header_is_reported_as_written fp header dest :
  length header = sizeof_TaosxBackupHeader →
  length dest = sizeof_TaosxBackupHeader →
  0 ≤ obj_name_len header ≤ 255 →
  let out := write_taosx_backup_header fp header in
  (∃ part,
     contents out.2 = contents fp ++ part
     ∧ (length part ≤ 100 + Z.to_nat (obj_name_len header))%nat
     ∧ out.1 = (if decide (part = []) then -1 else 0))
  ∧ ∀ n, (n < 100 + Z.to_nat (obj_name_len header))%nat →
         (read_taosx_backup_header (take n (header_image header)) dest).1
         = -1.
Proof.
  intros Hlen Hdest HL out. subst out.
  pose proof (length_header_image header Hlen HL) as Himage.
  split.
  - unfold sizeof_TaosxBackupHeader in Hlen.
    unfold write_taosx_backup_header, TAOSX_FILE_MAGIC_LEN,
      TAOSX_COMMIT_ID_LEN.
    repeat match goal with
           | |- context [fwrite ?a ?f] =>
               is_var f;
               let taken := fresh "taken" in
               let Hw := fresh "Hw" in
               let Ht := fresh "Ht" in
               destruct (fwrite_grows a f) as (taken & Hw & Ht);
               rewrite Hw; clear Hw; cbv beta iota zeta;
               rewrite length_field in Ht by lia;
               match goal with
               | |- context [fwrite _ ?g] =>
                   let f' := fresh "fp" in set (f' := g)
               | _ => idtac
               end
           end.
    repeat match goal with f := _ : out_file |- _ => subst f end.
    cbn [fst snd contents].
    exists (taken ++ taken0 ++ taken1 ++ taken2 ++ taken3 ++ taken4
            ++ taken5 ++ taken6 ++ taken7).
    split; [by rewrite <- !app_assoc|].
    split; [rewrite !length_app; lia|].
    case_decide as Hpart.
    + repeat (apply app_eq_nil in Hpart as [-> Hpart]). subst. done.
    + replace (0 <? _) with true; [done|].
      symmetry. apply Z.ltb_lt.
      destruct (decide (0 < length taken + length taken0 + length taken1
                        + length taken2 + length taken3 + length taken4
                        + length taken5 + length taken6
                        + length taken7)%nat) as [|Hzero]; [lia|].
      exfalso. apply Hpart.
      repeat match goal with
             | t : list Z |- _ =>
                 destruct t; [|cbn [length] in Hzero; lia]
             end.
      done.
  - intros n Hn. apply read_header_short; [done|].
    rewrite length_take, Himage.
    destruct (decide (86 < n)%nat) as [Hin|Hout].
    + rewrite lookup_take_lt by done.
      rewrite (header_image_closed header Hlen).
      rewrite lookup_app_l by (rewrite length_take; unfold
        sizeof_TaosxBackupHeader in Hlen; lia).
      rewrite lookup_take_lt by lia.
      rewrite <- obj_name_len_lookup. lia.
    + rewrite lookup_take_ge by lia. simpl. lia.
Qed.

(** The theorem above on a stream that takes the first 50 bytes of the
    example and no more: the write returns 0, and the file is
    refused. *)
Lemma truncated_header_is_reported_as_written_witness :
  let fp := empty_file [4; 2; 40; 4; 0; 0; 0; 0; 0]%nat in
  let out := write_taosx_backup_header fp example_header in
  out.1 = 0
  ∧ contents out.2 = take 50 (header_image example_header)
  ∧ (read_taosx_backup_header (take 50 (header_image example_header))
       example_header).1 = -1.
Proof.
  intros fp out.
  assert (length example_header = sizeof_TaosxBackupHeader) as Hlen
    by reflexivity.
  assert (0 ≤ obj_name_len example_header ≤ 255) as HL
    by (by vm_compute).
  destruct (truncated_header_is_reported_as_written fp example_header
              example_header Hlen Hlen HL) as [_ Hread].
  split; [reflexivity|]. split; [reflexivity|].
  apply (Hread 50%nat). vm_compute. lia.
Defined.

(** ** Blocks *)

(** X29.  A block is read back as it was written.  For a block header
    whose [msg_len] is the length of the body, on a stream that takes
    each write in full, [write_taosx_backup_block] returns 0 and appends
    the [7 + msg_len] bytes of the header and the body, in three writes
    and a fourth for a body that is not empty; [read_taosx_backup_block] on these
    bytes, with a buffer of at least [msg_len] bytes, returns 0, restores
    the header, puts the body at the head of the buffer and leaves the
    rest of the stream.  A buffer announced smaller than [msg_len] is
    refused with -1 once the header has been read: the body stays in the
    stream. *)
Theorem block_is_read_back_as_written
    fp block body dest buf buf_size rest :
  length block = 7%nat →
  length dest = 7%nat →
  msg_len block = Z.of_nat (length body) →
  takes_in_full [1; 4; 2; length body]%nat fp →
  Z.of_nat (length body) ≤ buf_size ≤ Z.of_nat (length buf) →
  write_taosx_backup_block fp block (Some body)
  = (0, {| contents := contents fp ++ block ++ body;
           answers := drop (if 0 <? msg_len block then 4 else 3)
                        (answers fp) |})
  ∧ read_taosx_backup_block (block ++ body ++ rest) dest (Some buf) buf_size
    = (0, (block, Some (body ++ drop (length body) buf), rest))
  ∧ ∀ small_buf small_size,
      0 ≤ small_size < Z.of_nat (length body) →
      read_taosx_backup_block (block ++ body ++ rest) dest small_buf
        small_size
      = (-1, (block, small_buf, body ++ rest)).
Proof.
  intros Hlen Hdest Hmsg Hfull Hbuf.
  assert (∀ bytes, block_image block bytes = block ++ bytes) as Himage.
  { intros bytes. unfold block_image. rewrite !app_assoc.
    rewrite (field_app block 0 1 1 4 eq_refl). cbn [Nat.add].
    rewrite (field_app block 0 5 5 2 eq_refl). cbn [Nat.add].
    unfold field. rewrite drop_0. f_equal. apply take_ge. lia. }
  assert (block = field block 0 1 ++ field block 1 4 ++ field block 5 2)
    as Hfields.
  { pose proof (Himage []) as H. unfold block_image in H.
    by rewrite !app_nil_r in H. }
  assert (list_inserts 5 (field block 5 2)
            (list_inserts 1 (field block 1 4)
               (list_inserts 0 (field block 0 1) dest)) = block) as Hmem.
  { apply list_eq. intros i. destruct (decide (i < 7)%nat).
    - mem_lookup.
    - rewrite !lookup_ge_None_2; [done|lia|mem_length]. }
  split_and!.
  - unfold write_taosx_backup_block.
    destruct fp as [bytes' answers']. unfold takes_in_full in Hfull.
    cbn [contents answers] in *.
    do 3 (rewrite fwrite_taken
            by (intros most Hmost; rewrite ?lookup_drop in Hmost;
                cbn [Nat.add] in Hmost; rewrite length_field by lia;
                refine (Hfull _ _ most _ Hmost); reflexivity);
          cbv beta iota zeta).
    rewrite !length_field by lia. rewrite Hmsg, Nat2Z.id, firstn_all.
    rewrite <- !app_assoc, <- Hfields.
    change (default [] (Some body)) with body.
    destruct (Z.ltb_spec 0 (Z.of_nat (length body))) as [Hpos|Hzero].
    + rewrite fwrite_taken
        by (intros most Hmost; rewrite ?lookup_drop in Hmost;
            cbn [Nat.add] in Hmost; refine (Hfull _ _ most _ Hmost); reflexivity).
      rewrite !drop_drop. cbn [Nat.add]. rewrite <- !app_assoc.
      by replace (0 <? _) with true by (symmetry; apply Z.ltb_lt; lia).
    + destruct body; [|simpl in Hzero; lia].
      rewrite !drop_drop. cbn [Nat.add]. by rewrite !app_nil_r.
  - unfold read_taosx_backup_block. rewrite Hfields at 1.
    rewrite <- !app_assoc.
    do 3 (rewrite fread_into_enough by (apply length_field; lia);
          cbv beta zeta).
    rewrite Hmem, Hmsg.
    destruct (Z.ltb_spec 0 (Z.of_nat (length body))) as [Hpos|Hzero].
    + replace (buf_size <? Z.of_nat (length body)) with false
        by (symmetry; apply Z.ltb_ge; lia).
      rewrite Nat2Z.id, fread_into_enough by done.
      do 4 f_equal.
      rewrite <- (take_drop (length body) buf) at 1.
      apply list_inserts_0_r. rewrite length_take. lia.
    + destruct body; [|simpl in Hzero; lia]. by rewrite drop_0.
  - intros small_buf small_size Hsmall.
    unfold read_taosx_backup_block. rewrite Hfields at 1.
    rewrite <- !app_assoc.
    do 3 (rewrite fread_into_enough by (apply length_field; lia);
          cbv beta zeta).
    rewrite Hmem, Hmsg.
    replace (0 <? Z.of_nat (length body)) with true
      by (symmetry; apply Z.ltb_lt; lia).
    destruct small_buf as [small|]; [|done].
    by replace (small_size <? Z.of_nat (length body)) with true
      by (symmetry; apply Z.ltb_lt; lia).
Qed.

Lemma block_is_read_back_as_written_witness :
  write_taosx_backup_block (empty_file [1; 4; 2; 3; 0]%nat) example_block
    (Some [10; 20; 30])
  = (0, {| contents := [] ++ example_block ++ [10; 20; 30];
           answers := [0%nat] |})
  ∧ read_taosx_backup_block (example_block ++ [10; 20; 30] ++ [255])
      (replicate 7 0) (Some (replicate 4 0)) 4
    = (0, (example_block, Some ([10; 20; 30] ++ [0]), [255])).
Proof.
  assert (length example_block = 7%nat) as Hlen by reflexivity.
  assert (length (replicate 7 0) = 7%nat) as Hdest by reflexivity.
  assert (msg_len example_block = Z.of_nat (length [10; 20; 30])) as Hmsg
    by reflexivity.
  assert (takes_in_full [1; 4; 2; length [10; 20; 30]]%nat
            (empty_file [1; 4; 2; 3; 0]%nat)) as Hfull.
  { intros i size most Hsize Hmost.
    do 4 (destruct i as [|i];
          [vm_compute in Hsize, Hmost;
           injection Hsize as <-; injection Hmost as <-; lia|]).
    vm_compute in Hsize. discriminate. }
  assert (Z.of_nat (length [10; 20; 30]) ≤ 4
          ≤ Z.of_nat (length (replicate 4 0))) as Hbuf by (simpl; lia).
  destruct (block_is_read_back_as_written
              (empty_file [1; 4; 2; 3; 0]%nat) example_block
              [10; 20; 30] (replicate 7 0) (replicate 4 0) 4 [255]
              Hlen Hdest Hmsg Hfull Hbuf) as (Hw & Hr & _).
  split; [exact Hw|exact Hr].
Defined.

(** ** The checksum *)

Lemma le_value_le_bytes n z :
  0 ≤ z < 256 ^ Z.of_nat n → le_value (le_bytes n z) = z.
Proof.
  revert z. induction n as [|n IH]; intros z Hz.
  - simpl in *. lia.
  - cbn [le_bytes le_value fold_right].
    change (fold_right (λ byte value, byte + 256 * value) 0
              (le_bytes n (z / 256))) with (le_value (le_bytes n (z / 256))).
    rewrite IH.
    + pose proof (Z.div_mod z 256). lia.
    + rewrite Nat2Z.inj_succ, Z.pow_succ_r in Hz by lia.
      split; [apply Z.div_pos; lia|].
      apply Z.div_lt_upper_bound; lia.
Qed.

Lemma length_le_bytes n z : length (le_bytes n z) = n.
Proof. revert z. induction n; intros z; simpl; [done|]. by rewrite IHn. Qed.

(** X30.  The checksum of a body is read back as it was written.  For
    a body of positive length [write_taosx_body_crc32] hands the CRC-32
    of the body to one [fwrite], as a little-endian [uint32_t], and
    returns 0 when the stream takes the four bytes and -1 when it takes
    fewer; [read_taosx_body_crc32] on the four bytes returns 0 and
    stores that value.  A body of length 0 is refused with -1 and
    nothing is written. *)
Theorem body_crc32_is_read_back_as_written
    (crc32 : Z → list Z → Z) fp body_buf body_len dest rest :
  0 < body_len →
  length dest = 4%nat →
  let crc := wrap32 (crc32 0 (take (Z.to_nat body_len) body_buf)) in
  let out := write_taosx_body_crc32 crc32 fp body_buf body_len in
  (∃ taken,
     contents out.2 = contents fp ++ taken
     ∧ answers out.2 = drop 1 (answers fp)
     ∧ taken = take (default 4%nat (head (answers fp))) (le_bytes 4 crc)
     ∧ out.1 = (if decide (taken = le_bytes 4 crc) then 0 else -1))
  ∧ (∃ crc_mem,
       read_taosx_body_crc32 (le_bytes 4 crc ++ rest) dest
       = (0, (crc_mem, rest))
       ∧ le_value crc_mem = crc)
  ∧ write_taosx_body_crc32 crc32 fp body_buf 0 = (-1, fp).
Proof.
  intros Hlen Hdest crc out. subst out. unfold write_taosx_body_crc32.
  replace (body_len =? 0) with false by (symmetry; apply Z.eqb_neq; lia).
  fold crc. pose proof (length_le_bytes 4 crc) as Hbytes.
  split_and!; [| |done].
  - unfold fwrite. cbn [fst snd contents answers]. rewrite Hbytes.
    eexists. split; [reflexivity|]. split; [done|].
    destruct (answers fp) as [|most more]; cbn [head default id].
    + split; [done|]. rewrite firstn_all2 by lia.
      by rewrite decide_True by done.
    + destruct (decide (4 ≤ most)%nat) as [Hfull|Hshort].
      * rewrite Nat.min_l by done. rewrite !firstn_all2 by lia.
        split; [done|]. by rewrite decide_True by done.
      * rewrite Nat.min_r by lia. split; [done|].
        rewrite decide_False.
        -- replace (Z.of_nat most =? 4) with false; [done|].
           symmetry. apply Z.eqb_neq. lia.
        -- intros Heq. apply (f_equal length) in Heq.
           rewrite length_take, Hbytes in Heq. lia.
  - unfold read_taosx_body_crc32.
    rewrite fread_into_enough by apply length_le_bytes.
    eexists. split; [done|].
    rewrite <- (app_nil_r dest), list_inserts_0_r
      by (by rewrite length_le_bytes).
    rewrite app_nil_r. apply le_value_le_bytes.
    subst crc. unfold wrap32.
    pose proof (Z.mod_pos_bound (crc32 0 (take (Z.to_nat body_len) body_buf))
                  (2 ^ 32)). lia.
Qed.

(** The theorem above with a sum in the place of the CRC-32, on a stream
    that takes the four bytes and on one that takes two. *)
Lemma body_crc32_is_read_back_as_written_witness :
  let sum := λ (crc : Z) (bytes : list Z), fold_right Z.add crc bytes in
  let out := write_taosx_body_crc32 sum (empty_file []) [10; 20; 30] 3 in
  let short :=
    write_taosx_body_crc32 sum (empty_file [2%nat]) [10; 20; 30] 3 in
  out.1 = 0 ∧ contents out.2 = [60; 0; 0; 0]
  ∧ short.1 = -1 ∧ contents short.2 = [60; 0]
  ∧ ∃ crc_mem,
      read_taosx_body_crc32 ([60; 0; 0; 0] ++ []) (replicate 4 0)
      = (0, (crc_mem, []))
      ∧ le_value crc_mem = 60.
Proof.
  intros sum out short.
  assert (0 < 3) as Hlen by lia.
  assert (length (replicate 4 0) = 4%nat) as Hdest by reflexivity.
  destruct (body_crc32_is_read_back_as_written sum (empty_file [])
              [10; 20; 30] 3 (replicate 4 0) [] Hlen Hdest)
    as (_ & Hread & _).
  split; [reflexivity|]. split; [reflexivity|].
  split; [reflexivity|]. split; [reflexivity|].
  exact Hread.
Defined.

End ArchiveFacts.
